(** * bnf-prototype: the manifest generator, embedded and verified

    A shallow embedding of [scripts/generate-manifest.ts] (and of its
    interactive twin, the React component that repeats the same functions):
    the two fragment parsers, the identifier join with the page range
    accumulator, the two interval reconcilers and the manifest assembler.

    Conventions of the embedding.
    - A JavaScript [number] is a value of [number]: [NaN], the two
      infinities, or a finite value carried by a canonical rational.  Finite
      arithmetic is exact: the rounding of IEEE doubles and the sign of
      zero are not represented.  A theorem about computed bounds is
      stated so that rounding keeps it true (a bound on the magnitude
      where a sum could overflow, an order that is not strict where a
      midpoint could round onto a neighbour).
    - A JavaScript string is a [string]; scanning works on [list ascii].
    - A [Record<string, V>] is an association list in the order
      [Object.entries] enumerates it (keys are note identifiers and URLs,
      never array indices or names inherited from [Object.prototype], so
      that order is insertion order and a missing key reads [undefined]).
      The list holds the keys the object owns: what the script writes
      through the key "__proto__" lands on [Object.prototype] and is not
      represented, so a theorem that such a write would break excludes
      that key from the temporal collection.
    - Code that can throw returns a [completion].
    - What the script takes from outside (the vault, the tables built from
      the image manifest, the text of a number) is a [Variable] of the
      section that uses it. *)

From Stdlib Require Import List String Ascii Bool Arith ZArith QArith Qcanon.
From Stdlib Require SpecFloat.
From Stdlib Require Import Lia Lqa Permutation Sorted.
Import ListNotations.

Set Implicit Arguments.

Close Scope Qc_scope.
Close Scope Q_scope.

(** ** JavaScript numbers *)

Module Num.

Inductive number : Type :=
| NaN
| NegInf
| PosInf
| Fin (q : Qc).

Definition zero : number := Fin (Q2Qc 0).
Definition two : number := Fin (Q2Qc 2).

(** [of_Z n] is the number denoted by the integer literal [n];
    [decimal m k] is the one denoted by the decimal literal m / 10^k. *)
Definition of_Z (n : Z) : number := Fin (Q2Qc (inject_Z n)).
Definition decimal (m : Z) (k : nat) : number :=
  Fin (Q2Qc (inject_Z m / inject_Z (10 ^ Z.of_nat k))%Q).

Definition isNaN (x : number) : bool :=
  match x with NaN => true | _ => false end.

Definition finite (x : number) : Prop :=
  match x with Fin _ => True | _ => False end.

Definition neg (x : number) : number :=
  match x with
  | NaN => NaN
  | NegInf => PosInf
  | PosInf => NegInf
  | Fin q => Fin (- q)%Qc
  end.

(** [x + y] *)
Definition add (x y : number) : number :=
  match x, y with
  | NaN, _ | _, NaN => NaN
  | PosInf, NegInf | NegInf, PosInf => NaN
  | PosInf, _ | _, PosInf => PosInf
  | NegInf, _ | _, NegInf => NegInf
  | Fin a, Fin b => Fin (a + b)%Qc
  end.

(** [x - y] *)
Definition sub (x y : number) : number := add x (neg y).

(** The sign of a finite value: [Lt], [Eq] or [Gt] against zero. *)
Definition sgn (q : Qc) : comparison := (q ?= 0)%Qc.

(** [x / y]; a zero divisor counts as +0. *)
Definition div (x y : number) : number :=
  match x, y with
  | NaN, _ | _, NaN => NaN
  | Fin a, Fin b =>
      match sgn b with
      | Eq => match sgn a with Eq => NaN | Lt => NegInf | Gt => PosInf end
      | _ => Fin (a / b)%Qc
      end
  | Fin _, _ => zero
  | PosInf, Fin b => match sgn b with Lt => NegInf | _ => PosInf end
  | NegInf, Fin b => match sgn b with Lt => PosInf | _ => NegInf end
  | _, _ => NaN
  end.

(** [x < y]: false as soon as one side is [NaN]. *)
Definition ltb (x y : number) : bool :=
  match x, y with
  | NaN, _ | _, NaN => false
  | _, NegInf => false
  | NegInf, _ => true
  | PosInf, _ => false
  | _, PosInf => true
  | Fin a, Fin b => match (a ?= b)%Qc with Lt => true | _ => false end
  end.

(** [x <= y]: false as soon as one side is [NaN]. *)
Definition leb (x y : number) : bool :=
  match x, y with
  | NaN, _ | _, NaN => false
  | NegInf, _ => true
  | _, PosInf => true
  | _, NegInf => false
  | PosInf, _ => false
  | Fin a, Fin b => match (a ?= b)%Qc with Gt => false | _ => true end
  end.

(** [Math.min(x, y)] and [Math.max(x, y)]. *)
Definition min (x y : number) : number :=
  match x, y with
  | NaN, _ | _, NaN => NaN
  | _, _ => if ltb y x then y else x
  end.

Definition max (x y : number) : number :=
  match x, y with
  | NaN, _ | _, NaN => NaN
  | _, _ => if ltb x y then y else x
  end.

Definition lt (x y : number) : Prop := ltb x y = true.
Definition le (x y : number) : Prop := leb x y = true.

End Num.

Abbreviation number := Num.number.
Abbreviation NaN := Num.NaN.
Abbreviation NegInf := Num.NegInf.
Abbreviation PosInf := Num.PosInf.
Abbreviation Fin := Num.Fin.

Declare Scope num_scope.
Delimit Scope num_scope with num.
Infix "<" := Num.lt : num_scope.
Infix "<=" := Num.le : num_scope.

(** Closes an equation between computed numbers (or structures of them):
    two canonical rationals are equal as soon as their fractions are. *)
Ltac num_eq :=
  vm_compute;
  repeat (first [ reflexivity
                | apply Qc_is_canon; reflexivity
                | f_equal ]).

(** ** Exceptions, records and arrays *)

(** The outcome of code that may throw a [TypeError] (a property read on
    [undefined]). *)
Inductive completion (A : Type) : Type :=
| Ok (a : A)
| TypeError.
Arguments Ok {A} a.
Arguments TypeError {A}.

Definition bind {A B} (r : completion A) (k : A -> completion B)
    : completion B :=
  match r with
  | Ok a => k a
  | TypeError => TypeError
  end.

Notation "x <- r ;; k" := (bind r (fun x => k))
  (at level 61, r at next level, right associativity).

(** Reading a property of a value that may be [undefined]. *)
Definition defined {A} (o : option A) : completion A :=
  match o with
  | Some a => Ok a
  | None => TypeError
  end.

(** [Record<string, V>]: the entries in [Object.entries] order. *)
Definition Record (V : Type) : Type := list (string * V).

Section RecordOps.
Context {V : Type}.

(** [r[k]] *)
Fixpoint get (k : string) (r : Record V) : option V :=
  match r with
  | [] => None
  | (k', v) :: r' => if String.eqb k k' then Some v else get k r'
  end.

(** [r[k] = v]: overwrites in place, or appends a new key. *)
Fixpoint set (k : string) (v : V) (r : Record V) : Record V :=
  match r with
  | [] => [(k, v)]
  | (k', v') :: r' =>
      if String.eqb k k' then (k', v) :: r' else (k', v') :: set k v r'
  end.

Definition keys (r : Record V) : list string := map fst r.
End RecordOps.

(** [for (let i = from; count iterations; i++) state = body(i, state)],
    stopping at the first exception. *)
Fixpoint for_range {S : Type} (count from : nat)
    (body : nat -> S -> completion S) (s : S) : completion S :=
  match count with
  | O => Ok s
  | Datatypes.S count' =>
      s' <- body from s ;; for_range count' (Datatypes.S from) body s'
  end.

Section ArraySort.
Context {A : Type}.
Variable comparefn : A -> A -> number.

(** [Array.prototype.sort(comparefn)].  The sort is stable; [x] moves
    behind [y] only when [comparefn(x, y) > 0], and a [NaN] outcome counts
    as "equal".  With a consistent [comparefn] every conforming engine
    returns this list; with an inconsistent one (a [NaN] among the keys)
    the order is left to the engine and this is one admissible choice. *)
Fixpoint sort_insert (x : A) (l : list A) : list A :=
  match l with
  | [] => [x]
  | y :: l' =>
      if Num.ltb Num.zero (comparefn x y)
      then y :: sort_insert x l'
      else x :: l
  end.

Definition array_sort (l : list A) : list A :=
  fold_right sort_insert [] l.
End ArraySort.

(** ** The interval reconciler *)

Record MinMax : Type := { rmin : number; rmax : number }.

Record TimeRange : Type := { start : number; end_ : number }.

Record Entry : Type :=
  { id : string; originalMin : number; originalMax : number }.

Record Segment : Type :=
  { seg_id : string; seg_start : number; seg_end : number }.

(** [(a, b) => a.originalMin - b.originalMin] *)
Definition byOriginalMin (a b : Entry) : number :=
  Num.sub (originalMin a) (originalMin b).

(** [(current.originalMax + next.originalMin) / 2] when [next] exists,
    [current.originalMax] otherwise. *)
Definition segment_end (current : Entry) (next : option Entry) : number :=
  match next with
  | Some next =>
      Num.div (Num.add (originalMax current) (originalMin next)) Num.two
  | None => originalMax current
  end.

(** One turn of the loop [for (let i = 0; i < entries.length; i++)], the
    same text in [orderCanvasMapping] and [orderAnnotationMapping]. *)
Definition segment_step (entries : list Entry) (i : nat)
    (result : list Segment) : completion (list Segment) :=
  current <- defined (nth_error entries i) ;;
  let next := nth_error entries (i + 1) in
  if Nat.eqb i 0 then
    let start := originalMin current in
    let end_ := segment_end current next in
    Ok (result ++ [ {| seg_id := id current; seg_start := start;
                       seg_end := end_ |} ])
  else
    previous <- defined (nth_error result (i - 1)) ;;
    let start := seg_end previous in
    let end_ := segment_end current next in
    Ok (result ++ [ {| seg_id := id current; seg_start := start;
                       seg_end := end_ |} ]).

(** Everything after [entries.sort(...)]. *)
Definition segments_of_sorted (entries : list Entry)
    : completion (list Segment) :=
  if Nat.eqb (List.length entries) 0 then Ok []
  else for_range (List.length entries) 0 (segment_step entries) [].

(** [Object.entries(canvasMinMax).map(([id, range]) => ({ id, ... }))] *)
Definition canvas_entries (canvasMinMax : Record MinMax) : list Entry :=
  map (fun '(id, range) =>
         {| id := id; originalMin := rmin range;
            originalMax := rmax range |}) canvasMinMax.

Definition orderCanvasMapping (canvasMinMax : Record MinMax)
    : completion (list Segment) :=
  let entries := canvas_entries canvasMinMax in
  let entries := array_sort byOriginalMin entries in
  segments_of_sorted entries.


(** ** Scanning strings *)

Definition chars (s : string) : list ascii := list_ascii_of_string s.
Definition text (l : list ascii) : string := string_of_list_ascii l.

(** [strip_prefix p s] is what follows [p] in [s], when [s] begins with [p]. *)
Fixpoint strip_prefix (p s : list ascii) : option (list ascii) :=
  match p, s with
  | [], _ => Some s
  | _ :: _, [] => None
  | a :: p', b :: s' => if Ascii.eqb a b then strip_prefix p' s' else None
  end.

(** [s.includes(needle)] *)
Fixpoint includes_chars (needle s : list ascii) : bool :=
  match strip_prefix needle s with
  | Some _ => true
  | None =>
      match s with
      | [] => false
      | _ :: s' => includes_chars needle s'
      end
  end.

Definition includes (needle s : string) : bool :=
  includes_chars (chars needle) (chars s).

Definition is_digit (c : ascii) : bool :=
  let n := nat_of_ascii c in (48 <=? n)%nat && (n <=? 57)%nat.

(** The longest run of decimal digits at the head, and what follows it. *)
Fixpoint span_digits (s : list ascii) : list ascii * list ascii :=
  match s with
  | c :: s' =>
      if is_digit c
      then let (ds, rest) := span_digits s' in (c :: ds, rest)
      else ([], s)
  | [] => ([], [])
  end.

(** ** A backtracking matcher for the regular expressions of the script *)

Inductive regex : Type :=
| Lit (s : string)              (* the characters of [s] *)
| Digits                        (* [[0-9]+] *)
| Opt (r : regex)               (* [r?] *)
| Seq (r1 r2 : regex)           (* [r1 r2] *)
| Group (n : nat) (r : regex).  (* [(r)], the n-th capturing group *)

(** The match array: index 0 is the whole match, index n the n-th group,
    [None] is [undefined]. *)
Definition captures : Type := nat -> option string.

Definition no_captures : captures := fun _ => None.

Definition capture (n : nat) (v : string) (c : captures) : captures :=
  fun m => if Nat.eqb m n then Some v else c m.

(** The characters consumed between an input and one of its suffixes. *)
Definition consumed (inp rest : list ascii) : string :=
  text (firstn (List.length inp - List.length rest) inp).

Section Matcher.
Context {R : Type}.

(** [[0-9]+], greedy: the continuation is tried on the longest run
    first, then on shorter ones. *)
Fixpoint match_digits (inp : list ascii)
    (k : list ascii -> option R) : option R :=
  match inp with
  | c :: rest =>
      if is_digit c then
        match match_digits rest k with
        | Some x => Some x
        | None => k rest
        end
      else None
  | [] => None
  end.

Fixpoint rmatch (r : regex) (inp : list ascii) (caps : captures)
    (k : list ascii -> captures -> option R) : option R :=
  match r with
  | Lit s =>
      match strip_prefix (chars s) inp with
      | Some rest => k rest caps
      | None => None
      end
  | Digits => match_digits inp (fun rest => k rest caps)
  | Opt r' =>
      match rmatch r' inp caps k with
      | Some x => Some x
      | None => k inp caps
      end
  | Seq r1 r2 =>
      rmatch r1 inp caps (fun rest caps' => rmatch r2 rest caps' k)
  | Group n r' =>
      rmatch r' inp caps
        (fun rest caps' => k rest (capture n (consumed inp rest) caps'))
  end.
End Matcher.

(** The first position of [inp], from the left, where [r] matches. *)
Fixpoint exec (r : regex) (inp : list ascii) : option captures :=
  match rmatch r inp no_captures
          (fun rest caps => Some (capture 0 (consumed inp rest) caps)) with
  | Some m => Some m
  | None =>
      match inp with
      | [] => None
      | _ :: inp' => exec r inp'
      end
  end.

(** [s.match(r)] for a regular expression without the [g] flag. *)
Definition string_match (s : string) (r : regex) : option captures :=
  exec r (chars s).

(** ** Numeric literals: [parseFloat] and [Number] *)

Definition digit_value (c : ascii) : Z := (Z.of_nat (nat_of_ascii c) - 48)%Z.

Definition digits_value (ds : list ascii) : Z :=
  fold_left (fun acc c => 10 * acc + digit_value c)%Z ds 0%Z.

(** The number [m * 10^e]. *)
Definition scale10 (m e : Z) : number :=
  match e with
  | Zneg p => Fin (Q2Qc (inject_Z m / inject_Z (10 ^ Zpos p))%Q)
  | _ => Fin (Q2Qc (inject_Z (m * 10 ^ e)%Z))
  end.

(** An [ExponentPart] at the head of [s]: its value and what follows, or
    0 and [s] itself when there is no complete one. *)
Definition scan_exponent (s : list ascii) : Z * list ascii :=
  match s with
  | c :: s1 =>
      if Ascii.eqb c "e" || Ascii.eqb c "E" then
        let '(negative, s2) :=
          match s1 with
          | d :: s2 =>
              if Ascii.eqb d "-" then (true, s2)
              else if Ascii.eqb d "+" then (false, s2)
              else (false, s1)
          | [] => (false, s1)
          end in
        match span_digits s2 with
        | ([], _) => (0%Z, s)
        | (ds, rest) =>
            ((if negative then - digits_value ds else digits_value ds)%Z,
             rest)
        end
      else (0%Z, s)
  | [] => (0%Z, s)
  end.

(** The longest [StrDecimalLiteral] at the head of [s], with its value and
    what follows it. *)
Definition scan_decimal (s : list ascii) : option (number * list ascii) :=
  let '(negative, s1) :=
    match s with
    | c :: s1 =>
        if Ascii.eqb c "-" then (true, s1)
        else if Ascii.eqb c "+" then (false, s1)
        else (false, s)
    | [] => (false, s)
    end in
  let signed (x : number) := if negative then Num.neg x else x in
  match strip_prefix (chars "Infinity") s1 with
  | Some rest => Some (signed PosInf, rest)
  | None =>
      let '(ip, s2) := span_digits s1 in
      let '(fp, s3) :=
        match s2 with
        | c :: s2' =>
            if Ascii.eqb c "." then
              match ip, span_digits s2' with
              | [], ([], _) => ([], s2)
              | _, (fp, s3) => (fp, s3)
              end
            else ([], s2)
        | [] => ([], s2)
        end in
      match ip, fp with
      | [], [] => None
      | _, _ =>
          let '(e, s4) := scan_exponent s3 in
          Some (signed (scale10 (digits_value (ip ++ fp))
                          (e - Z.of_nat (List.length fp))%Z), s4)
      end
  end.

(** White space and line terminators, among the single-byte characters. *)
Definition is_space (c : ascii) : bool :=
  let n := nat_of_ascii c in
  ((9 <=? n)%nat && (n <=? 13)%nat) || Nat.eqb n 32.

Fixpoint trim_start (s : list ascii) : list ascii :=
  match s with
  | c :: s' => if is_space c then trim_start s' else s
  | [] => []
  end.

Definition trim (s : list ascii) : list ascii :=
  rev (trim_start (rev (trim_start s))).

(** [parseFloat(v)]: [v] is first turned into a string ([undefined] reads
    "undefined"), then the longest numeric prefix is taken. *)
Definition parseFloat (v : option string) : number :=
  let s := match v with Some s => s | None => "undefined"%string end in
  match scan_decimal (trim_start (chars s)) with
  | Some (x, _) => x
  | None => NaN
  end.

(** The value of a digit in a radix up to 16, when it is one. *)
Definition radix_digit (radix : Z) (c : ascii) : option Z :=
  let n := Z.of_nat (nat_of_ascii c) in
  let v :=
    (if (48 <=? n) && (n <=? 57) then n - 48
     else if (97 <=? n) && (n <=? 102) then n - 87
     else if (65 <=? n) && (n <=? 70) then n - 55
     else 16)%Z in
  if (v <? radix)%Z then Some v else None.

Fixpoint radix_value (radix : Z) (acc : Z) (s : list ascii) : option Z :=
  match s with
  | [] => Some acc
  | c :: s' =>
      match radix_digit radix c with
      | Some v => radix_value radix (radix * acc + v)%Z s'
      | None => None
      end
  end.

(** [0x], [0o] and [0b] literals. *)
Definition scan_radix (s : list ascii) : option number :=
  match s with
  | z :: x :: (_ :: _) as ds =>
      if Ascii.eqb z "0" then
        let radix :=
          if Ascii.eqb x "x" || Ascii.eqb x "X" then Some 16%Z
          else if Ascii.eqb x "o" || Ascii.eqb x "O" then Some 8%Z
          else if Ascii.eqb x "b" || Ascii.eqb x "B" then Some 2%Z
          else None in
        match radix with
        | Some r => option_map Num.of_Z (radix_value r 0 ds)
        | None => None
        end
      else None
  | _ => None
  end.

(** [Number(s)] on a string: the whole of [s], white space trimmed, must
    be a numeric literal; the empty string is 0. *)
Definition Number (s : string) : number :=
  match trim (chars s) with
  | [] => Num.zero
  | t =>
      match scan_radix t with
      | Some x => x
      | None =>
          match scan_decimal t with
          | Some (x, []) => x
          | _ => NaN
          end
      end
  end.

(** ** The fragment parsers *)

(** [/&?(t=)(npt:)?([0-9]+(\.[0-9]+)?)?(,([0-9]+(\.[0-9]+)?))?/] *)
Definition seconds (whole frac : nat) : regex :=
  Group whole (Seq Digits (Opt (Group frac (Seq (Lit ".") Digits)))).

Definition TEMPORAL_SELECTOR : regex :=
  Seq (Opt (Lit "&"))
 (Seq (Group 1 (Lit "t="))
 (Seq (Opt (Group 2 (Lit "npt:")))
 (Seq (Opt (seconds 3 4))
      (Opt (Group 5 (Seq (Lit ",") (seconds 6 7))))))).

Definition getTime (frag : string) : TimeRange :=
  match string_match frag TEMPORAL_SELECTOR with
  | Some match_ =>
      let start := parseFloat (match_ 3%nat) in
      let end_ := parseFloat (match_ 6%nat) in
      {| start := start; end_ := end_ |}
  | None => {| start := Num.zero; end_ := Num.zero |}
  end.

(** [s.split(separator)] for a non-empty separator.  [skip] counts the
    characters of a separator just found that are still to be passed over;
    [piece] holds, reversed, the characters of the piece being read. *)
Fixpoint split_scan (separator : list ascii) (skip : nat)
    (piece : list ascii) (s : list ascii) : list (list ascii) :=
  match s with
  | [] => [rev piece]
  | c :: s' =>
      match skip with
      | S skip' => split_scan separator skip' piece s'
      | O =>
          match strip_prefix separator s with
          | Some _ =>
              rev piece
                :: split_scan separator (List.length separator - 1) [] s'
          | None => split_scan separator 0 (c :: piece) s'
          end
      end
  end.

Definition split (separator s : list ascii) : list (list ascii) :=
  split_scan separator 0 [] s.

(** [s.replace(pattern, "")] for a string pattern: the first occurrence
    goes. *)
Fixpoint remove_first (pattern s : list ascii) : list ascii :=
  match strip_prefix pattern s with
  | Some rest => rest
  | None =>
      match s with
      | [] => []
      | c :: s' => c :: remove_first pattern s'
      end
  end.

(** [s] without [suffix] at its end, when it ends with it. *)
Definition strip_suffix (suffix s : list ascii) : list ascii :=
  match strip_prefix (rev suffix) (rev s) with
  | Some rest => rev rest
  | None => s
  end.

(** [value.replace(/^\(\(|\)\)$/g, "")]: the first alternative can only
    match at index 0 and the second only on the last two characters; the
    scan meets them in that order and they cannot overlap. *)
Definition strip_outer (value : list ascii) : list ascii :=
  let value :=
    match strip_prefix (chars "((") value with
    | Some rest => rest
    | None => value
    end in
  strip_suffix (chars "))") value.

Definition parseFragmentSelector (value : string) : list (list number) :=
  let coords :=
    map (fun coord =>
           map (fun field => Number (text field))
               (split (chars ",") (remove_first (chars "P") coord)))
        (split (chars ")(") (strip_outer (chars value))) in
  coords.

(** ** The identifier join and the page range accumulator *)

(** What the script reads of a raw annotation: [anno.body.source],
    [anno.body.selector.type] and [anno.body.selector.value]; an absent
    property (or a [null] annotation) is [None]. *)
Record Selector : Type :=
  { selector_type : option string; selector_value : option string }.

Record Body : Type :=
  { source : option string; selector : option Selector }.

Record Annotation : Type := { body : option Body }.

(** A value of an annotation collection: one annotation or an array. *)
Inductive Annotations : Type :=
| One (annotation : Annotation)
| Many (annotations : list Annotation).

(** [Array.isArray(annotations) ? annotations : [annotations]] *)
Definition annotationList (annotations : Annotations) : list Annotation :=
  match annotations with
  | Many l => l
  | One a => [a]
  end.

(** [anno?.body?.source && anno?.body?.selector?.type === "FragmentSelector"];
    when it holds, the source and the selector it was read from. *)
Definition accepted (anno : Annotation) : option (string * Selector) :=
  match body anno with
  | Some b =>
      match source b, selector b with
      | Some src, Some sel =>
          match src, selector_type sel with
          | EmptyString, _ => None
          | _, Some ty =>
              if String.eqb ty "FragmentSelector" then Some (src, sel)
              else None
          | _, None => None
          end
      | _, _ => None
      end
  | None => None
  end.

Record SvgSelector : Type := { svg_type : string; svg_value : string }.

(** A page of the image manifest as the vault returns it. *)
Record Canvas : Type :=
  { canvas_id : string; canvas_width : number; canvas_height : number }.

(** An entry of [mapping]; [minMax] is a reference to the object stored in
    [canvasMinMax] under that key. *)
Record NoteRecord : Type :=
  { audio : option TimeRange;
    imageId : option string;
    canvasId : option string;
    svgPoints : option (list (list number));
    svgSelector : option SvgSelector;
    minMax : option string }.

(** [{}] *)
Definition empty_note : NoteRecord :=
  {| audio := None; imageId := None; canvasId := None; svgPoints := None;
     svgSelector := None; minMax := None |}.

Definition set_audio (a : TimeRange) (r : NoteRecord) : NoteRecord :=
  {| audio := Some a; imageId := imageId r; canvasId := canvasId r;
     svgPoints := svgPoints r; svgSelector := svgSelector r;
     minMax := minMax r |}.

(** The two tables the scans fill. *)
Record JoinState : Type :=
  { mapping : Record NoteRecord; canvasMinMax : Record MinMax }.

(** [for (const x of l) state = body(state, x)], stopping at the first
    exception. *)
Fixpoint for_each {A S : Type} (body : S -> A -> completion S)
    (l : list A) (s : S) : completion S :=
  match l with
  | [] => Ok s
  | x :: l' => s' <- body s x ;; for_each body l' s'
  end.

Definition double_quote : string := String (ascii_of_nat 34) EmptyString.

Open Scope string_scope.

Section Pipeline.
(** The text of a number in a template literal or in [Array.join]. *)
Variable number_to_string : number -> string.
(** [serviceToCanvasId], filled from the image manifest. *)
Variable serviceToCanvasId : Record string.
(** [vault.get(ref)]; [None] when the reference does not resolve to an
    object (reading [canvas.id] then throws). *)
Variable vault_get : option string -> option Canvas.

Definition toSvg (width height : number) (points : list (list number))
    (el : string) : SvgSelector :=
  let w := number_to_string width in
  let h := number_to_string height in
  let q := double_quote in
  {| svg_type := "SvgSelector";
     svg_value :=
       String.concat EmptyString
         [ "<svg xmlns="; q; "http://www.w3.org/2000/svg"; q;
           " viewBox="; q; "0 0 "; w; " "; h; q;
           " width="; q; w; q; " height="; q; h; q; "><"; el;
           " points="; q;
           String.concat " "
             (map (fun p => String.concat "," (map number_to_string p))
                  points);
           q; " /></svg>" ] |}.

(** The body of the [for] loop of the scan of [audioAnnotations]. *)
Definition audio_step (id : string) (mapping : Record NoteRecord)
    (anno : Annotation) : completion (Record NoteRecord) :=
  match accepted anno with
  | Some (_, sel) =>
      let record :=
        match get id mapping with
        | Some r => r
        | None => empty_note
        end in
      value <- defined (selector_value sel) ;;
      Ok (set id (set_audio (getTime value) record) mapping)
  | None => Ok mapping
  end.

Definition audio_pass (audioAnnotations : Record Annotations)
    : completion (Record NoteRecord) :=
  for_each
    (fun mapping '(id, annotations) =>
       for_each (audio_step id) (annotationList annotations) mapping)
    audioAnnotations [].

(** The [for] loop of the scan of [imageAnnotations], for one id.  The
    [return] statements leave the callback, so the rest of the list is
    not visited. *)
Fixpoint image_annotations (id : string) (annotationList : list Annotation)
    (st : JoinState) : completion JoinState :=
  match annotationList with
  | [] => Ok st
  | anno :: rest =>
      match accepted anno with
      | None => image_annotations id rest st
      | Some (src, sel) =>
          match get id (mapping st) with
          | None => Ok st
          | Some record =>
              match audio record with
              | None => Ok st
              | Some audio =>
                  value <- defined (selector_value sel) ;;
                  let points := parseFragmentSelector value in
                  canvas <- defined (vault_get (get src serviceToCanvasId)) ;;
                  let range :=
                    match get (canvas_id canvas) (canvasMinMax st) with
                    | Some r => r
                    | None => {| rmin := PosInf; rmax := NegInf |}
                    end in
                  let range :=
                    {| rmin := Num.min (start audio) (rmin range);
                       rmax := Num.max (end_ audio) (rmax range) |} in
                  let record :=
                    {| audio := Some audio;
                       imageId := Some src;
                       canvasId := get src serviceToCanvasId;
                       svgPoints := Some points;
                       svgSelector :=
                         Some (toSvg (canvas_width canvas)
                                 (canvas_height canvas) points "polygon");
                       minMax := Some (canvas_id canvas) |} in
                  image_annotations id rest
                    {| mapping := set id record (mapping st);
                       canvasMinMax :=
                         set (canvas_id canvas) range (canvasMinMax st) |}
              end
          end
      end
  end.

Definition image_pass (imageAnnotations : Record Annotations)
    (mapping : Record NoteRecord) : completion JoinState :=
  for_each
    (fun st '(id, annotations) =>
       image_annotations id (annotationList annotations) st)
    imageAnnotations {| mapping := mapping; canvasMinMax := [] |}.

(** The two scans, one after the other. *)
Definition join (audioAnnotations imageAnnotations : Record Annotations)
    : completion JoinState :=
  mapping <- audio_pass audioAnnotations ;;
  image_pass imageAnnotations mapping.

(** [!!range.audio && range.svgSelector] *)
Definition complete (range : NoteRecord) : bool :=
  match audio range, svgSelector range with
  | Some _, Some _ => true
  | _, _ => false
  end.

Definition orderAnnotationMapping (annotation : Record NoteRecord)
    : completion (list Segment) :=
  entries <-
    for_each
      (fun entries '(id, range) =>
         audio <- defined (audio range) ;;
         Ok (entries ++ [ {| id := id; originalMin := start audio;
                             originalMax := end_ audio |} ])%list)
      (filter (fun '(_, range) => complete range) annotation) [] ;;
  let entries := array_sort byOriginalMin entries in
  segments_of_sorted entries.

(** *** The manifest assembler *)

(** What the script reads and writes of the audio canvas: the canvas,
    its annotation pages, their annotations and the body of each. *)
Record AudioBody : Type :=
  { body_id : string;
    body_type : option string;
    body_format : option string }.

Record AudioAnnotation : Type :=
  { audio_id : string; audio_body : option AudioBody }.

Record AnnotationPage : Type :=
  { page_id : string; page_items : list AudioAnnotation }.

Record AudioCanvas : Type :=
  { audio_canvas_id : string;
    duration : number;
    audio_canvas_items : list AnnotationPage }.

(** A page image as [resourceMap] holds it. *)
Record Resource : Type :=
  { resource_id : string;
    resource_width : number;
    resource_height : number }.

(** The objects the assembler works on.  They are shared with the rest
    of the script, so the assembler runs on this store and returns it. *)
Record Heap : Type :=
  { h_audioCanvas : AudioCanvas;
    h_orderedCanvases : list Segment;
    h_filteredAnnotationMapping : list Segment;
    h_canvasToServiceId : Record string;
    h_resourceMap : Record Resource;
    h_mapping : Record NoteRecord }.

(** A computation on the store that may throw; the store it leaves is
    the one at the throw. *)
Definition Script (A : Type) : Type := Heap -> completion A * Heap.

Definition ret {A} (a : A) : Script A := fun h => (Ok a, h).

Definition bind_script {A B} (c : Script A) (k : A -> Script B)
    : Script B :=
  fun h =>
    match c h with
    | (Ok a, h') => k a h'
    | (TypeError, h') => (TypeError, h')
    end.

Notation "x <~ c ;; k" := (bind_script c (fun x => k))
  (at level 61, c at next level, right associativity).

(** Reading from the store, and a read that throws on [undefined]. *)
Definition read {A} (f : Heap -> A) : Script A := fun h => (Ok (f h), h).

Definition read_defined {A} (f : Heap -> option A) : Script A :=
  fun h => (defined (f h), h).

Definition write (f : Heap -> Heap) : Script unit :=
  fun h => (Ok tt, f h).

(** [l.map((x, idx) => body(x, idx))], the index counted from [idx]. *)
Fixpoint map_script {A B} (body : A -> nat -> Script B) (l : list A)
    (idx : nat) : Script (list B) :=
  match l with
  | [] => ret []
  | x :: l' =>
      y <~ body x idx ;;
      ys <~ map_script body l' (S idx) ;;
      ret (y :: ys)
  end.

(** A reference to the object [audioCanvas.items[i].items[j]]. *)
Definition AudioRef : Type := (nat * nat)%type.

Definition deref (r : AudioRef) (h : Heap) : option AudioAnnotation :=
  match nth_error (audio_canvas_items (h_audioCanvas h)) (fst r) with
  | Some page => nth_error (page_items page) (snd r)
  | None => None
  end.

(** The list [l] with [f] applied at index [n]. *)
Fixpoint update_nth {A} (n : nat) (f : A -> A) (l : list A) : list A :=
  match l, n with
  | [], _ => []
  | x :: l', O => f x :: l'
  | x :: l', S n' => x :: update_nth n' f l'
  end.

(** The store after an assignment to a property of the body of the
    annotation [r] points at. *)
Definition assign_body (r : AudioRef) (f : AudioBody -> AudioBody)
    (h : Heap) : Heap :=
  let on_annotation a :=
    {| audio_id := audio_id a;
       audio_body := option_map f (audio_body a) |} in
  let on_page p :=
    {| page_id := page_id p;
       page_items := update_nth (snd r) on_annotation (page_items p) |} in
  let c := h_audioCanvas h in
  {| h_audioCanvas :=
       {| audio_canvas_id := audio_canvas_id c;
          duration := duration c;
          audio_canvas_items :=
            update_nth (fst r) on_page (audio_canvas_items c) |};
     h_orderedCanvases := h_orderedCanvases h;
     h_filteredAnnotationMapping := h_filteredAnnotationMapping h;
     h_canvasToServiceId := h_canvasToServiceId h;
     h_resourceMap := h_resourceMap h;
     h_mapping := h_mapping h |}.

(** [audio.body.format = "audio/mpeg"; audio.body.type = "Sound";
    return audio;] on the object [audio] refers to; [None] is
    [undefined]. *)
Definition fixAudio (audio : option AudioRef) : Script AudioRef :=
  audio <~ read_defined (fun _ => audio) ;;
  _ <~ read_defined
         (fun h => match deref audio h with
                   | Some a => audio_body a
                   | None => None
                   end) ;;
  _ <~ write (assign_body audio (fun b =>
         {| body_id := body_id b; body_type := body_type b;
            body_format := Some "audio/mpeg" |})) ;;
  _ <~ write (assign_body audio (fun b =>
         {| body_id := body_id b; body_type := Some "Sound";
            body_format := body_format b |})) ;;
  ret audio.

(** [resourceMap[canvasToServiceId[c.id]]]; an [undefined] service id
    reads the property named "undefined". *)
Definition resource_of (c : Segment) (h : Heap) : option Resource :=
  let serviceId :=
    match get (seg_id c) (h_canvasToServiceId h) with
    | Some serviceId => serviceId
    | None => "undefined"
    end in
  get serviceId (h_resourceMap h).

(** [Math.max(...values)] *)
Definition math_max (values : list number) : number :=
  fold_left Num.max values NegInf.

(** The parts of the output document that vary; the constant
    properties ([type], [label], [motivation], [conformsTo]) are left
    out. *)
Record PaintingAnnotation : Type :=
  { painting_id : string;
    painting_body : list Resource;
    painting_target : string }.

Inductive PageItem : Type :=
| AudioItem (audio : AudioRef)
| ImageItem (annotation : PaintingAnnotation).

Record Highlight : Type :=
  { highlight_id : string;
    highlight_source : string;
    highlight_svg : option SvgSelector;
    highlight_time : string }.

Record Manifest : Type :=
  { manifest_canvas_id : string;
    manifest_duration : number;
    manifest_width : number;
    manifest_height : number;
    manifest_page_id : string;
    manifest_items : list PageItem;
    manifest_annotations : list Highlight }.

(** From [const audioCanvas = audioManifest.items[0]] to the [newManifest]
    literal; [orderedCanvases] and [filteredAnnotationMapping] are read
    from the store. *)
Definition newManifest : Script Manifest :=
  audioCanvas <~ read h_audioCanvas ;;
  let canvasId := audio_canvas_id audioCanvas in
  orderedCanvases <~ read h_orderedCanvases ;;
  widths <~ map_script
              (fun c _ =>
                 resource <~ read_defined (resource_of c) ;;
                 ret (resource_width resource))
              orderedCanvases 0 ;;
  let width := math_max widths in
  heights <~ map_script
               (fun c _ =>
                  resource <~ read_defined (resource_of c) ;;
                  ret (resource_height resource))
               orderedCanvases 0 ;;
  let height := math_max heights in
  filteredAnnotationMapping <~ read h_filteredAnnotationMapping ;;
  page <~ read_defined
            (fun h => nth_error (audio_canvas_items (h_audioCanvas h)) 0) ;;
  let pageId := page_id page in
  audio <~ fixAudio (match page_items page with
                     | _ :: _ => Some (0, 0)
                     | [] => None
                     end) ;;
  images <~ map_script
              (fun c idx =>
                 resource <~ read_defined (resource_of c) ;;
                 ret {| painting_id :=
                          "https://example/image-anno/"
                            ++ number_to_string
                                 (Num.of_Z (Z.of_nat idx));
                        painting_body := [resource];
                        painting_target :=
                          canvasId ++ "#xywh=0,0,"
                            ++ number_to_string (resource_width resource)
                            ++ ","
                            ++ number_to_string (resource_height resource)
                            ++ "&t=" ++ number_to_string (seg_start c)
                            ++ "," ++ number_to_string (seg_end c) |})
              orderedCanvases 0 ;;
  highlights <~ map_script
                  (fun s _ =>
                     item <~ read_defined
                               (fun h => get (seg_id s) (h_mapping h)) ;;
                     ret {| highlight_id :=
                              "https://example/image-anno/" ++ seg_id s;
                            highlight_source := pageId;
                            highlight_svg := svgSelector item;
                            highlight_time :=
                              "t=" ++ number_to_string (seg_start s)
                                ++ "," ++ number_to_string (seg_end s) |})
                  filteredAnnotationMapping 0 ;;
  ret {| manifest_canvas_id := canvasId;
         manifest_duration := duration audioCanvas;
         manifest_width := width;
         manifest_height := height;
         manifest_page_id := pageId;
         manifest_items := AudioItem audio :: map ImageItem images;
         manifest_annotations := highlights |}.

(** The script from the two scans to the output document, on the
    tables built from the manifests. *)
Definition generate (audioAnnotations imageAnnotations : Record Annotations)
    (audioCanvas : AudioCanvas) (canvasToServiceId : Record string)
    (resourceMap : Record Resource) : completion Manifest :=
  st <- join audioAnnotations imageAnnotations ;;
  orderedCanvases <- orderCanvasMapping (canvasMinMax st) ;;
  filteredAnnotationMapping <- orderAnnotationMapping (mapping st) ;;
  fst (newManifest
         {| h_audioCanvas := audioCanvas;
            h_orderedCanvases := orderedCanvases;
            h_filteredAnnotationMapping := filteredAnnotationMapping;
            h_canvasToServiceId := canvasToServiceId;
            h_resourceMap := resourceMap;
            h_mapping := mapping st |}).

End Pipeline.


(** ** The tables built from the image manifest *)

(** What the script reads of a canvas of the image manifest: its id and,
    through the painting helper, its first painted image with the id of
    that image's first image service (if it has one) and the resource the
    vault serialises for it.  [None] for the image is an [undefined]
    [painting.items[0]]. *)
Record PaintedImage : Type :=
  { image_service : option string; image_resource : Resource }.

Record ImageCanvas : Type :=
  { image_canvas_id : string; image_painted : option PaintedImage }.

(** [serviceToCanvasId], [canvasToServiceId] and [resourceMap];
    [serviceMap], which nothing reads, is left out. *)
Record Tables : Type :=
  { t_serviceToCanvasId : Record string;
    t_canvasToServiceId : Record string;
    t_resourceMap : Record Resource }.

Definition no_tables : Tables :=
  {| t_serviceToCanvasId := []; t_canvasToServiceId := [];
     t_resourceMap := [] |}.

(** The body of [for (const canvasRef of manifest.items)]. *)
Definition register_canvas (t : Tables) (canvas : ImageCanvas)
    : completion Tables :=
  image <- defined (image_painted canvas) ;;
  match image_service image with
  | Some serviceId =>
      Ok {| t_serviceToCanvasId :=
              set serviceId (image_canvas_id canvas) (t_serviceToCanvasId t);
            t_canvasToServiceId :=
              set (image_canvas_id canvas) serviceId (t_canvasToServiceId t);
            t_resourceMap :=
              set serviceId (image_resource image) (t_resourceMap t) |}
  | None => Ok t
  end.

Definition build_tables (items : list ImageCanvas) : completion Tables :=
  for_each register_canvas items no_tables.

(** ** The audio check of the interactive generator *)

(** [anno.body && (anno.body.type === 'Sound'
                   || anno.body.format?.includes('audio'))] *)
Definition is_audio_annotation (anno : AudioAnnotation) : bool :=
  match audio_body anno with
  | Some b =>
      match body_type b with
      | Some ty => String.eqb ty "Sound"
      | None => false
      end
      || match body_format b with
         | Some format => includes "audio" format
         | None => false
         end
  | None => false
  end.

(** [audioCanvas.items && audioCanvas.items.some((annoPage) =>
      annoPage.items && annoPage.items.some(...))] *)
Definition hasAudioContent (audioCanvas : AudioCanvas) : bool :=
  existsb (fun annoPage => existsb is_audio_annotation (page_items annoPage))
    (audio_canvas_items audioCanvas).
(** * Specification vocabulary *)

(** ** Orders on keyed elements *)

Definition key_le {A} (key : A -> number) (a b : A) : Prop :=
  Num.le (key a) (key b).
Definition key_lt {A} (key : A -> number) (a b : A) : Prop :=
  Num.lt (key a) (key b).
Definition key_defined {A} (key : A -> number) (a : A) : Prop :=
  key a <> NaN.

(** The midpoint of two finite values. *)
Definition mid (a b : Qc) : Qc := ((a + b) / Q2Qc 2)%Qc.

(** ** Partitions *)

(** The segments the loop produces for the entries still to visit, when
    the next segment is to begin at [start]. *)
Fixpoint partition_from (start : number) (entries : list Entry)
    : list Segment :=
  match entries with
  | [] => []
  | current :: rest =>
      let end_ := segment_end current (hd_error rest) in
      {| seg_id := id current; seg_start := start; seg_end := end_ |}
        :: partition_from end_ rest
  end.

Definition partition (entries : list Entry) : list Segment :=
  match entries with
  | [] => []
  | first :: _ => partition_from (originalMin first) entries
  end.

(** Where the segment of the entry after those already visited begins. *)
Definition next_start (result : list Segment) (rest : list Entry) : number :=
  match nth_error result (List.length result - 1), rest with
  | Some previous, _ => seg_end previous
  | None, current :: _ => originalMin current
  | None, [] => NaN
  end.

(** The triples the note reconciler works on: one per record that has
    both a time range and a spatial selector. *)
Definition note_triples (annotation : Record NoteRecord) : list Entry :=
  flat_map
    (fun '(id, range) =>
       match audio range, svgSelector range with
       | Some audio, Some _ =>
           [ {| id := id; originalMin := start audio;
                originalMax := end_ audio |} ]
       | _, _ => []
       end)
    annotation.

(** Segments in strictly ascending order of [start]. *)
Definition ascending_by_start (segs : list Segment) : Prop :=
  StronglySorted (fun s t => Num.lt (seg_start s) (seg_start t)) segs.

(** No segment reaches into a later one, and none is inverted. *)
Definition non_overlapping (segs : list Segment) : Prop :=
  ForallOrdPairs (fun s t => Num.le (seg_end s) (seg_start t)) segs
  /\ Forall (fun s => Num.le (seg_start s) (seg_end s)) segs.

(** [segments[i].end == segments[i+1].start], as identity of the values. *)
Definition contiguous (segs : list Segment) : Prop :=
  forall i s t,
    nth_error segs i = Some s -> nth_error segs (S i) = Some t ->
    seg_end s = seg_start t.

Definition least_min (entries : list Entry) (x : number) : Prop :=
  (exists e, In e entries /\ originalMin e = x)
  /\ forall e, In e entries -> Num.le x (originalMin e).

Definition greatest_max (entries : list Entry) (x : number) : Prop :=
  (exists e, In e entries /\ originalMax e = x)
  /\ forall e, In e entries -> Num.le (originalMax e) x.

(** The segments run, without a gap, from the least observed minimum to
    the greatest observed maximum. *)
Definition covers (entries : list Entry) (segs : list Segment) : Prop :=
  match segs with
  | [] => entries = []
  | first :: _ =>
      least_min entries (seg_start first)
      /\ greatest_max entries (seg_end (last segs first))
      /\ contiguous segs
  end.

(** What the reconciler is said to return for the triples [entries]. *)
Definition valid_partition (entries : list Entry) (segs : list Segment)
    : Prop :=
  ascending_by_start segs /\ non_overlapping segs /\ covers entries segs.

(** A triple with finite bounds in the right order. *)
Definition proper (e : Entry) : Prop :=
  Num.finite (originalMin e) /\ Num.finite (originalMax e)
  /\ Num.le (originalMin e) (originalMax e).

(** No two triples begin at the same time. *)
Definition distinct_mins (entries : list Entry) : Prop :=
  NoDup (map originalMin entries).

(** No range lies within another: the one that begins first does not end
    last.  Ranges may still overlap or leave gaps. *)
Definition unnested (entries : list Entry) : Prop :=
  forall a b, In a entries -> In b entries ->
    Num.lt (originalMin a) (originalMin b) ->
    Num.le (originalMax a) (originalMax b).

(** Sorting segments by key, [a.id < b.id ? -1 : a.id > b.id ? 1 : 0]. *)
Definition byKey (a b : Segment) : number :=
  if String.ltb (seg_id a) (seg_id b) then Num.of_Z (-1)
  else if String.ltb (seg_id b) (seg_id a) then Num.of_Z 1
  else Num.zero.

Definition sorted_by_key (r : completion (list Segment))
    : completion (list Segment) :=
  segs <- r ;; Ok (array_sort byKey segs).

(** ** Sample inputs *)

Definition range (lo hi : number) : MinMax := {| rmin := lo; rmax := hi |}.

(** The page accumulator of the end-to-end scenario. *)
Definition scenario_pages : Record MinMax :=
  [ ("A", range (Num.decimal 37 2) (Num.decimal 631 1));
    ("B", range (Num.decimal 6415 2) (Num.decimal 14438 2)) ].

(** Two short ranges inside a long one. *)
Definition nested_pages : Record MinMax :=
  [ ("A", range (Num.of_Z 0) (Num.of_Z 10));
    ("B", range (Num.of_Z 1) (Num.of_Z 2));
    ("C", range (Num.of_Z 3) (Num.of_Z 4)) ].

(** Ranges that overlap and leave a gap, out of order. *)
Definition overlapping_pages : Record MinMax :=
  [ ("B", range (Num.of_Z 8) (Num.of_Z 20));
    ("C", range (Num.of_Z 25) (Num.of_Z 30));
    ("A", range (Num.of_Z 0) (Num.of_Z 10)) ].

(** Two ranges that begin together, in the two possible orders. *)
Definition tied_pages : Record MinMax :=
  [ ("A", range (Num.of_Z 0) (Num.of_Z 10));
    ("B", range (Num.of_Z 0) (Num.of_Z 20)) ].

Definition tied_pages_reordered : Record MinMax :=
  [ ("B", range (Num.of_Z 0) (Num.of_Z 20));
    ("A", range (Num.of_Z 0) (Num.of_Z 10)) ].

(** ** The temporal pattern, read directly *)

Definition obind {A B} (o : option A) (k : A -> option B) : option B :=
  match o with
  | Some a => k a
  | None => None
  end.

(** The first way [r] matches at the head of [inp]: what is left of the
    input, and the groups. *)
Definition first_match (r : regex) (inp : list ascii) (caps : captures)
    : option (list ascii * captures) :=
  rmatch r inp caps (fun rest caps' => Some (rest, caps')).

(** What follows [[0-9]+(\.[0-9]+)?] at the head of [inp], if it is
    there. *)
Definition scan_seconds (inp : list ascii) : option (list ascii) :=
  match span_digits inp with
  | ([], _) => None
  | (_, r) =>
      match strip_prefix (chars ".") r with
      | Some r' =>
          match span_digits r' with
          | ([], _) => Some r
          | (_, r'') => Some r''
          end
      | None => Some r
      end
  end.

(** [post] without a leading "npt:". *)
Definition skip_npt (post : list ascii) : list ascii :=
  match strip_prefix (chars "npt:") post with
  | Some p => p
  | None => post
  end.

(** Groups 3 and 6 of the temporal pattern, for the text [post] that
    follows "t=". *)
Definition temporal_groups (post : list ascii)
    : option string * option string :=
  let p1 := skip_npt post in
  let '(g3, p2) :=
    match scan_seconds p1 with
    | Some p2 => (Some (consumed p1 p2), p2)
    | None => (None, p1)
    end in
  let g6 :=
    match strip_prefix (chars ",") p2 with
    | Some q =>
        match scan_seconds q with
        | Some p3 => Some (consumed q p3)
        | None => None
        end
    | None => None
    end in
  (g3, g6).

(** The pattern after its optional "&", and after "t=". *)
Definition TEMPORAL_REST : regex :=
  Seq (Opt (Group 2 (Lit "npt:")))
 (Seq (Opt (seconds 3 4))
      (Opt (Group 5 (Seq (Lit ",") (seconds 6 7))))).

Definition TEMPORAL_TAIL : regex := Seq (Group 1 (Lit "t=")) TEMPORAL_REST.

Definition begins_with_digit (s : list ascii) : bool :=
  match s with
  | c :: _ => is_digit c
  | [] => false
  end.

Definition begins_with_comma_digit (s : list ascii) : bool :=
  match strip_prefix (chars ",") s with
  | Some q => begins_with_digit q
  | None => false
  end.

(** [a] has the shape [[0-9]+(\.[0-9]+)?], all of it. *)
Definition seconds_literal (a : string) : bool :=
  match scan_seconds (chars a) with
  | Some [] => true
  | _ => false
  end.

(** A string that contains "t=" with no digit right after it. *)
Definition t_without_digits (s : string) : Prop :=
  exists pre post,
    s = (pre ++ "t=" ++ post)%string
    /\ begins_with_digit (chars post) = false.

(** ** The assembler and its store *)

(** A body that declares the fixed sound media type. *)
Definition set_media (b : AudioBody) : AudioBody :=
  {| body_id := body_id b;
     body_type := Some "Sound";
     body_format := Some "audio/mpeg" |}.

(** The store [h] in which the body of [audioCanvas.items[0].items[0]]
    declares the sound media type, and everything else is as in [h]. *)
Definition with_audio_media (h : Heap) : Heap :=
  {| h_audioCanvas :=
       {| audio_canvas_id := audio_canvas_id (h_audioCanvas h);
          duration := duration (h_audioCanvas h);
          audio_canvas_items :=
            match audio_canvas_items (h_audioCanvas h) with
            | page :: pages =>
                {| page_id := page_id page;
                   page_items :=
                     match page_items page with
                     | a :: rest =>
                         {| audio_id := audio_id a;
                            audio_body :=
                              option_map set_media (audio_body a) |}
                           :: rest
                     | [] => []
                     end |} :: pages
            | [] => []
            end |};
     h_orderedCanvases := h_orderedCanvases h;
     h_filteredAnnotationMapping := h_filteredAnnotationMapping h;
     h_canvasToServiceId := h_canvasToServiceId h;
     h_resourceMap := h_resourceMap h;
     h_mapping := h_mapping h |}.

(** A computation that leaves the store as it found it. *)
Definition readonly {A} (c : Script A) : Prop := forall h, snd (c h) = h.

(** A store for the assembler: one audio annotation of type "Audio",
    no pages and no notes. *)
Definition sample_heap : Heap :=
  {| h_audioCanvas :=
       {| audio_canvas_id := "https://example.org/canvas/1";
          duration := Num.of_Z 240;
          audio_canvas_items :=
            [ {| page_id := "https://example.org/page/1";
                 page_items :=
                   [ {| audio_id := "https://example.org/anno/1";
                        audio_body :=
                          Some {| body_id := "https://example.org/3.audio";
                                  body_type := Some "Audio";
                                  body_format := Some "audio/mp3" |} |} ]
              |} ] |};
     h_orderedCanvases := [];
     h_filteredAnnotationMapping := [];
     h_canvasToServiceId := [];
     h_resourceMap := [];
     h_mapping := [] |}.

(** A stand-in for the text of a number. *)
Definition sample_number_to_string (x : number) : string :=
  match x with
  | Num.NaN => "NaN"
  | Num.PosInf => "Infinity"
  | Num.NegInf => "-Infinity"
  | Num.Fin _ => "0"
  end.

(** One temporal and two spatial annotations; "n2" has no temporal one. *)
Definition fragment (src value : string) : Annotations :=
  One {| body :=
           Some {| source := Some src;
                   selector :=
                     Some {| selector_type := Some "FragmentSelector";
                             selector_value := Some value |} |} |}.

Definition sample_audio_annotations : Record Annotations :=
  [ ("n1", fragment "https://example.org/3.audio" "t=0,4.852608") ].

Definition sample_image_annotations : Record Annotations :=
  [ ("n1", fragment "https://example.org/f2"
             "((P1593,1999)(P1593,2030)(P1626,1999)(P1626,2030))");
    ("n2", fragment "https://example.org/f2"
             "((P1700,1999)(P1700,2030)(P1726,1999)(P1726,2030))") ].

Definition sample_serviceToCanvasId : Record string :=
  [ ("https://example.org/f2", "https://example.org/canvas/f2") ].

Definition sample_vault_get (ref : option string) : option Canvas :=
  match ref with
  | Some ref =>
      if String.eqb ref "https://example.org/canvas/f2"
      then Some {| canvas_id := ref; canvas_width := Num.of_Z 4512;
                   canvas_height := Num.of_Z 6174 |}
      else None
  | None => None
  end.

(** ** Auxiliary notions of the proofs *)

Definition lt_start (s t : Segment) : Prop :=
  Num.lt (seg_start s) (seg_start t).

(** The invariant of the loop: the next segment begins no later than the
    middle of the range it is made for. *)
Definition begins_by (start : number) (current : Entry) : Prop :=
  exists s a b,
    start = Fin s /\ originalMin current = Fin a
    /\ originalMax current = Fin b /\ (s <= mid a b)%Qc.

(** A pattern that matches at every position. *)
Definition never_fails (r : regex) : Prop :=
  forall inp caps, first_match r inp caps <> None.

(** The highlight annotation made for a segment. *)
Definition highlight_of (s : Segment) (hl : Highlight) : Prop :=
  highlight_id hl = "https://example/image-anno/" ++ seg_id s.


(** ** IEEE doubles, for one cross-check *)

Module Binary64.

Definition prec : Z := 53.
Definition emax : Z := 1024.

(** The double nearest to m / 10^k. *)
Definition decimal (m : positive) (k : Z) : SpecFloat.spec_float :=
  SpecFloat.SFdiv prec emax
    (SpecFloat.S754_finite false m 0)
    (SpecFloat.S754_finite false (Z.to_pos (10 ^ k)) 0).

Definition add := SpecFloat.SFadd prec emax.
Definition div := SpecFloat.SFdiv prec emax.

End Binary64.

(** ** Further vocabulary: the reconciler *)

(** The segments [segs] are those of the sorted triples [sorted], one for
    one: same key, and an end that is the midpoint with the next triple,
    or the triple's own maximum for the last one. *)
Definition bounds_of (sorted : list Entry) (segs : list Segment) : Prop :=
  List.length segs = List.length sorted
  /\ forall i current seg,
       nth_error sorted i = Some current ->
       nth_error segs i = Some seg ->
       seg_id seg = id current
       /\ match nth_error sorted (S i) with
          | Some next =>
              seg_end seg
              = Num.div (Num.add (originalMax current) (originalMin next))
                  Num.two
          | None => seg_end seg = originalMax current
          end.

(** The records of a mapping that take part in the note partition. *)
Definition complete_records (annotation : Record NoteRecord)
    : Record NoteRecord :=
  filter (fun '(_, range) => complete range) annotation.

(** ** Further vocabulary: the join *)


(** A record that holds a time range and nothing else. *)
Definition temporal_only (r : NoteRecord) : Prop :=
  audio r <> None /\ imageId r = None /\ canvasId r = None
  /\ svgPoints r = None /\ svgSelector r = None /\ minMax r = None.


(** The mapping after the scan of the sample audio annotations. *)
Definition sample_mapping : Record NoteRecord :=
  match audio_pass sample_audio_annotations with
  | Ok m => m
  | TypeError => []
  end.

(** [src] and [sel] are the source and the selector of some annotation
    the scans accept. *)
Definition accepted_source (src : string) (sel : Selector) : Prop :=
  exists anno, accepted anno = Some (src, sel).

(** The state after an accepted image annotation of a note whose record
    has the time range [a]. *)
Definition image_update (number_to_string : number -> string)
    (serviceToCanvasId : Record string) (id src value : string)
    (a : TimeRange) (canvas : Canvas) (st : JoinState) : JoinState :=
  let range :=
    match get (canvas_id canvas) (canvasMinMax st) with
    | Some r => r
    | None => {| rmin := PosInf; rmax := NegInf |}
    end in
  {| mapping :=
       set id
         {| audio := Some a; imageId := Some src;
            canvasId := get src serviceToCanvasId;
            svgPoints := Some (parseFragmentSelector value);
            svgSelector :=
              Some (toSvg number_to_string (canvas_width canvas)
                      (canvas_height canvas)
                      (parseFragmentSelector value) "polygon");
            minMax := Some (canvas_id canvas) |} (mapping st);
     canvasMinMax :=
       set (canvas_id canvas)
         {| rmin := Num.min (start a) (rmin range);
            rmax := Num.max (end_ a) (rmax range) |} (canvasMinMax st) |}.


(** [sel] is the selector of some annotation the scans accept. *)
Definition accepted_source_selector (sel : Selector) : Prop :=
  exists src anno, accepted anno = Some (src, sel).

(** A record that the image scan has placed: it has its image, its
    polygon, its selector and a page that the accumulator knows. *)
Definition placed (canvasMinMax : Record MinMax) (r : NoteRecord) : Prop :=
  imageId r <> None /\ svgPoints r <> None /\ svgSelector r <> None
  /\ exists c, minMax r = Some c /\ get c canvasMinMax <> None.

(** The store the script hands to the assembler. *)
Definition assembler_heap (audioCanvas : AudioCanvas)
    (pages notes : list Segment) (canvasToServiceId : Record string)
    (resourceMap : Record Resource) (mapping : Record NoteRecord) : Heap :=
  {| h_audioCanvas := audioCanvas;
     h_orderedCanvases := pages;
     h_filteredAnnotationMapping := notes;
     h_canvasToServiceId := canvasToServiceId;
     h_resourceMap := resourceMap;
     h_mapping := mapping |}.

(** The sample audio annotations with one more note, "n3", that no
    image annotation mentions. *)
Definition sample_audio_annotations_more : Record Annotations :=
  (sample_audio_annotations
     ++ [ ("n3", fragment "https://example.org/3.audio" "t=5,6.5") ])%list.

(** ** Further vocabulary: the assembler *)

(** The painting annotation made for the page segment [c] at index
    [idx], with the resource of its page. *)
Definition page_painting (number_to_string : number -> string)
    (canvasId : string) (idx : nat) (c : Segment) (resource : Resource)
    : PaintingAnnotation :=
  {| painting_id :=
       "https://example/image-anno/"
         ++ number_to_string (Num.of_Z (Z.of_nat idx));
     painting_body := [resource];
     painting_target :=
       canvasId ++ "#xywh=0,0,"
         ++ number_to_string (resource_width resource) ++ ","
         ++ number_to_string (resource_height resource)
         ++ "&t=" ++ number_to_string (seg_start c)
         ++ "," ++ number_to_string (seg_end c) |}.

(** The highlight annotation made for the note segment [s], with the
    record of its note. *)
Definition note_highlight (number_to_string : number -> string)
    (pageId : string) (s : Segment) (item : NoteRecord) : Highlight :=
  {| highlight_id := "https://example/image-anno/" ++ seg_id s;
     highlight_source := pageId;
     highlight_svg := svgSelector item;
     highlight_time :=
       "t=" ++ number_to_string (seg_start s)
         ++ "," ++ number_to_string (seg_end s) |}.

(** The audio canvas has a first annotation page with a first annotation
    that has a body. *)
Definition has_first_audio (audioCanvas : AudioCanvas) : Prop :=
  exists page a rest b,
    nth_error (audio_canvas_items audioCanvas) 0 = Some page
    /\ page_items page = a :: rest
    /\ audio_body a = Some b.

(** What the assembler needs to produce a document. *)
Definition assemblable (h : Heap) : Prop :=
  Forall (fun c => resource_of c h <> None) (h_orderedCanvases h)
  /\ has_first_audio (h_audioCanvas h)
  /\ Forall (fun s => get (seg_id s) (h_mapping h) <> None)
       (h_filteredAnnotationMapping h).

(** The image manifest of the samples: one page with an image service,
    one page without. *)
Definition sample_image_canvases : list ImageCanvas :=
  [ {| image_canvas_id := "https://example.org/canvas/f2";
       image_painted :=
         Some {| image_service := Some "https://example.org/f2";
                 image_resource :=
                   {| resource_id := "https://example.org/f2/full.jpg";
                      resource_width := Num.of_Z 4512;
                      resource_height := Num.of_Z 6174 |} |} |};
    {| image_canvas_id := "https://example.org/canvas/f3";
       image_painted :=
         Some {| image_service := None;
                 image_resource :=
                   {| resource_id := "https://example.org/f3/full.jpg";
                      resource_width := Num.of_Z 4000;
                      resource_height := Num.of_Z 6000 |} |} |} ].

Definition sample_tables : Tables :=
  match build_tables sample_image_canvases with
  | Ok t => t
  | TypeError => no_tables
  end.

(** The state after the two scans of the sample annotations. *)
Definition sample_join : JoinState :=
  match join sample_number_to_string (t_serviceToCanvasId sample_tables)
          sample_vault_get sample_audio_annotations
          sample_image_annotations with
  | Ok st => st
  | TypeError => {| mapping := []; canvasMinMax := [] |}
  end.

(** The store the script hands to the assembler on the samples. *)
Definition sample_store : Heap :=
  match orderCanvasMapping (canvasMinMax sample_join),
        orderAnnotationMapping (mapping sample_join) with
  | Ok pages, Ok notes =>
      assembler_heap (h_audioCanvas sample_heap) pages notes
        (t_canvasToServiceId sample_tables) (t_resourceMap sample_tables)
        (mapping sample_join)
  | _, _ => sample_heap
  end.

Definition sample_manifest : Manifest :=
  match fst (newManifest sample_number_to_string sample_store) with
  | Ok m => m
  | TypeError =>
      {| manifest_canvas_id := EmptyString; manifest_duration := NaN;
         manifest_width := NaN; manifest_height := NaN;
         manifest_page_id := EmptyString; manifest_items := [];
         manifest_annotations := [] |}
  end.

(** ** Further vocabulary: the tables and the whole script *)

(** Every service that has a page has a resource, the page of a service
    has a service, and the service of a page has a page. *)
Definition tables_closed (t : Tables) : Prop :=
  (forall s c,
     get s (t_serviceToCanvasId t) = Some c ->
     get c (t_canvasToServiceId t) <> None
     /\ get s (t_resourceMap t) <> None)
  /\ (forall c s,
        get c (t_canvasToServiceId t) = Some s ->
        get s (t_serviceToCanvasId t) <> None).

(** The entry of a service comes from the page [P] holds for, and the
    page leads back to the service. *)
Definition tables_from (P : ImageCanvas -> Prop) (t : Tables) : Prop :=
  forall s c,
    get s (t_serviceToCanvasId t) = Some c ->
    get c (t_canvasToServiceId t) = Some s
    /\ exists canvas image,
         P canvas /\ image_canvas_id canvas = c
         /\ image_painted canvas = Some image
         /\ image_service image = Some s
         /\ get s (t_resourceMap t) = Some (image_resource image).

(** The vault returns, for a reference, the object with that id. *)
Definition vault_by_id (vault_get : option string -> option Canvas) : Prop :=
  forall ref canvas,
    vault_get ref = Some canvas -> ref = Some (canvas_id canvas).

(** A selector made by [toSvg] for a polygon on some page. *)
Definition polygon_selector (number_to_string : number -> string)
    (vault_get : option string -> option Canvas) (o : option SvgSelector)
    : Prop :=
  exists ref canvas value,
    vault_get ref = Some canvas
    /\ o = Some (toSvg number_to_string (canvas_width canvas)
                   (canvas_height canvas) (parseFragmentSelector value)
                   "polygon").

(** ** Further vocabulary: the fragment parsers *)

(** The characters of the literal with the integer digits [ip] and the
    fraction digits [fp]; without fraction digits there is no point. *)
Definition literal_chars (ip fp : list ascii) : list ascii :=
  match fp with
  | [] => ip
  | _ :: _ => (ip ++ "."%char :: fp)%list
  end.

(** [NaN], or a number that is at least 0. *)
Definition NaN_or_not_negative (x : number) : Prop :=
  x = NaN \/ Num.le Num.zero x.

Definition begins_with_point (s : list ascii) : bool :=
  match s with
  | c :: _ => Ascii.eqb c "."
  | [] => false
  end.

(** A capture group of the temporal pattern that holds seconds: it is
    [undefined], or a literal of the shape digits or digits.digits. *)
Definition seconds_group (o : option string) : Prop :=
  o = None
  \/ exists ip fp,
       ip <> [] /\ forallb is_digit ip = true /\ forallb is_digit fp = true
       /\ o = Some (text (literal_chars ip fp)).

(** [pieces.join(separator)] *)
Fixpoint join_chars (separator : list ascii) (pieces : list (list ascii))
    : list ascii :=
  match pieces with
  | [] => []
  | [p] => p
  | p :: rest => (p ++ separator ++ join_chars separator rest)%list
  end.

(** The text of a polygon whose coordinates are written as digit
    strings: "((Px,y)(Px,y)...)". *)
Definition point_chars (coords : list (list ascii)) : list ascii :=
  "P"%char :: join_chars (chars ",") coords.

Definition polygon_chars (points : list (list (list ascii))) : list ascii :=
  (chars "((" ++ join_chars (chars ")(") (map point_chars points)
     ++ chars "))")%list.

(** A coordinate written as a non-empty string of decimal digits. *)
Definition digit_string (ds : list ascii) : Prop :=
  ds <> [] /\ forallb is_digit ds = true.

(** A coordinate whose value is an integer that a double holds
    exactly. *)
Definition safe_integer (ds : list ascii) : Prop :=
  digit_string ds /\ (digits_value ds <= 2 ^ 53)%Z.

(** ** Vocabulary of the revised statements *)

(** Segments in ascending order of [start]; neighbours may begin at the
    same instant. *)
Definition ascending_starts (segs : list Segment) : Prop :=
  StronglySorted (fun s t => Num.le (seg_start s) (seg_start t)) segs.

(** What the reconciler returns for unnested triples: segments in
    ascending order that do not overlap and run, without a gap, from the
    least observed minimum to the greatest observed maximum. *)
Definition ordered_partition (entries : list Entry) (segs : list Segment)
    : Prop :=
  ascending_starts segs /\ non_overlapping segs /\ covers entries segs.

(** Bounds of magnitude at most 2^1022: the sum of two of them is a
    finite double. *)
Definition magnitude_limit : number := Num.of_Z (2 ^ 1022).

Definition within_limit (x : number) : Prop :=
  Num.le (Num.neg magnitude_limit) x /\ Num.le x magnitude_limit.

Definition summable (e : Entry) : Prop :=
  within_limit (originalMin e) /\ within_limit (originalMax e).

(** The double that follows 1. *)
Definition double_after_one : SpecFloat.spec_float :=
  SpecFloat.S754_finite false (2 ^ 52 + 1) (-52).

(** [x == y] on two numbers: [NaN] equals nothing, itself included. *)
Definition equals (x y : number) : bool :=
  match x, y with
  | Num.NegInf, Num.NegInf => true
  | Num.PosInf, Num.PosInf => true
  | Num.Fin a, Num.Fin b =>
      match (a ?= b)%Qc with
      | Eq => true
      | _ => false
      end
  | _, _ => false
  end.

(** [segments[i].end == segments[i+1].start] for every adjacent pair. *)
Definition adjacent_equal (segs : list Segment) : Prop :=
  forall i s t,
    nth_error segs i = Some s -> nth_error segs (S i) = Some t ->
    equals (seg_end s) (seg_start t) = true.

(** A triple without [NaN] and without an infinite bound. *)
Definition finite_bounds (e : Entry) : Prop :=
  Num.finite (originalMin e) /\ Num.finite (originalMax e).

(** A page whose notes have no end, as "t=5" gives them, before a page
    with both bounds. *)
Definition open_ended_pages : Record MinMax :=
  [ ("A", range (Num.of_Z 0) NaN);
    ("B", range (Num.of_Z 1) (Num.of_Z 2)) ].

(** The ids of a mapping with their time ranges, in the order of the
    mapping. *)
Definition time_ranges (m : Record NoteRecord)
    : list (string * option TimeRange) :=
  map (fun '(id, r) => (id, audio r)) m.

(** The one key of a plain object that names no property of its own:
    reading it gives the prototype, and an assignment to it creates no
    key. *)
Definition prototype_key : string := "__proto__".
(** * Properties *)

(** ** Numbers *)

Module NumFacts.

Lemma ltb_Fin a b : Num.ltb (Fin a) (Fin b) = true <-> (a < b)%Qc.
Proof.
  cbn. rewrite Qclt_alt. destruct (a ?= b)%Qc; split; congruence.
Qed.

Lemma leb_Fin a b : Num.leb (Fin a) (Fin b) = true <-> (a <= b)%Qc.
Proof.
  cbn. rewrite Qcle_alt. destruct (a ?= b)%Qc; split; congruence.
Qed.

Lemma this_sub a b : (this (a + - b)%Qc == this a - this b)%Q.
Proof.
  unfold Qcplus, Qcopp, Q2Qc. cbn [this]. rewrite !Qred_correct. reflexivity.
Qed.

(** The comparator of the sort: [x - y > 0] exactly when [y < x]. *)
Lemma sub_positive x y :
  Num.ltb Num.zero (Num.sub x y) = Num.ltb y x.
Proof.
  destruct x as [| | |a], y as [| | |b]; try reflexivity.
  apply eq_true_iff_eq. unfold Num.sub, Num.neg, Num.add, Num.zero.
  rewrite !ltb_Fin. unfold Qclt. rewrite this_sub.
  change (this (Q2Qc 0)) with (0%Q). split; intro; lra.
Qed.

Lemma lt_irrefl x : ~ Num.lt x x.
Proof.
  unfold Num.lt. destruct x as [| | |a]; cbn; try discriminate.
  intro H. change (Num.ltb (Fin a) (Fin a) = true) in H.
  apply ltb_Fin in H. exact (Qclt_not_eq a a H eq_refl).
Qed.

Lemma lt_trans x y z : Num.lt x y -> Num.lt y z -> Num.lt x z.
Proof.
  unfold Num.lt.
  destruct x as [| | |a], y as [| | |b], z as [| | |c];
    try discriminate; try reflexivity.
  rewrite !ltb_Fin. apply Qclt_trans.
Qed.

Lemma le_trans x y z : Num.le x y -> Num.le y z -> Num.le x z.
Proof.
  unfold Num.le.
  destruct x as [| | |a], y as [| | |b], z as [| | |c];
    try discriminate; try reflexivity.
  rewrite !leb_Fin. apply Qcle_trans.
Qed.

Lemma lt_le x y : Num.lt x y -> Num.le x y.
Proof.
  unfold Num.lt, Num.le.
  destruct x as [| | |a], y as [| | |b]; try discriminate; try reflexivity.
  rewrite ltb_Fin, leb_Fin. apply Qclt_le_weak.
Qed.

Lemma le_lt_trans x y z : Num.le x y -> Num.lt y z -> Num.lt x z.
Proof.
  unfold Num.lt, Num.le.
  destruct x as [| | |a], y as [| | |b], z as [| | |c];
    try discriminate; try reflexivity.
  rewrite !ltb_Fin, leb_Fin. apply Qcle_lt_trans.
Qed.

(** Away from [NaN] the order is total. *)
Lemma not_lt_le x y :
  x <> NaN -> y <> NaN -> Num.ltb y x = false -> Num.le x y.
Proof.
  unfold Num.le.
  destruct x as [| | |a], y as [| | |b]; try congruence; try reflexivity;
    try discriminate.
  intros _ _ H. apply leb_Fin. apply Qcnot_lt_le. intro L.
  apply ltb_Fin in L. congruence.
Qed.

Lemma le_neq_lt x y : Num.le x y -> x <> y -> Num.lt x y.
Proof.
  unfold Num.lt, Num.le.
  destruct x as [| | |a], y as [| | |b]; try discriminate; try reflexivity;
    try congruence.
  rewrite ltb_Fin, leb_Fin. intros L N.
  destruct (Qcle_lt_or_eq _ _ L) as [|E]; [assumption|]. congruence.
Qed.

Lemma lt_not_NaN x y : Num.lt x y -> x <> NaN /\ y <> NaN.
Proof.
  unfold Num.lt. destruct x, y; try discriminate; split; discriminate.
Qed.

Lemma finite_Fin x : Num.finite x -> exists q, x = Fin q.
Proof. destruct x; cbn; try contradiction. eauto. Qed.

Lemma div_add_two a b :
  Num.div (Num.add (Fin a) (Fin b)) Num.two = Fin (mid a b).
Proof. reflexivity. Qed.

Lemma this_mid a b : (this (mid a b) == (this a + this b) * (1 # 2))%Q.
Proof.
  unfold mid, Qcdiv, Qcmult, Qcplus, Qcinv, Q2Qc. cbn [this].
  rewrite !Qred_correct. reflexivity.
Qed.

End NumFacts.

(** ** The sort *)

Section SortFacts.
Context {A : Type}.
Variable key : A -> number.

Let comparefn (a b : A) : number := Num.sub (key a) (key b).
Local Abbreviation key_le := (key_le key).
Local Abbreviation key_lt := (key_lt key).
Local Abbreviation key_defined := (key_defined key).


Lemma sort_insert_perm x l : Permutation (sort_insert comparefn x l) (x :: l).
Proof.
  induction l as [|y l IH]; cbn [sort_insert]; [reflexivity|].
  destruct (Num.ltb Num.zero (comparefn x y)); [|reflexivity].
  rewrite IH. apply perm_swap.
Qed.

Lemma array_sort_cons x l :
  array_sort comparefn (x :: l)
  = sort_insert comparefn x (array_sort comparefn l).
Proof. reflexivity. Qed.

Lemma array_sort_perm l : Permutation (array_sort comparefn l) l.
Proof.
  induction l as [|x l IH]; [reflexivity|].
  rewrite array_sort_cons, sort_insert_perm. now constructor.
Qed.

Lemma sort_insert_sorted x l :
  key_defined x -> Forall key_defined l ->
  StronglySorted key_le l ->
  StronglySorted key_le (sort_insert comparefn x l).
Proof.
  intros Hx Hl Hs. induction Hs as [|y l Hs IH Hy]; cbn [sort_insert].
  - repeat constructor.
  - unfold comparefn at 1. rewrite NumFacts.sub_positive.
    inversion Hl as [|? ? Dy Dl]; subst.
    destruct (Num.ltb (key y) (key x)) eqn:E.
    + constructor; [now apply IH|].
      rewrite sort_insert_perm. constructor; [|assumption].
      now apply NumFacts.lt_le.
    + assert (key_le x y) by now apply NumFacts.not_lt_le.
      constructor; [now constructor|]. constructor; [assumption|].
      eapply Forall_impl; [|exact Hy]. intros z Hz.
      eapply NumFacts.le_trans; eassumption.
Qed.

Lemma array_sort_sorted l :
  Forall key_defined l -> StronglySorted key_le (array_sort comparefn l).
Proof.
  induction 1 as [|x l Hx Hl IH]; [constructor|].
  rewrite array_sort_cons.
  apply sort_insert_sorted; [assumption| |assumption].
  now rewrite array_sort_perm.
Qed.

(** With distinct keys the sorted list is in strict order. *)
Lemma sorted_distinct_strict l :
  StronglySorted key_le l -> NoDup (map key l) ->
  StronglySorted key_lt l.
Proof.
  induction 1 as [|x l Hs IH Hx]; cbn; intros Hd; [constructor|].
  inversion Hd as [|? ? Hn Hd']; subst.
  constructor; [now apply IH|].
  rewrite Forall_forall in *. intros y Hy.
  apply NumFacts.le_neq_lt; [now apply Hx|].
  intro E. apply Hn. rewrite E. now apply in_map.
Qed.

(** A list has at most one arrangement in strict order. *)
Lemma strictly_sorted_unique l l' :
  StronglySorted key_lt l -> StronglySorted key_lt l' ->
  Permutation l l' -> l = l'.
Proof.
  intros Hs. revert l'.
  induction Hs as [|x l Hs IH Hx]; intros l' Hs' Hp.
  - now apply Permutation_nil in Hp.
  - destruct Hs' as [|y l' Hs' Hy].
    + symmetry in Hp. now apply Permutation_nil in Hp.
    + assert (x = y) as ->.
      { assert (In x (y :: l')) as [E|I]
          by (eapply Permutation_in; [exact Hp|now left]); [easy|].
        assert (In y (x :: l)) as [E|I']
          by (eapply Permutation_in; [symmetry; exact Hp|now left]);
          [easy|].
        rewrite Forall_forall in Hx, Hy.
        destruct (@NumFacts.lt_irrefl (key x)).
        eapply NumFacts.lt_trans; [apply (Hx _ I')|apply (Hy _ I)]. }
      f_equal. apply IH; [assumption|].
      eapply Permutation_cons_inv; exact Hp.
Qed.

(** Distinct keys, none of them [NaN]: the order of the input does not
    show in the sorted array. *)
Lemma array_sort_permutation l l' :
  Forall key_defined l -> NoDup (map key l) -> Permutation l l' ->
  array_sort comparefn l = array_sort comparefn l'.
Proof.
  intros Hd Hn Hp.
  assert (Forall key_defined l') by now rewrite <- Hp.
  assert (NoDup (map key l')).
  { eapply Permutation_NoDup; [|exact Hn]. now apply Permutation_map. }
  apply strictly_sorted_unique.
  - apply sorted_distinct_strict; [now apply array_sort_sorted|].
    eapply Permutation_NoDup; [|exact Hn].
    apply Permutation_map. symmetry. apply array_sort_perm.
  - apply sorted_distinct_strict; [now apply array_sort_sorted|].
    eapply Permutation_NoDup; [|eassumption].
    apply Permutation_map. symmetry. apply array_sort_perm.
  - now rewrite !array_sort_perm.
Qed.
End SortFacts.

(** ** The loop of the reconciler *)

Lemma segment_loop rest : forall visited result,
  List.length result = List.length visited ->
  for_range (List.length rest) (List.length visited)
    (segment_step (visited ++ rest)) result
  = Ok (result ++ partition_from (next_start result rest) rest)%list.
Proof.
  induction rest as [|current rest IH]; intros visited result Hlen; cbn.
  - now rewrite app_nil_r.
  - unfold segment_step at 1.
    rewrite nth_error_app2, Nat.sub_diag by lia. cbn [nth_error defined bind].
    replace (nth_error (visited ++ current :: rest) (List.length visited + 1))
      with (hd_error rest).
    2:{ rewrite nth_error_app2 by lia.
        replace (List.length visited + 1 - List.length visited) with 1 by lia.
        now destruct rest. }
    assert (Hstep : forall seg,
      for_range (List.length rest) (S (List.length visited))
        (segment_step (visited ++ current :: rest)) (result ++ [seg])%list
      = Ok ((result ++ [seg]) ++ partition_from (seg_end seg) rest)%list).
    { intros seg.
      specialize (IH (visited ++ [current])%list (result ++ [seg])%list).
      rewrite <- app_assoc, !length_app in IH. cbn in IH.
      rewrite !Nat.add_1_r in IH. rewrite IH by lia. do 2 f_equal.
      unfold next_start. rewrite length_app. cbn.
      rewrite nth_error_app2 by lia.
      replace (List.length result + 1 - 1 - List.length result) with 0 by lia.
      reflexivity. }
    destruct visited as [|v visited]; cbn [List.length Nat.eqb].
    + destruct result; [|discriminate].
      cbn [app bind List.length] in Hstep |- *.
      rewrite Hstep. reflexivity.
    + unfold next_start. cbn [List.length] in Hstep, Hlen.
      replace (S (List.length visited) - 1) with (List.length result - 1)
        by lia.
      destruct (nth_error result (List.length result - 1)) as [previous|] eqn:E.
      * cbn [defined bind]. rewrite Hstep.
        rewrite <- app_assoc. reflexivity.
      * apply nth_error_None in E. cbn in Hlen. lia.
Qed.

(** The loop never reads [undefined]: it returns the partition. *)
Lemma segments_of_sorted_partition entries :
  segments_of_sorted entries = Ok (partition entries).
Proof.
  unfold segments_of_sorted. destruct entries as [|first rest]; [reflexivity|].
  cbn [Nat.eqb List.length].
  exact (segment_loop (first :: rest) [] [] eq_refl).
Qed.

Lemma orderCanvasMapping_partition canvasMinMax :
  orderCanvasMapping canvasMinMax
  = Ok (partition (array_sort byOriginalMin (canvas_entries canvasMinMax))).
Proof. apply segments_of_sorted_partition. Qed.

Lemma note_entries_loop annotation : forall entries,
  for_each
    (fun entries '(id, range) =>
       audio <- defined (audio range) ;;
       Ok (entries ++ [ {| id := id; originalMin := start audio;
                           originalMax := end_ audio |} ])%list)
    (filter (fun '(_, range) => complete range) annotation) entries
  = Ok (entries ++ note_triples annotation)%list.
Proof.
  induction annotation as [|[id range] annotation IH]; intros entries.
  - cbn. now rewrite app_nil_r.
  - cbn [filter note_triples flat_map]. unfold complete at 1.
    destruct (audio range) as [a|] eqn:Ea; [|apply IH].
    destruct (svgSelector range) as [v|]; [|apply IH].
    cbn [for_each]. rewrite Ea. cbn [defined bind].
    rewrite IH, <- app_assoc. reflexivity.
Qed.

Lemma orderAnnotationMapping_partition annotation :
  orderAnnotationMapping annotation
  = Ok (partition (array_sort byOriginalMin (note_triples annotation))).
Proof.
  unfold orderAnnotationMapping. rewrite note_entries_loop. cbn [bind app].
  apply segments_of_sorted_partition.
Qed.

(** ** Contiguity and the two ends of a partition *)

Lemma partition_from_contiguous entries :
  forall start, contiguous (partition_from start entries).
Proof.
  induction entries as [|current rest IH]; intros start i s t Hs Ht.
  - destruct i; discriminate.
  - cbn [partition_from] in Hs, Ht. destruct i as [|i].
    + injection Hs as <-. cbn [nth_error] in Ht.
      destruct rest; [discriminate|]. cbn in Ht. now injection Ht as <-.
    + cbn [nth_error] in Hs, Ht. exact (IH _ _ _ _ Hs Ht).
Qed.

Lemma partition_contiguous entries : contiguous (partition entries).
Proof.
  destruct entries; [intros [|]; discriminate|].
  apply partition_from_contiguous.
Qed.

Lemma partition_from_last_end entries : forall start e0 s0,
  entries <> [] ->
  seg_end (last (partition_from start entries) s0)
  = originalMax (last entries e0).
Proof.
  induction entries as [|current rest IH]; intros start e0 s0 Hne;
    [congruence|].
  destruct rest as [|next rest]; [reflexivity|].
  change (seg_end (last (partition_from
            (segment_end current (Some next)) (next :: rest)) s0)
          = originalMax (last (next :: rest) e0)).
  now apply IH.
Qed.

Lemma partition_from_ids entries : forall start,
  map seg_id (partition_from start entries) = map id entries.
Proof.
  induction entries as [|current rest IH]; intros start; [reflexivity|].
  cbn. now rewrite IH.
Qed.

Lemma partition_ids entries : map seg_id (partition entries) = map id entries.
Proof. destruct entries; [reflexivity|]. apply partition_from_ids. Qed.

(** ** Order of the segments, for ranges that are not nested *)

Module Midpoint.

Ltac to_Q :=
  unfold Qclt, Qcle in *; rewrite ?NumFacts.this_mid in *.

Lemma start_below_next s a b a2 :
  (s <= mid a b)%Qc -> (a < a2)%Qc -> (s < mid b a2)%Qc.
Proof. to_Q. intros. lra. Qed.

Lemma next_invariant b a2 b2 :
  (b <= b2)%Qc -> (mid b a2 <= mid a2 b2)%Qc.
Proof. to_Q. intros. lra. Qed.

Lemma start_below_max s a b :
  (s <= mid a b)%Qc -> (a <= b)%Qc -> (s <= b)%Qc.
Proof. to_Q. intros. lra. Qed.

Lemma first_invariant a b : (a <= b)%Qc -> (a <= mid a b)%Qc.
Proof. to_Q. intros. lra. Qed.

End Midpoint.

Lemma proper_Fin e :
  proper e ->
  exists a b, originalMin e = Fin a /\ originalMax e = Fin b /\ (a <= b)%Qc.
Proof.
  intros (Hmin & Hmax & Hle).
  destruct (NumFacts.finite_Fin _ Hmin) as [a Ea].
  destruct (NumFacts.finite_Fin _ Hmax) as [b Eb].
  exists a, b. repeat split; try assumption.
  unfold Num.le in Hle. rewrite Ea, Eb in Hle. now apply NumFacts.leb_Fin.
Qed.

Lemma partition_from_ordered entries : forall start,
  Forall proper entries ->
  StronglySorted (key_lt originalMin) entries ->
  StronglySorted (key_le originalMax) entries ->
  match entries with
  | current :: _ => begins_by start current
  | [] => True
  end ->
  Sorted lt_start (partition_from start entries)
  /\ Forall (fun s => Num.le (seg_start s) (seg_end s))
       (partition_from start entries).
Proof.
  induction entries as [|current rest IH]; intros start Hp Hmin Hmax Hinv.
  - split; constructor.
  - cbn [partition_from].
    destruct Hinv as (s & a & b & -> & Ea & Eb & Hs).
    inversion Hp as [|? ? Hc Hrest]; subst.
    inversion Hmin as [|? ? Hmin' Hlt]; subst.
    inversion Hmax as [|? ? Hmax' Hle]; subst.
    destruct (proper_Fin Hc) as (a' & b' & Ea' & Eb' & Hab).
    rewrite Ea in Ea'. rewrite Eb in Eb'.
    injection Ea' as <-. injection Eb' as <-.
    destruct rest as [|next rest].
    + cbn [hd_error segment_end partition_from]. split.
      * repeat constructor.
      * repeat constructor. cbn [seg_start seg_end]. rewrite Eb.
        apply NumFacts.leb_Fin. eapply Midpoint.start_below_max; eassumption.
    + inversion Hrest as [|? ? Hn _]; subst.
      destruct (proper_Fin Hn) as (a2 & b2 & Ea2 & Eb2 & Hab2).
      inversion Hlt as [|? ? Hlt1 _]; subst.
      inversion Hle as [|? ? Hle1 _]; subst.
      unfold key_lt, Num.lt in Hlt1. rewrite Ea, Ea2 in Hlt1.
      apply NumFacts.ltb_Fin in Hlt1.
      unfold key_le, Num.le in Hle1. rewrite Eb, Eb2 in Hle1.
      apply NumFacts.leb_Fin in Hle1.
      assert (Eend : segment_end current (hd_error (next :: rest))
                     = Fin (mid b a2)).
      { cbn [hd_error segment_end]. rewrite Eb, Ea2.
        apply NumFacts.div_add_two. }
      rewrite Eend.
      assert (Hlt_end : (s < mid b a2)%Qc)
        by (eapply Midpoint.start_below_next; eassumption).
      destruct (IH (Fin (mid b a2)) Hrest Hmin' Hmax') as [Hsorted Hwf].
      { exists (mid b a2), a2, b2. repeat split; try assumption.
        now apply Midpoint.next_invariant. }
      split.
      * constructor; [exact Hsorted|].
        cbn [partition_from]. constructor. unfold lt_start, Num.lt.
        cbn [seg_start]. now apply NumFacts.ltb_Fin.
      * constructor; [|exact Hwf]. cbn [seg_start seg_end].
        apply NumFacts.leb_Fin. now apply Qclt_le_weak.
Qed.

Lemma le_refl_right x y : Num.le x y -> Num.le y y.
Proof.
  unfold Num.le. destruct x, y; intros H; try discriminate H;
    try reflexivity; apply NumFacts.leb_Fin; apply Qcle_refl.
Qed.

Lemma le_refl_left x y : Num.le x y -> Num.le x x.
Proof.
  unfold Num.le. destruct x, y; intros H; try discriminate H;
    try reflexivity; apply NumFacts.leb_Fin; apply Qcle_refl.
Qed.

Lemma contiguous_tail s segs : contiguous (s :: segs) -> contiguous segs.
Proof. intros H i a b Ha Hb. exact (H (S i) a b Ha Hb). Qed.

Lemma lt_start_transitive : Relations_1.Transitive lt_start.
Proof. intros a b c. apply NumFacts.lt_trans. Qed.

Lemma ordered_segments_apart segs :
  StronglySorted lt_start segs -> contiguous segs ->
  Forall (fun s => Num.le (seg_start s) (seg_end s)) segs ->
  ForallOrdPairs (fun s t => Num.le (seg_end s) (seg_start t)) segs.
Proof.
  induction 1 as [|s segs Hs IH Hall]; intros Hc Hwf; [constructor|].
  inversion Hwf as [|? ? Hws Hwf']; subst.
  constructor; [|apply IH; [eapply contiguous_tail; eassumption|assumption]].
  destruct segs as [|t segs]; [constructor|].
  assert (E : seg_end s = seg_start t) by exact (Hc 0 s t eq_refl eq_refl).
  constructor.
  - rewrite <- E. eapply le_refl_right; exact Hws.
  - inversion Hs as [|? ? _ Ht]; subst.
    eapply Forall_impl; [|exact Ht]. intros u Hu. rewrite E.
    apply NumFacts.lt_le. exact Hu.
Qed.

Lemma StronglySorted_impl_in {A} (R R' : A -> A -> Prop) l :
  (forall a b, In a l -> In b l -> R a b -> R' a b) ->
  StronglySorted R l -> StronglySorted R' l.
Proof.
  intros Himp Hs. induction Hs as [|x l Hs IH Hx]; [constructor|].
  constructor.
  - apply IH. intros a b Ia Ib. apply Himp; now right.
  - rewrite Forall_forall in *. intros y Hy.
    apply Himp; [now left|now right|now apply Hx].
Qed.

Lemma last_In {A} (l : list A) d : l <> [] -> In (last l d) l.
Proof.
  induction l as [|x l IH]; [congruence|]. intros _.
  destruct l as [|y l]; [now left|].
  right. apply IH. discriminate.
Qed.

Lemma StronglySorted_last {A} (R : A -> A -> Prop) l : forall d x,
  StronglySorted R l -> In x l -> x = last l d \/ R x (last l d).
Proof.
  induction l as [|y l IH]; intros d x Hs Hin; [destruct Hin|].
  inversion Hs as [|? ? Hs' Hy]; subst.
  destruct l as [|z l].
  - destruct Hin as [<-|[]]. now left.
  - change (last (y :: z :: l) d) with (last (z :: l) d).
    destruct Hin as [<-|Hin].
    + right. rewrite Forall_forall in Hy. apply Hy.
      apply last_In. discriminate.
    + now apply IH.
Qed.

(** The partition of a sorted, properly nested chain of ranges. *)
Lemma partition_of_chain first rest :
  let entries := first :: rest in
  Forall proper entries ->
  StronglySorted (key_lt originalMin) entries ->
  StronglySorted (key_le originalMax) entries ->
  ascending_by_start (partition entries)
  /\ non_overlapping (partition entries).
Proof.
  intros entries Hp Hmin Hmax.
  destruct (@partition_from_ordered entries (originalMin first) Hp Hmin Hmax)
    as [Hsorted Hwf].
  { inversion Hp as [|? ? Hc _]; subst.
    destruct (proper_Fin Hc) as (a & b & Ea & Eb & Hab).
    exists a, a, b. repeat split; try assumption.
    now apply Midpoint.first_invariant. }
  assert (Hss : StronglySorted lt_start (partition entries)).
  { apply Sorted_StronglySorted; [apply lt_start_transitive|exact Hsorted]. }
  split; [exact Hss|]. split; [|exact Hwf].
  apply ordered_segments_apart; [exact Hss| |exact Hwf].
  apply partition_contiguous.
Qed.

(** What the sort makes of triples that are proper, begin at distinct
    times and are not nested. *)
Lemma sorted_chain entries :
  Forall proper entries -> distinct_mins entries -> unnested entries ->
  let sorted := array_sort byOriginalMin entries in
  Permutation sorted entries
  /\ Forall proper sorted
  /\ StronglySorted (key_lt originalMin) sorted
  /\ StronglySorted (key_le originalMax) sorted.
Proof.
  intros Hp Hd Hn sorted.
  assert (Hperm : Permutation sorted entries)
    by apply (array_sort_perm originalMin).
  assert (Hdef : Forall (key_defined originalMin) entries).
  { eapply Forall_impl; [|exact Hp]. intros e (Hf & _) E.
    rewrite E in Hf. exact Hf. }
  assert (Hlt : StronglySorted (key_lt originalMin) sorted).
  { apply sorted_distinct_strict.
    - now apply (@array_sort_sorted _ originalMin).
    - eapply Permutation_NoDup; [|exact Hd].
      apply Permutation_map. now symmetry. }
  repeat split; try assumption.
  - now rewrite Hperm.
  - eapply StronglySorted_impl_in; [|exact Hlt].
    intros a b Ia Ib. apply Hn; eapply Permutation_in; eassumption.
Qed.

Lemma covers_partition_from entries start first rest :
  least_min entries start ->
  greatest_max entries (originalMax (last (first :: rest) first)) ->
  covers entries (partition_from start (first :: rest)).
Proof.
  intros Hmin Hmax.
  assert (Hlast : forall s0,
    seg_end (last (partition_from start (first :: rest)) s0)
    = originalMax (last (first :: rest) first))
    by (intro; apply partition_from_last_end; discriminate).
  assert (Hc := partition_from_contiguous (first :: rest) start).
  cbn [partition_from] in *. cbn [covers seg_start].
  split; [exact Hmin|]. split; [|exact Hc].
  rewrite Hlast. exact Hmax.
Qed.

Lemma reconciled_valid entries :
  Forall proper entries -> distinct_mins entries -> unnested entries ->
  valid_partition entries (partition (array_sort byOriginalMin entries)).
Proof.
  intros Hp Hd Hn.
  destruct (sorted_chain Hp Hd Hn) as (Hperm & Hps & Hlt & Hle).
  destruct (array_sort byOriginalMin entries) as [|first rest] eqn:Es.
  - apply Permutation_nil in Hperm. subst. repeat split; constructor.
  - destruct (partition_of_chain Hps Hlt Hle) as [Hasc Hno].
    split; [exact Hasc|]. split; [exact Hno|].
    cbn [partition]. apply covers_partition_from; split.
    + exists first. split; [|reflexivity].
      eapply Permutation_in; [exact Hperm|now left].
    + intros e He.
      apply (Permutation_in _ (Permutation_sym Hperm)) in He.
      destruct He as [<-|He].
      * inversion Hps as [|? ? (_ & _ & Hc) _]; subst.
        eapply le_refl_left; exact Hc.
      * inversion Hlt as [|? ? _ Hall]; subst.
        rewrite Forall_forall in Hall. apply NumFacts.lt_le. now apply Hall.
    + exists (last (first :: rest) first). split; [|reflexivity].
      eapply Permutation_in; [exact Hperm|].
      apply last_In. discriminate.
    + intros e He.
      apply (Permutation_in _ (Permutation_sym Hperm)) in He.
      destruct (StronglySorted_last first e Hle He) as [->|H]; [|exact H].
      rewrite Forall_forall in Hps.
      destruct (Hps (last (first :: rest) first)) as (_ & _ & Hc).
      { apply last_In. discriminate. }
      eapply le_refl_right; exact Hc.
Qed.

(** * The claims about the interval reconciler *)

(** C1, as stated, fails: for the pages A = [0, 10], B = [1, 2] and
    C = [3, 4] the page reconciler returns A = [0, 5.5], B = [5.5, 2.5]
    and C = [2.5, 4], which is neither ascending by start nor free of
    overlap, and stops at 4 although 10 was observed. *)
Lemma nested_ranges_not_partitioned :
  exists segs,
    orderCanvasMapping nested_pages = Ok segs
    /\ ~ valid_partition (canvas_entries nested_pages) segs.
Proof.
  eexists. split; [vm_compute; reflexivity|].
  intros [Hasc _]. unfold ascending_by_start in Hasc.
  inversion Hasc as [|? ? Hrest _]; subst.
  inversion Hrest as [|? ? _ Hlt]; subst.
  inversion Hlt as [|? ? H _]; subst.
  vm_compute in H. discriminate H.
Qed.

Lemma array_sort_nonempty {A} (comparefn : A -> A -> number) l :
  l <> [] -> exists first rest, array_sort comparefn l = first :: rest.
Proof.
  intros Hne.
  destruct (array_sort comparefn l) as [|first rest] eqn:E; [|eauto].
  destruct l as [|x l]; [congruence|].
  change (sort_insert comparefn x (array_sort comparefn l) = []) in E.
  destruct (array_sort comparefn l) as [|y l']; cbn [sort_insert] in E;
    [discriminate|].
  destruct (Num.ltb Num.zero (comparefn x y)); discriminate.
Qed.

Lemma reconciled_contiguous entries :
  entries <> [] ->
  exists first rest,
    array_sort byOriginalMin entries = first :: rest
    /\ contiguous (partition (array_sort byOriginalMin entries))
    /\ option_map seg_start
         (hd_error (partition (array_sort byOriginalMin entries)))
       = Some (originalMin first).
Proof.
  intros Hne.
  destruct (array_sort_nonempty byOriginalMin Hne) as (first & rest & E).
  exists first, rest. split; [exact E|]. split.
  - apply partition_contiguous.
  - rewrite E. reflexivity.
Qed.

(** C3: on the accumulator {A: {min: 0.37, max: 63.1},
    B: {min: 64.15, max: 144.38}} the page reconciler returns
    [{A, 0.37, 63.625}, {B, 63.625, 144.38}], and 63.625 is
    (63.1 + 64.15) / 2. *)
Theorem scenario_page_partition :
  orderCanvasMapping scenario_pages
  = Ok [ {| seg_id := "A"; seg_start := Num.decimal 37 2;
            seg_end := Num.decimal 63625 3 |};
         {| seg_id := "B"; seg_start := Num.decimal 63625 3;
            seg_end := Num.decimal 14438 2 |} ]
  /\ Num.div (Num.add (Num.decimal 631 1) (Num.decimal 6415 2)) Num.two
     = Num.decimal 63625 3.
Proof. split; num_eq. Qed.

(** The same midpoint in IEEE double arithmetic: the sum 63.1 + 64.15 and
    its half are computed without a rounding error that would show. *)
Lemma scenario_midpoint_in_doubles :
  Binary64.div
    (Binary64.add (Binary64.decimal 631 1) (Binary64.decimal 6415 2))
    (Binary64.decimal 2 0)
  = Binary64.decimal 63625 3.
Proof. vm_compute. reflexivity. Qed.

(** C4, as stated, fails: the pages A = [0, 10] and B = [0, 20] begin
    together, the stable sort keeps them in the order of the mapping, and
    the two orders give A = [0, 5], B = [5, 20] and B = [0, 10],
    A = [10, 10]. *)
Lemma tied_ranges_depend_on_order :
  Permutation tied_pages tied_pages_reordered
  /\ sorted_by_key (orderCanvasMapping tied_pages)
     <> sorted_by_key (orderCanvasMapping tied_pages_reordered).
Proof.
  split; [apply perm_swap|].
  intro H.
  apply (f_equal (fun r => match r with
                           | Ok (s :: _) => Num.ltb (seg_end s) (Num.of_Z 7)
                           | _ => false
                           end)) in H.
  vm_compute in H. discriminate H.
Qed.

(** C4 (amended): for every set of triples whose observedMin values are
    pairwise distinct and none [NaN], and every re-ordering of it, each
    reconciler returns the same segment sequence for both, hence the same
    segments once sorted by key. *)
Theorem reconciler_order_independent entries entries' :
  Permutation entries entries' ->
  distinct_mins entries ->
  Forall (key_defined originalMin) entries ->
  (forall canvasMinMax canvasMinMax',
     canvas_entries canvasMinMax = entries ->
     canvas_entries canvasMinMax' = entries' ->
     orderCanvasMapping canvasMinMax = orderCanvasMapping canvasMinMax'
     /\ sorted_by_key (orderCanvasMapping canvasMinMax)
        = sorted_by_key (orderCanvasMapping canvasMinMax'))
  /\ (forall annotation annotation',
     note_triples annotation = entries ->
     note_triples annotation' = entries' ->
     orderAnnotationMapping annotation = orderAnnotationMapping annotation'
     /\ sorted_by_key (orderAnnotationMapping annotation)
        = sorted_by_key (orderAnnotationMapping annotation')).
Proof.
  intros Hp Hd Hdef.
  assert (E : array_sort byOriginalMin entries
              = array_sort byOriginalMin entries')
    by now apply (@array_sort_permutation _ originalMin).
  split.
  - intros c c' <- <-.
    assert (orderCanvasMapping c = orderCanvasMapping c') as ->
      by (rewrite !orderCanvasMapping_partition; now rewrite E).
    now split.
  - intros a a' <- <-.
    assert (orderAnnotationMapping a = orderAnnotationMapping a') as ->
      by (rewrite !orderAnnotationMapping_partition; now rewrite E).
    now split.
Qed.

Lemma reconciler_order_independent_witness :
  orderCanvasMapping overlapping_pages
  = orderCanvasMapping (rev overlapping_pages)
  /\ sorted_by_key (orderCanvasMapping overlapping_pages)
     = sorted_by_key (orderCanvasMapping (rev overlapping_pages)).
Proof.
  refine (proj1 (@reconciler_order_independent
                   (canvas_entries overlapping_pages)
                   (canvas_entries (rev overlapping_pages)) _ _ _)
                overlapping_pages (rev overlapping_pages) eq_refl eq_refl).
  - apply Permutation_map. apply Permutation_rev.
  - repeat constructor; cbn; intros H;
      repeat (destruct H as [H|H]; [discriminate H|]); exact H.
  - repeat constructor; discriminate.
Defined.

(** * The matcher *)

Section MatcherFacts.
Context {X R : Type}.

Lemma match_digits_ext inp (k k' : list ascii -> option R) :
  (forall rest, k rest = k' rest) ->
  match_digits inp k = match_digits inp k'.
Proof.
  intros E. induction inp as [|c inp IH]; [reflexivity|].
  cbn [match_digits]. now rewrite IH, E.
Qed.

Lemma rmatch_ext r : forall inp caps
    (k k' : list ascii -> captures -> option R),
  (forall rest c, k rest c = k' rest c) ->
  rmatch r inp caps k = rmatch r inp caps k'.
Proof.
  induction r as [s| |r IH|r1 IH1 r2 IH2|n r IH]; intros inp caps k k' E;
    cbn [rmatch].
  - destruct (strip_prefix (chars s) inp); [apply E|reflexivity].
  - apply match_digits_ext. intros rest. apply E.
  - now rewrite (IH inp caps k k' E), E.
  - apply IH1. intros rest c. now apply IH2.
  - apply IH. intros rest c. apply E.
Qed.

(** A continuation that cannot fail does not change which way the
    matcher goes. *)
Lemma match_digits_bind inp (j1 : list ascii -> option X)
    (j : X -> option R) :
  (forall x, j x <> None) ->
  match_digits inp (fun rest => obind (j1 rest) j)
  = obind (match_digits inp j1) j.
Proof.
  intros Hj. induction inp as [|c inp IH]; [reflexivity|].
  cbn [match_digits]. destruct (is_digit c); [|reflexivity].
  rewrite IH. destruct (match_digits inp j1) as [x|]; [|reflexivity].
  cbn [obind]. destruct (j x) eqn:E; [reflexivity|].
  now destruct (Hj x).
Qed.

Lemma rmatch_bind r : forall inp caps
    (j1 : list ascii -> captures -> option X) (j : X -> option R),
  (forall x, j x <> None) ->
  rmatch r inp caps (fun rest c => obind (j1 rest c) j)
  = obind (rmatch r inp caps j1) j.
Proof.
  induction r as [s| |r IH|r1 IH1 r2 IH2|n r IH]; intros inp caps j1 j Hj;
    cbn [rmatch].
  - destruct (strip_prefix (chars s) inp); reflexivity.
  - now apply (match_digits_bind inp (fun rest => j1 rest caps)).
  - rewrite IH by assumption.
    destruct (rmatch r inp caps j1) as [x|]; [|reflexivity].
    cbn [obind]. destruct (j x) eqn:E; [reflexivity|].
    now destruct (Hj x).
  - rewrite <- IH1 by assumption. apply rmatch_ext.
    intros rest c. now apply IH2.
  - now apply (IH inp caps
                 (fun rest c => j1 rest (capture n (consumed inp rest) c))).
Qed.
End MatcherFacts.

(** With a continuation that cannot fail, the matcher takes its first
    match. *)
Lemma rmatch_first {R} r inp caps (k : list ascii -> captures -> option R) :
  (forall rest c, k rest c <> None) ->
  rmatch r inp caps k
  = obind (first_match r inp caps) (fun '(rest, c) => k rest c).
Proof.
  intros Hk. unfold first_match.
  rewrite <- (@rmatch_bind _ R r inp caps
                (fun rest c => Some (rest, c)) (fun '(rest, c) => k rest c)).
  - reflexivity.
  - intros [rest c]. apply Hk.
Qed.

Lemma first_match_Seq r1 r2 inp caps :
  never_fails r2 ->
  first_match (Seq r1 r2) inp caps
  = obind (first_match r1 inp caps)
      (fun '(rest, c) => first_match r2 rest c).
Proof.
  intros H. unfold first_match at 1. cbn [rmatch].
  now rewrite rmatch_first by (intros; apply H).
Qed.

Lemma first_match_Group n r inp caps :
  first_match (Group n r) inp caps
  = obind (first_match r inp caps)
      (fun '(rest, c) => Some (rest, capture n (consumed inp rest) c)).
Proof.
  unfold first_match at 1. cbn [rmatch].
  now rewrite rmatch_first by discriminate.
Qed.

Lemma first_match_Opt r inp caps :
  first_match (Opt r) inp caps
  = match first_match r inp caps with
    | Some x => Some x
    | None => Some (inp, caps)
    end.
Proof. reflexivity. Qed.

Lemma first_match_Lit s inp caps :
  first_match (Lit s) inp caps
  = match strip_prefix (chars s) inp with
    | Some rest => Some (rest, caps)
    | None => None
    end.
Proof. reflexivity. Qed.

Lemma never_fails_Opt r : never_fails (Opt r).
Proof.
  intros inp caps. rewrite first_match_Opt.
  destruct (first_match r inp caps); discriminate.
Qed.

Lemma never_fails_Seq r1 r2 :
  never_fails r1 -> never_fails r2 -> never_fails (Seq r1 r2).
Proof.
  intros H1 H2 inp caps. rewrite first_match_Seq by assumption.
  destruct (first_match r1 inp caps) as [[rest c]|] eqn:E.
  - apply H2.
  - now destruct (H1 inp caps).
Qed.

Lemma span_digits_none inp rest :
  span_digits inp = ([], rest) -> rest = inp.
Proof.
  destruct inp as [|c inp]; cbn [span_digits].
  - now intros [= <-].
  - destruct (is_digit c); [|now intros [= <-]].
    destruct (span_digits inp). discriminate.
Qed.

Lemma first_match_Digits inp caps :
  first_match Digits inp caps
  = match span_digits inp with
    | ([], _) => None
    | (_, rest) => Some (rest, caps)
    end.
Proof.
  unfold first_match. cbn [rmatch].
  induction inp as [|c inp IH]; [reflexivity|].
  cbn [match_digits span_digits]. destruct (is_digit c); [|reflexivity].
  rewrite IH. destruct (span_digits inp) as [[|d ds] rest] eqn:E.
  - now rewrite (span_digits_none _ E).
  - reflexivity.
Qed.

(** ** The temporal pattern *)

Lemma first_match_fraction f r caps :
  first_match (Opt (Group f (Seq (Lit ".") Digits))) r caps
  = match strip_prefix (chars ".") r with
    | Some r' =>
        match span_digits r' with
        | ([], _) => Some (r, caps)
        | (_, r'') => Some (r'', capture f (consumed r r'') caps)
        end
    | None => Some (r, caps)
    end.
Proof.
  rewrite first_match_Opt, first_match_Group.
  change (first_match (Seq (Lit ".") Digits) r caps)
    with (match strip_prefix (chars ".") r with
          | Some r' => first_match Digits r' caps
          | None => None
          end).
  destruct (strip_prefix (chars ".") r) as [r'|]; [|reflexivity].
  rewrite first_match_Digits.
  destruct (span_digits r') as [[|d ds] r'']; reflexivity.
Qed.

(** [seconds w f] consumes what [scan_seconds] passes over, records it as
    group [w] and touches no group but [w] and [f]. *)
Lemma first_match_seconds w f inp caps :
  w <> f ->
  match scan_seconds inp with
  | None => first_match (seconds w f) inp caps = None
  | Some rest =>
      exists caps',
        first_match (seconds w f) inp caps = Some (rest, caps')
        /\ caps' w = Some (consumed inp rest)
        /\ forall n, n <> w -> n <> f -> caps' n = caps n
  end.
Proof.
  intros Hwf. unfold seconds, scan_seconds.
  rewrite first_match_Group, first_match_Seq by apply never_fails_Opt.
  rewrite first_match_Digits.
  destruct (span_digits inp) as [[|d ds] r]; [reflexivity|].
  cbn [obind]. rewrite first_match_fraction.
  assert (Hw : forall rest c,
    capture w (consumed inp rest) c w = Some (consumed inp rest))
    by (intros; unfold capture; now rewrite Nat.eqb_refl).
  assert (Hn : forall v c n, n <> w -> capture w v c n = c n).
  { intros v c n H. unfold capture.
    now destruct (Nat.eqb_spec n w). }
  destruct (strip_prefix (chars ".") r) as [r'|].
  - destruct (span_digits r') as [[|d' ds'] r'']; cbn [obind];
      eexists; (split; [reflexivity|]); (split; [apply Hw|]);
      intros n H1 H2; rewrite Hn by assumption; [reflexivity|].
    unfold capture. now destruct (Nat.eqb_spec n f).
  - cbn [obind]. eexists. split; [reflexivity|]. split; [apply Hw|].
    intros n H1 H2. now rewrite Hn.
Qed.

Lemma never_fails_rest : never_fails TEMPORAL_REST.
Proof.
  repeat apply never_fails_Seq; apply never_fails_Opt.
Qed.

Lemma capture_other n v c m : m <> n -> capture n v c m = c m.
Proof. intros H. unfold capture. now destruct (Nat.eqb_spec m n). Qed.

Lemma capture_same n v c : capture n v c n = Some v.
Proof. unfold capture. now rewrite Nat.eqb_refl. Qed.

Lemma first_match_npt post caps :
  exists c1,
    first_match (Opt (Group 2 (Lit "npt:"))) post caps
    = Some (skip_npt post, c1)
    /\ forall n, n <> 2 -> c1 n = caps n.
Proof.
  rewrite first_match_Opt, first_match_Group, first_match_Lit.
  unfold skip_npt.
  destruct (strip_prefix (chars "npt:") post); cbn [obind]; eexists;
    (split; [reflexivity|]); intros n H; [|reflexivity].
  now apply capture_other.
Qed.

Lemma first_match_start p1 c1 :
  exists c2,
    first_match (Opt (seconds 3 4)) p1 c1
    = Some (match scan_seconds p1 with Some p2 => p2 | None => p1 end, c2)
    /\ c2 3 = match scan_seconds p1 with
              | Some p2 => Some (consumed p1 p2)
              | None => c1 3
              end
    /\ c2 6 = c1 6.
Proof.
  rewrite first_match_Opt.
  pose proof (@first_match_seconds 3 4 p1 c1) as H.
  destruct (scan_seconds p1) as [p2|].
  - destruct H as (c2 & -> & Hw & Hn); [discriminate|].
    exists c2. split; [reflexivity|]. split; [exact Hw|].
    apply Hn; discriminate.
  - rewrite H by discriminate. exists c1. now repeat split.
Qed.

Lemma first_match_end p2 c2 :
  exists rest c3,
    first_match (Opt (Group 5 (Seq (Lit ",") (seconds 6 7)))) p2 c2
    = Some (rest, c3)
    /\ c3 3 = c2 3
    /\ c3 6 = match strip_prefix (chars ",") p2 with
              | Some q =>
                  match scan_seconds q with
                  | Some p3 => Some (consumed q p3)
                  | None => c2 6
                  end
              | None => c2 6
              end.
Proof.
  rewrite first_match_Opt, first_match_Group.
  change (first_match (Seq (Lit ",") (seconds 6 7)) p2 c2)
    with (match strip_prefix (chars ",") p2 with
          | Some q => first_match (seconds 6 7) q c2
          | None => None
          end).
  destruct (strip_prefix (chars ",") p2) as [q|].
  - pose proof (@first_match_seconds 6 7 q c2) as H.
    destruct (scan_seconds q) as [p3|].
    + destruct H as (c3 & -> & Hw & Hn); [discriminate|].
      cbn [obind]. do 2 eexists. split; [reflexivity|].
      rewrite !capture_other by discriminate. split; [|exact Hw].
      apply Hn; discriminate.
    + rewrite H by discriminate. cbn [obind].
      do 2 eexists. now repeat split.
  - cbn [obind]. do 2 eexists. now repeat split.
Qed.

(** Groups 3 and 6 after "t=" are those [temporal_groups] reads. *)
Lemma first_match_rest post caps :
  caps 3 = None -> caps 6 = None ->
  exists rest caps',
    first_match TEMPORAL_REST post caps = Some (rest, caps')
    /\ (caps' 3, caps' 6) = temporal_groups post.
Proof.
  intros H3 H6. unfold TEMPORAL_REST, temporal_groups.
  rewrite first_match_Seq
    by (apply never_fails_Seq; apply never_fails_Opt).
  destruct (first_match_npt post caps) as (c1 & -> & H1). cbn [obind].
  rewrite first_match_Seq by apply never_fails_Opt.
  destruct (first_match_start (skip_npt post) c1) as (c2 & -> & H23 & H26).
  cbn [obind].
  destruct (first_match_end
              (match scan_seconds (skip_npt post) with
               | Some p2 => p2
               | None => skip_npt post
               end) c2) as (rest & c3 & -> & H33 & H36).
  exists rest, c3. split; [reflexivity|].
  rewrite H33, H36, H23, H26, !H1, H3, H6 by discriminate.
  destruct (scan_seconds (skip_npt post)) as [p2|].
  - destruct (strip_prefix (chars ",") p2) as [q|]; [|reflexivity].
    now destruct (scan_seconds q).
  - destruct (strip_prefix (chars ",") (skip_npt post)) as [q|];
      [|reflexivity].
    now destruct (scan_seconds q).
Qed.

Lemma strip_prefix_one a c inp inp' :
  strip_prefix [a] (c :: inp) = Some inp' -> inp' = inp.
Proof.
  cbn [strip_prefix]. destruct (Ascii.eqb a c); now intros [= <-].
Qed.

Lemma chars_app (a b : string) : chars (a ++ b) = (chars a ++ chars b)%list.
Proof.
  unfold chars. induction a as [|c a IH]; [reflexivity|].
  cbn. now rewrite IH.
Qed.

Lemma first_match_temporal inp caps :
  first_match TEMPORAL_SELECTOR inp caps
  = match
      match strip_prefix (chars "&") inp with
      | Some inp' => first_match TEMPORAL_TAIL inp' caps
      | None => None
      end
    with
    | Some x => Some x
    | None => first_match TEMPORAL_TAIL inp caps
    end.
Proof. reflexivity. Qed.

Lemma first_match_tail inp caps :
  first_match TEMPORAL_TAIL inp caps
  = match strip_prefix (chars "t=") inp with
    | Some post =>
        first_match TEMPORAL_REST post (capture 1 (consumed inp post) caps)
    | None => None
    end.
Proof. reflexivity. Qed.

Lemma exec_unfold r inp :
  exec r inp
  = match
      obind (first_match r inp no_captures)
        (fun '(rest, caps) => Some (capture 0 (consumed inp rest) caps))
    with
    | Some m => Some m
    | None =>
        match inp with
        | [] => None
        | _ :: inp' => exec r inp'
        end
    end.
Proof.
  destruct inp; cbn [exec]; now rewrite rmatch_first by discriminate.
Qed.

Lemma includes_chars_false needle s :
  includes_chars needle s = false ->
  strip_prefix needle s = None
  /\ match s with
     | [] => True
     | _ :: s' => includes_chars needle s' = false
     end.
Proof.
  destruct s as [|c s]; cbn [includes_chars];
    destruct (strip_prefix needle _); try discriminate; now split.
Qed.

(** Where "t=" does not occur, the pattern matches nowhere. *)
Lemma exec_temporal_none inp :
  includes_chars (chars "t=") inp = false ->
  exec TEMPORAL_SELECTOR inp = None.
Proof.
  induction inp as [|c inp IH]; intros H;
    destruct (includes_chars_false _ _ H) as [Hhere Hnext];
    rewrite exec_unfold, first_match_temporal, !first_match_tail, Hhere.
  - reflexivity.
  - rewrite (IH Hnext).
    destruct (strip_prefix (chars "&") (c :: inp)) as [inp'|] eqn:E;
      [|reflexivity].
    assert (inp' = inp) as ->.
    { now apply strip_prefix_one in E. }
    rewrite first_match_tail.
    destruct (includes_chars_false _ _ Hnext) as [-> _]. reflexivity.
Qed.

Lemma match_at_t post caps :
  caps 3 = None -> caps 6 = None ->
  exists rest caps',
    first_match TEMPORAL_TAIL (chars "t=" ++ post) caps = Some (rest, caps')
    /\ (caps' 3, caps' 6) = temporal_groups post.
Proof.
  intros H3 H6. rewrite first_match_tail.
  change (strip_prefix (chars "t=") (chars "t=" ++ post)) with (Some post).
  apply first_match_rest; now rewrite capture_other by discriminate.
Qed.

Lemma strip_t_before pre post :
  pre <> [] -> strip_prefix (chars "t=") pre = None ->
  strip_prefix (chars "t=") (pre ++ chars "t=" ++ post) = None.
Proof.
  intros Hne H. destruct pre as [|c pre]; [congruence|].
  change (chars "t=") with ["t"; "="]%char in *.
  cbn [strip_prefix app] in *. destruct (Ascii.eqb "t" c); [|reflexivity].
  destruct pre as [|d pre]; [reflexivity|].
  cbn [strip_prefix app] in *. now destruct (Ascii.eqb "=" d).
Qed.

(** The pattern matches at the first "t=" (or at an "&" just before it),
    and groups 3 and 6 are read from what follows that "t=". *)
Lemma exec_temporal_first post : forall pre,
  includes_chars (chars "t=") pre = false ->
  exists m,
    exec TEMPORAL_SELECTOR (pre ++ chars "t=" ++ post) = Some m
    /\ (m 3, m 6) = temporal_groups post.
Proof.
  assert (Hhere : forall inp rest caps',
    first_match TEMPORAL_SELECTOR inp no_captures = Some (rest, caps') ->
    (caps' 3, caps' 6) = temporal_groups post ->
    exists m, exec TEMPORAL_SELECTOR inp = Some m
              /\ (m 3, m 6) = temporal_groups post).
  { intros inp rest caps' E G. rewrite exec_unfold, E. cbn [obind].
    eexists. split; [reflexivity|].
    now rewrite !capture_other by discriminate. }
  induction pre as [|c pre IH]; intros H.
  - destruct (@match_at_t post no_captures eq_refl eq_refl)
      as (rest & caps' & E & G).
    apply (Hhere _ rest caps'); [|exact G].
    rewrite first_match_temporal. exact E.
  - destruct (includes_chars_false _ _ H) as [Hc Hnext].
    specialize (IH Hnext).
    assert (Htail : first_match TEMPORAL_TAIL
                      ((c :: pre) ++ chars "t=" ++ post) no_captures = None).
    { rewrite first_match_tail, strip_t_before; [reflexivity| |exact Hc].
      discriminate. }
    destruct (strip_prefix (chars "&") ((c :: pre) ++ chars "t=" ++ post))
      as [inp'|] eqn:E.
    + assert (inp' = (pre ++ chars "t=" ++ post)%list) as ->.
      { now apply strip_prefix_one in E. }
      destruct pre as [|d pre].
      * destruct (@match_at_t post no_captures eq_refl eq_refl)
          as (rest & caps' & E' & G).
        apply (Hhere _ rest caps'); [|exact G].
        rewrite first_match_temporal, E. cbn [app]. now rewrite E'.
      * rewrite exec_unfold, first_match_temporal, E, Htail.
        rewrite first_match_tail, strip_t_before;
          [exact IH|discriminate|].
        now destruct (includes_chars_false _ _ Hnext).
    + rewrite exec_unfold, first_match_temporal, E, Htail. exact IH.
Qed.

(** [getTime] in terms of the direct reading of the pattern. *)
Lemma getTime_unmatched frag :
  includes "t=" frag = false ->
  getTime frag = {| start := Num.zero; end_ := Num.zero |}.
Proof.
  intros H. unfold getTime, string_match.
  now rewrite exec_temporal_none.
Qed.

Lemma getTime_first pre post :
  includes "t=" pre = false ->
  getTime (pre ++ "t=" ++ post)
  = {| start := parseFloat (fst (temporal_groups (chars post)));
       end_ := parseFloat (snd (temporal_groups (chars post))) |}.
Proof.
  intros H. unfold getTime, string_match. rewrite !chars_app.
  destruct (@exec_temporal_first (chars post) (chars pre) H)
    as (m & -> & G).
  now rewrite <- G.
Qed.

(** ** Substrings *)

Lemma strip_prefix_app p : forall s rest,
  strip_prefix p s = Some rest <-> s = (p ++ rest)%list.
Proof.
  induction p as [|a p IH]; intros s rest; cbn [strip_prefix app].
  - split; [now intros [= ->]|now intros ->].
  - destruct s as [|b s]; [split; discriminate|].
    destruct (Ascii.eqb_spec a b) as [->|N].
    + rewrite IH. split; [now intros ->|now intros [= ->]].
    + split; [discriminate|]. intros [= E _]. now destruct N.
Qed.

Lemma includes_chars_iff needle s :
  includes_chars needle s = true
  <-> exists pre post, s = (pre ++ needle ++ post)%list.
Proof.
  induction s as [|c s IH]; cbn [includes_chars].
  - destruct (strip_prefix needle []) as [rest|] eqn:E.
    + split; [intros _|reflexivity]. apply strip_prefix_app in E.
      now exists [], rest.
    + split; [discriminate|]. intros (pre & post & H).
      destruct pre; [|discriminate].
      apply (strip_prefix_app needle [] post) in H. congruence.
  - destruct (strip_prefix needle (c :: s)) as [rest|] eqn:E.
    + split; [intros _|reflexivity]. apply strip_prefix_app in E.
      now exists [], rest.
    + rewrite IH. split.
      * intros (pre & post & ->). now exists (c :: pre), post.
      * intros (pre & post & H). destruct pre as [|d pre].
        -- apply (strip_prefix_app needle (c :: s) post) in H. congruence.
        -- injection H as _ ->. now exists pre, post.
Qed.

Lemma text_chars s : text (chars s) = s.
Proof. apply string_of_list_ascii_of_string. Qed.

Lemma chars_text l : chars (text l) = l.
Proof. apply list_ascii_of_string_of_list_ascii. Qed.

(** [includes needle s] holds exactly when [needle] is a substring of
    [s]. *)
Lemma includes_iff needle s :
  includes needle s = true
  <-> exists pre post, s = (pre ++ needle ++ post)%string.
Proof.
  unfold includes. rewrite includes_chars_iff. split.
  - intros (pre & post & H). exists (text pre), (text post).
    rewrite <- (text_chars s), H.
    rewrite <- (text_chars (text pre ++ needle ++ text post)).
    now rewrite !chars_app, !chars_text.
  - intros (pre & post & ->). exists (chars pre), (chars post).
    now rewrite !chars_app.
Qed.

(** ** Reading the groups on particular shapes *)

Lemma consumed_all inp : consumed inp [] = text inp.
Proof.
  unfold consumed. cbn [List.length]. now rewrite Nat.sub_0_r, firstn_all.
Qed.

Lemma scan_seconds_no_digit l :
  begins_with_digit l = false -> scan_seconds l = None.
Proof.
  unfold scan_seconds. destruct l as [|c l]; [reflexivity|].
  cbn [begins_with_digit span_digits]. now intros ->.
Qed.

Lemma scan_seconds_digit l rest :
  scan_seconds l = Some rest -> begins_with_digit l = true.
Proof.
  destruct (begins_with_digit l) eqn:E; [reflexivity|].
  now rewrite scan_seconds_no_digit.
Qed.

Lemma digit_not c d : is_digit c = true -> is_digit d = false ->
  Ascii.eqb d c = false.
Proof.
  intros Hc Hd. destruct (Ascii.eqb_spec d c); [congruence|reflexivity].
Qed.

Lemma strip_prefix_digit d p l :
  is_digit d = false -> begins_with_digit l = true ->
  strip_prefix (d :: p) l = None.
Proof.
  destruct l as [|c l]; [discriminate|]. cbn [begins_with_digit strip_prefix].
  intros Hd Hc. now rewrite (digit_not _ _ Hc Hd).
Qed.

Lemma temporal_groups_start a :
  scan_seconds a = Some [] ->
  temporal_groups a = (Some (text a), None).
Proof.
  intros H. pose proof (scan_seconds_digit _ H) as Hd.
  unfold temporal_groups, skip_npt. cbv zeta.
  change (chars "npt:") with ["n"; "p"; "t"; ":"]%char.
  rewrite strip_prefix_digit by (reflexivity || assumption).
  rewrite H, consumed_all. reflexivity.
Qed.

Lemma temporal_groups_end a :
  scan_seconds a = Some [] ->
  temporal_groups (chars "," ++ a) = (None, Some (text a)).
Proof.
  intros H.
  assert (E1 : skip_npt (chars "," ++ a) = (chars "," ++ a)%list)
    by reflexivity.
  assert (E2 : scan_seconds (chars "," ++ a) = None) by reflexivity.
  assert (E3 : strip_prefix (chars ",") (chars "," ++ a) = Some a)
    by reflexivity.
  unfold temporal_groups. cbv zeta.
  rewrite E1, E2, E3, H, consumed_all. reflexivity.
Qed.

Lemma temporal_groups_no_start post :
  begins_with_digit (skip_npt post) = false ->
  fst (temporal_groups post) = None
  /\ (begins_with_comma_digit (skip_npt post) = false ->
      snd (temporal_groups post) = None).
Proof.
  intros H. unfold temporal_groups, begins_with_comma_digit. cbv zeta.
  rewrite (scan_seconds_no_digit _ H). cbn [fst snd]. split; [reflexivity|].
  destruct (strip_prefix (chars ",") (skip_npt post)) as [q|]; [|reflexivity].
  intros Hq. now rewrite (scan_seconds_no_digit _ Hq).
Qed.

(** [parseFloat] on text that begins with a digit. *)
Lemma scale10_finite m e : Num.isNaN (scale10 m e) = false.
Proof. now destruct e. Qed.

Lemma digit_is_not c d : is_digit c = true -> is_digit d = false ->
  Ascii.eqb c d = false.
Proof.
  intros Hc Hd. destruct (Ascii.eqb_spec c d); [congruence|reflexivity].
Qed.

Lemma scan_decimal_digit l :
  begins_with_digit l = true ->
  exists x rest, scan_decimal l = Some (x, rest) /\ Num.isNaN x = false.
Proof.
  destruct l as [|c l]; [discriminate|]. cbn [begins_with_digit]. intros Hc.
  unfold scan_decimal.
  rewrite !(digit_is_not _ _ Hc) by reflexivity.
  change (chars "Infinity") with ["I"; "n"; "f"; "i"; "n"; "i"; "t"; "y"]%char.
  rewrite strip_prefix_digit by (reflexivity || assumption).
  cbn [span_digits]. rewrite Hc.
  destruct (span_digits l) as [ds s2].
  match goal with
  | |- context [let '(fp, s3) := ?scan in _] => destruct scan as [fp s3]
  end.
  destruct (scan_exponent s3) as [e s4].
  do 2 eexists. split; [reflexivity|]. apply scale10_finite.
Qed.

Lemma parseFloat_digit a :
  begins_with_digit (chars a) = true ->
  Num.isNaN (parseFloat (Some a)) = false.
Proof.
  intros H. unfold parseFloat.
  assert (trim_start (chars a) = chars a) as ->.
  { destruct (chars a) as [|c l]; [reflexivity|].
    cbn [trim_start begins_with_digit] in *.
    destruct (is_space c) eqn:E; [|reflexivity].
    exfalso. revert H E. unfold is_digit, is_space.
    destruct (Nat.leb_spec 48 (nat_of_ascii c)); [|discriminate].
    intros _.
    destruct (Nat.leb_spec (nat_of_ascii c) 13); [lia|].
    rewrite andb_false_r. cbn [orb].
    destruct (Nat.eqb_spec (nat_of_ascii c) 32); [lia|discriminate]. }
  destruct (scan_decimal_digit _ H) as (x & rest & -> & Hx). exact Hx.
Qed.

(** * The claims about the fragment parsers *)

(** C6: for every string in which "t=" does not occur — the strings the
    temporal pattern does not match — [getTime] returns
    {start: 0, end: 0}; [getTime] is a total function, it has no way to
    throw. *)
Theorem getTime_unmatched_is_zero frag :
  includes "t=" frag = false ->
  string_match frag TEMPORAL_SELECTOR = None
  /\ getTime frag = {| start := Num.zero; end_ := Num.zero |}.
Proof.
  intros H. split; [|now apply getTime_unmatched].
  unfold string_match. now apply exec_temporal_none.
Qed.

Lemma getTime_unmatched_is_zero_witness :
  string_match "xywh=0,0,10,10" TEMPORAL_SELECTOR = None
  /\ getTime "xywh=0,0,10,10" = {| start := Num.zero; end_ := Num.zero |}.
Proof.
  apply getTime_unmatched_is_zero. reflexivity.
Defined.

(** C7, as stated, fails: "t=5" omits its end bound and [getTime]
    returns {start: 5, end: NaN}; the start is not [NaN]. *)
Lemma getTime_start_only_keeps_start :
  getTime "t=5" = {| start := Num.of_Z 5; end_ := NaN |}
  /\ getTime "t=5" <> {| start := NaN; end_ := NaN |}.
Proof.
  assert (E : getTime "t=5" = {| start := Num.of_Z 5; end_ := NaN |})
    by num_eq.
  split; [exact E|]. rewrite E. discriminate.
Qed.

(** C7 (amended): when a temporal fragment gives one bound only, the
    bound it omits is [NaN] and the bound it gives is parsed: for every
    literal [a] of the shape digits or digits.digits, "t=a" yields
    {start: a, end: NaN} and "t=,a" yields {start: NaN, end: a}, where the
    value of [a] is not [NaN]. *)
Theorem getTime_one_bound a :
  seconds_literal a = true ->
  getTime ("t=" ++ a) = {| start := parseFloat (Some a); end_ := NaN |}
  /\ getTime ("t=," ++ a) = {| start := NaN; end_ := parseFloat (Some a) |}
  /\ Num.isNaN (parseFloat (Some a)) = false.
Proof.
  unfold seconds_literal. intros H.
  destruct (scan_seconds (chars a)) as [[|c r]|] eqn:E; try discriminate.
  repeat split.
  - change ("t=" ++ a)%string with (EmptyString ++ "t=" ++ a)%string.
    rewrite getTime_first by reflexivity.
    now rewrite (temporal_groups_start _ E), text_chars.
  - change ("t=," ++ a)%string
      with (EmptyString ++ "t=" ++ ("," ++ a))%string.
    rewrite getTime_first by reflexivity.
    rewrite chars_app.
    now rewrite (temporal_groups_end _ E), text_chars.
  - apply parseFloat_digit. eapply scan_seconds_digit. exact E.
Qed.

Lemma getTime_one_bound_witness :
  getTime "t=4.852608"
  = {| start := parseFloat (Some "4.852608"); end_ := NaN |}
  /\ getTime "t=,4.852608"
     = {| start := NaN; end_ := parseFloat (Some "4.852608") |}
  /\ Num.isNaN (parseFloat (Some "4.852608")) = false.
Proof.
  apply (@getTime_one_bound "4.852608"). reflexivity.
Defined.

(** C8: "t=12.5,18.0" parses to {start: 12.5, end: 18.0}, and
    "((P10,20)(P10,40)(P30,40)(P30,20))" parses to
    [[10,20],[10,40],[30,40],[30,20]]. *)
Theorem fragments_parse :
  getTime "t=12.5,18.0"
  = {| start := Num.decimal 125 1; end_ := Num.decimal 180 1 |}
  /\ parseFragmentSelector "((P10,20)(P10,40)(P30,40)(P30,20))"
     = [ [Num.of_Z 10; Num.of_Z 20]; [Num.of_Z 10; Num.of_Z 40];
         [Num.of_Z 30; Num.of_Z 40]; [Num.of_Z 30; Num.of_Z 20] ].
Proof. split; num_eq. Qed.

(** C10, as stated, fails: "t=,5" contains "t=" with no digit after it
    and [getTime] returns {start: NaN, end: 5}; "t=5&t=" ends with such a
    "t=" and [getTime], which reads the first one, returns
    {start: 5, end: NaN}. *)
Lemma getTime_without_digits_not_all_NaN :
  (t_without_digits "t=,5"
   /\ getTime "t=,5" = {| start := NaN; end_ := Num.of_Z 5 |}
   /\ getTime "t=,5" <> {| start := NaN; end_ := NaN |})
  /\ (t_without_digits "t=5&t="
      /\ getTime "t=5&t=" = {| start := Num.of_Z 5; end_ := NaN |}
      /\ getTime "t=5&t=" <> {| start := NaN; end_ := NaN |}).
Proof.
  assert (E1 : getTime "t=,5" = {| start := NaN; end_ := Num.of_Z 5 |})
    by num_eq.
  assert (E2 : getTime "t=5&t=" = {| start := Num.of_Z 5; end_ := NaN |})
    by num_eq.
  split; (split; [|split]); try assumption.
  - exists EmptyString, ",5". now split.
  - rewrite E1. discriminate.
  - exists "t=5&", EmptyString. now split.
  - rewrite E2. discriminate.
Qed.

(** C10 (amended): for every string whose first "t=" is followed, after
    an optional "npt:", by no digit, [getTime] returns a [NaN] start
    rather than the default 0; the end is [NaN] too unless a comma and a
    digit come next.  So "t=" alone and "a&t=x" give
    {start: NaN, end: NaN}. *)
Theorem getTime_without_start_digits pre post :
  includes "t=" pre = false ->
  begins_with_digit (skip_npt (chars post)) = false ->
  string_match (pre ++ "t=" ++ post) TEMPORAL_SELECTOR <> None
  /\ start (getTime (pre ++ "t=" ++ post)) = NaN
  /\ (begins_with_comma_digit (skip_npt (chars post)) = false ->
      getTime (pre ++ "t=" ++ post) = {| start := NaN; end_ := NaN |}).
Proof.
  intros Hpre Hpost.
  destruct (temporal_groups_no_start _ Hpost) as [H3 H6].
  rewrite getTime_first by assumption. rewrite H3. repeat split.
  - unfold string_match. rewrite !chars_app.
    destruct (@exec_temporal_first (chars post) (chars pre) Hpre)
      as (m & -> & _).
    discriminate.
  - intros Hc. now rewrite (H6 Hc).
Qed.

Lemma getTime_without_start_digits_witness :
  string_match "a&t=x" TEMPORAL_SELECTOR <> None
  /\ start (getTime "a&t=x") = NaN
  /\ (begins_with_comma_digit (skip_npt (chars "x")) = false ->
      getTime "a&t=x" = {| start := NaN; end_ := NaN |}).
Proof.
  apply (@getTime_without_start_digits "a&" "x"); reflexivity.
Defined.

(** * The identifier join *)

Lemma get_None_keys {V} k (r : Record V) :
  get k r = None <-> ~ In k (keys r).
Proof.
  induction r as [|[k' v] r IH]; cbn [get keys map fst In]; [tauto|].
  destruct (String.eqb_spec k k') as [->|N].
  - split; [discriminate|]. intros H. destruct H. now left.
  - rewrite IH. unfold keys. split; [|tauto].
    intros H [E|I]; [now destruct N|tauto].
Qed.

Lemma keys_set {V} k (v : V) r x :
  In x (keys (set k v r)) -> x = k \/ In x (keys r).
Proof.
  induction r as [|[k' v'] r IH]; cbn [set keys map fst In].
  - intros [<-|[]]. now left.
  - destruct (String.eqb_spec k k') as [->|N]; cbn [map fst In].
    + tauto.
    + intros [<-|H]; [tauto|]. destruct (IH H); tauto.
Qed.

Lemma keys_set_present {V} k (v : V) r x :
  get k r <> None -> In x (keys (set k v r)) -> In x (keys r).
Proof.
  intros Hk H. destruct (keys_set _ _ _ _ H) as [->|]; [|assumption].
  destruct (In_dec string_dec k (keys r)) as [|N]; [assumption|].
  now apply get_None_keys in N.
Qed.

Lemma for_each_invariant {A S} (P : S -> Prop)
    (body : S -> A -> completion S) l :
  (forall s x s', P s -> body s x = Ok s' -> P s') ->
  forall s s', P s -> for_each body l s = Ok s' -> P s'.
Proof.
  intros Hbody. induction l as [|x l IH]; intros s s' Hs; cbn [for_each].
  - now intros [= <-].
  - destruct (body s x) as [s1|] eqn:E; cbn [bind]; [|discriminate].
    apply IH. eapply Hbody; eassumption.
Qed.

Section JoinFacts.
Variable number_to_string : number -> string.
Variable serviceToCanvasId : Record string.
Variable vault_get : option string -> option Canvas.

(** The scan of the audio annotations creates records for its own ids
    only. *)
Lemma audio_step_keys id m anno m' x :
  audio_step id m anno = Ok m' ->
  In x (keys m') -> x = id \/ In x (keys m).
Proof.
  unfold audio_step. destruct (accepted anno) as [[src sel]|].
  - destruct (selector_value sel); cbn [defined bind]; [|discriminate].
    intros [= <-]. apply keys_set.
  - intros [= <-]. now right.
Qed.

Lemma audio_pass_keys audioAnnotations m x :
  audio_pass audioAnnotations = Ok m ->
  In x (keys m) -> In x (keys audioAnnotations).
Proof.
  unfold audio_pass.
  assert (G : forall l (m0 m1 : Record NoteRecord),
    for_each
      (fun mapping '(id, annotations) =>
         for_each (audio_step id) (annotationList annotations) mapping)
      l m0 = Ok m1 ->
    In x (keys m1) -> In x (keys m0) \/ In x (keys l)).
  { induction l as [|[id annotations] l IH]; intros m0 m1; cbn [for_each].
    - intros [= <-]. now left.
    - destruct (for_each (audio_step id) (annotationList annotations) m0)
        as [m2|] eqn:E; cbn [bind]; [|discriminate].
      intros H1 Hx. destruct (IH _ _ H1 Hx) as [H2|H2];
        [|right; now right].
      refine (@for_each_invariant _ _
                (fun m => In x (keys m) ->
                          In x (keys m0)
                          \/ In x (keys ((id, annotations) :: l)))
                (audio_step id) (annotationList annotations)
                _ m0 m2 (fun h => or_introl h) E H2).
      intros s a s' Hs Hstep Hin.
      destruct (audio_step_keys _ _ _ _ Hstep Hin) as [->|];
        [right; now left|auto]. }
  intros H Hx. destruct (G _ _ _ H Hx) as [[]|]. assumption.
Qed.

(** The scan of the image annotations creates no record. *)
Lemma image_annotations_keys id l : forall st st' x,
  image_annotations number_to_string serviceToCanvasId vault_get id l st
    = Ok st' ->
  In x (keys (mapping st')) -> In x (keys (mapping st)).
Proof.
  induction l as [|anno l IH]; intros st st' x; cbn [image_annotations].
  - now intros [= <-].
  - destruct (accepted anno) as [[src sel]|]; [|apply IH].
    destruct (get id (mapping st)) as [record|] eqn:Eg;
      [|now intros [= <-]].
    destruct (audio record); [|now intros [= <-]].
    destruct (selector_value sel); cbn [defined bind]; [|discriminate].
    destruct (vault_get (get src serviceToCanvasId)); cbn [defined bind];
      [|discriminate].
    intros H Hx. apply (IH _ _ _ H) in Hx. cbn [mapping] in Hx.
    eapply keys_set_present; [|exact Hx]. congruence.
Qed.

Lemma image_pass_keys imageAnnotations m st x :
  image_pass number_to_string serviceToCanvasId vault_get
    imageAnnotations m = Ok st ->
  In x (keys (mapping st)) -> In x (keys m).
Proof.
  unfold image_pass. intros H.
  refine (@for_each_invariant _ _
            (fun st => In x (keys (mapping st)) -> In x (keys m)) _ _
            _ {| mapping := m; canvasMinMax := [] |} st (fun h => h) H).
  intros s [id annotations] s' Hs Hstep Hx.
  apply Hs. eapply image_annotations_keys; eassumption.
Qed.

Lemma join_keys audioAnnotations imageAnnotations st x :
  join number_to_string serviceToCanvasId vault_get
    audioAnnotations imageAnnotations = Ok st ->
  In x (keys (mapping st)) -> In x (keys audioAnnotations).
Proof.
  unfold join. destruct (audio_pass audioAnnotations) as [m|] eqn:E;
    cbn [bind]; [|discriminate].
  intros H Hx. eapply audio_pass_keys; [exact E|].
  eapply image_pass_keys; eassumption.
Qed.
End JoinFacts.

Lemma note_triples_ids annotation x :
  In x (map id (note_triples annotation)) -> In x (keys annotation).
Proof.
  induction annotation as [|[k range] annotation IH];
    cbn [note_triples flat_map keys map fst]; [tauto|].
  rewrite map_app, in_app_iff. intros [H|H]; [|right; now apply IH].
  left. destruct (audio range); [|destruct H].
  destruct (svgSelector range); [|destruct H].
  destruct H as [<-|[]]. reflexivity.
Qed.

Lemma orderAnnotationMapping_ids annotation x :
  exists segs,
    orderAnnotationMapping annotation = Ok segs
    /\ (In x (map seg_id segs) -> In x (keys annotation)).
Proof.
  eexists. split; [apply orderAnnotationMapping_partition|].
  rewrite partition_ids. intros H. apply note_triples_ids.
  eapply Permutation_in; [|exact H].
  apply Permutation_map. apply (array_sort_perm originalMin).
Qed.

(** * The manifest assembler *)

Create HintDb readonly.

Lemma readonly_ret {A} (a : A) : readonly (ret a).
Proof. intros h. reflexivity. Qed.

Lemma readonly_read {A} (f : Heap -> A) : readonly (read f).
Proof. intros h. reflexivity. Qed.

Lemma readonly_read_defined {A} (f : Heap -> option A) :
  readonly (read_defined f).
Proof. intros h. reflexivity. Qed.

Lemma readonly_bind {A B} (c : Script A) (k : A -> Script B) :
  readonly c -> (forall a, readonly (k a)) -> readonly (bind_script c k).
Proof.
  intros Hc Hk h. unfold bind_script. specialize (Hc h).
  destruct (c h) as [[a|] h1]; cbn [snd] in *; subst; [apply Hk|reflexivity].
Qed.

#[local] Hint Resolve readonly_ret readonly_read readonly_read_defined
  readonly_bind : readonly.

Lemma readonly_map_script {A B} (body : A -> nat -> Script B) l :
  (forall x i, readonly (body x i)) ->
  forall idx, readonly (map_script body l idx).
Proof.
  intros Hbody. induction l as [|x l IH]; intros idx; cbn [map_script];
    auto 6 with readonly.
Qed.

#[local] Hint Resolve readonly_map_script : readonly.

(** Running a read-only step first: the continuation sees the same
    store. *)
Lemma bind_readonly {A B} (c : Script A) (k : A -> Script B) h :
  readonly c ->
  bind_script c k h
  = match fst (c h) with
    | Ok a => k a h
    | TypeError => (TypeError, h)
    end.
Proof.
  intros Hc. unfold bind_script. specialize (Hc h).
  destruct (c h) as [[a|] h1]; cbn [fst snd] in *; now subst.
Qed.

(** What a [map] over a read-only callback returns, element by
    element. *)
Lemma map_script_Forall2 {A B} (Q : A -> B -> Prop)
    (body : A -> nat -> Script B) l :
  (forall x i, readonly (body x i)) ->
  (forall x i h y, fst (body x i h) = Ok y -> Q x y) ->
  forall idx h ys,
    fst (map_script body l idx h) = Ok ys -> Forall2 Q l ys.
Proof.
  intros Hro HQ. induction l as [|x l IH]; intros idx h ys; cbn [map_script].
  - intros [= <-]. constructor.
  - rewrite bind_readonly by auto.
    destruct (fst (body x idx h)) as [y|] eqn:Ey; [|discriminate].
    rewrite bind_readonly by auto with readonly.
    destruct (fst (map_script body l (S idx) h)) as [ys'|] eqn:Em;
      [|discriminate].
    intros [= <-]. constructor; [eapply HQ; eassumption|].
    eapply IH; eassumption.
Qed.

Lemma fixAudio_run audio h :
  fixAudio audio h
  = match audio with
    | Some r =>
        match deref r h with
        | Some {| audio_body := Some _ |} =>
            (Ok r,
             assign_body r
               (fun b => {| body_id := body_id b; body_type := Some "Sound";
                            body_format := body_format b |})
               (assign_body r
                  (fun b => {| body_id := body_id b;
                               body_type := body_type b;
                               body_format := Some "audio/mpeg" |}) h))
        | _ => (TypeError, h)
        end
    | None => (TypeError, h)
    end.
Proof.
  destruct audio as [r|]; [|reflexivity].
  unfold fixAudio, bind_script, read_defined, write, ret. cbn [defined].
  destruct (deref r h) as [[i [b|]]|]; reflexivity.
Qed.

(** The two assignments of [fixAudio] on [items[0].items[0]]. *)
Lemma fixAudio_first_annotation h page a rest :
  nth_error (audio_canvas_items (h_audioCanvas h)) 0 = Some page ->
  page_items page = a :: rest ->
  assign_body (0, 0)
    (fun b => {| body_id := body_id b; body_type := Some "Sound";
                 body_format := body_format b |})
    (assign_body (0, 0)
       (fun b => {| body_id := body_id b; body_type := body_type b;
                    body_format := Some "audio/mpeg" |}) h)
  = with_audio_media h.
Proof.
  destruct h as [[cid dur items] oc fam c2s rm mp]. cbn [h_audioCanvas
    audio_canvas_items]. destruct items as [|p pages]; [discriminate|].
  cbn [nth_error]. intros [= ->]. destruct page as [pid pitems].
  cbn [page_items]. intros ->.
  unfold assign_body, with_audio_media. cbn.
  destruct a as [aid [b|]]; reflexivity.
Qed.

Section AssemblerFacts.
Variable number_to_string : number -> string.

(** The store the assembler leaves, and the highlights it emits. *)
Lemma newManifest_run h :
  match newManifest number_to_string h with
  | (Ok m, h') =>
      h' = with_audio_media h
      /\ Forall2 highlight_of (h_filteredAnnotationMapping h)
           (manifest_annotations m)
  | (TypeError, h') => h' = h \/ h' = with_audio_media h
  end.
Proof.
  unfold newManifest.
  rewrite bind_readonly by auto with readonly. cbn [read fst].
  rewrite bind_readonly by auto with readonly. cbn [read fst].
  rewrite bind_readonly by auto 6 with readonly.
  destruct (fst (map_script _ (h_orderedCanvases h) 0 h)) as [widths|];
    [|now left].
  rewrite bind_readonly by auto 6 with readonly.
  destruct (fst (map_script _ (h_orderedCanvases h) 0 h)) as [heights|];
    [|now left].
  rewrite bind_readonly by auto with readonly. cbn [read fst].
  rewrite bind_readonly by auto with readonly. cbn [read_defined fst].
  destruct (nth_error (audio_canvas_items (h_audioCanvas h)) 0)
    as [page|] eqn:Epage; cbn [defined]; [|now left].
  unfold bind_script at 1. rewrite fixAudio_run.
  destruct (page_items page) as [|a rest] eqn:Eitems; [now left|].
  unfold deref. cbn [fst snd]. rewrite Epage, Eitems. cbn [nth_error].
  destruct a as [aid [b|]]; [|now left].
  rewrite (@fixAudio_first_annotation h page _ rest Epage Eitems).
  set (h2 := with_audio_media h).
  rewrite bind_readonly by auto 6 with readonly.
  destruct (fst (map_script _ (h_orderedCanvases h) 0 h2)) as [images|];
    [|now right].
  rewrite bind_readonly by auto 6 with readonly.
  destruct (fst (map_script _ (h_filteredAnnotationMapping h) 0 h2))
    as [highlights|] eqn:Eh; [|now right].
  cbn [ret manifest_annotations]. split; [reflexivity|].
  revert Eh. apply map_script_Forall2; [auto with readonly|].
  intros s i h0 hl. rewrite bind_readonly by auto with readonly.
  cbn [read_defined fst].
  destruct (get (seg_id s) (h_mapping h0)); cbn [defined]; [|discriminate].
  now intros [= <-].
Qed.
End AssemblerFacts.

Lemma append_inj_l (p a b : string) : (p ++ a = p ++ b)%string -> a = b.
Proof.
  induction p as [|c p IH]; cbn; [exact (fun H => H)|].
  intros [= H]. now apply IH.
Qed.

Lemma Forall2_In_r {A B} (Q : A -> B -> Prop) l ys y :
  Forall2 Q l ys -> In y ys -> exists x, In x l /\ Q x y.
Proof.
  induction 1 as [|x y' l ys Hq _ IH]; intros Hin; [destruct Hin|].
  destruct Hin as [<-|Hin].
  - exists x. split; [now left|assumption].
  - destruct (IH Hin) as (x' & Hx & Hq'). exists x'.
    split; [now right|assumption].
Qed.

(** * The claims about the join and the assembler *)

(** In a mapping that holds its own keys only, a note id that the
    temporal collection never mentions gets no key, no segment in the
    note partition, and no highlight annotation in the output document. *)
Lemma join_drops_spatial_only
    number_to_string serviceToCanvasId vault_get
    audioAnnotations imageAnnotations noteId st :
  ~ In noteId (keys audioAnnotations) ->
  join number_to_string serviceToCanvasId vault_get
    audioAnnotations imageAnnotations = Ok st ->
  ~ In noteId (keys (mapping st))
  /\ (exists segs,
        orderAnnotationMapping (mapping st) = Ok segs
        /\ ~ In noteId (map seg_id segs))
  /\ forall audioCanvas canvasToServiceId resourceMap manifest,
       generate number_to_string serviceToCanvasId vault_get
         audioAnnotations imageAnnotations
         audioCanvas canvasToServiceId resourceMap = Ok manifest ->
       forall hl, In hl (manifest_annotations manifest) ->
         highlight_id hl <> "https://example/image-anno/" ++ noteId.
Proof.
  intros Hid Hjoin.
  assert (Hkeys : ~ In noteId (keys (mapping st))).
  { intros H. apply Hid. eapply join_keys; eassumption. }
  destruct (orderAnnotationMapping_ids (mapping st) noteId)
    as (segs & Esegs & Hsegs).
  split; [exact Hkeys|]. split.
  - exists segs. split; [exact Esegs|]. intros H. now apply Hkeys, Hsegs.
  - intros audioCanvas canvasToServiceId resourceMap manifest.
    unfold generate. rewrite Hjoin. cbn [bind].
    destruct (orderCanvasMapping (canvasMinMax st)) as [pages|];
      cbn [bind]; [|discriminate].
    rewrite Esegs. cbn [bind].
    match goal with
    | |- fst (newManifest _ ?h) = _ -> _ =>
        pose proof (newManifest_run number_to_string h) as Hrun;
        destruct (newManifest number_to_string h) as [[m|] h']
    end; cbn [fst]; [|discriminate].
    intros [= <-] hl Hhl E.
    destruct Hrun as [_ Hall]. cbn [h_filteredAnnotationMapping] in Hall.
    destruct (@Forall2_In_r _ _ _ _ _ hl Hall Hhl) as (s & Hs & Hq).
    unfold highlight_of in Hq. rewrite Hq in E.
    apply append_inj_l in E. apply Hkeys, Hsegs. rewrite <- E.
    now apply in_map.
Qed.

(** C9, as stated, fails: [fixAudio] assigns to the audio annotation it
    is given, which is the one in the audio canvas.  On a canvas whose
    annotation body has type "Audio" and format "audio/mp3" the assembler
    produces its document and leaves a different canvas behind. *)
Lemma assembler_overwrites_audio_media :
  exists m h',
    newManifest sample_number_to_string sample_heap = (Ok m, h')
    /\ h' <> sample_heap.
Proof.
  do 2 eexists. split; [vm_compute; reflexivity|].
  intros H.
  apply (f_equal (fun h => match deref (0, 0) h with
                           | Some {| audio_body := Some b |} => body_type b
                           | _ => None
                           end)) in H.
  vm_compute in H. discriminate H.
Qed.

(** C9 (amended): the assembler leaves the page partition, the note
    partition, the service and resource maps and the note mapping
    unchanged; of the audio canvas it changes only the body of its first
    annotation, where [fixAudio] overwrites [format] with "audio/mpeg"
    and [type] with "Sound" — always when a document is produced. *)
Theorem assembler_changes_audio_media_only number_to_string h :
  let h' := snd (newManifest number_to_string h) in
  h_orderedCanvases h' = h_orderedCanvases h
  /\ h_filteredAnnotationMapping h' = h_filteredAnnotationMapping h
  /\ h_canvasToServiceId h' = h_canvasToServiceId h
  /\ h_resourceMap h' = h_resourceMap h
  /\ h_mapping h' = h_mapping h
  /\ (h' = h \/ h' = with_audio_media h)
  /\ (forall m, fst (newManifest number_to_string h) = Ok m ->
        h' = with_audio_media h).
Proof.
  intros h'. subst h'.
  pose proof (newManifest_run number_to_string h) as Hrun.
  destruct (newManifest number_to_string h) as [[m|] h']; cbn [fst snd].
  - destruct Hrun as [-> _]. repeat split; try reflexivity. now right.
  - destruct Hrun as [->| ->]; repeat split; try reflexivity; auto;
      discriminate.
Qed.

(** * Further properties of the interval reconciler *)

Lemma canvas_entries_ids canvasMinMax :
  map id (canvas_entries canvasMinMax) = keys canvasMinMax.
Proof.
  induction canvasMinMax as [|[k range] l IH]; [reflexivity|].
  cbn [canvas_entries map keys fst id]. f_equal. exact IH.
Qed.

Lemma note_triples_keys annotation :
  map id (note_triples annotation) = keys (complete_records annotation).
Proof.
  induction annotation as [|[k range] l IH]; [reflexivity|].
  cbn [note_triples flat_map complete_records filter]. unfold complete.
  rewrite map_app.
  change (flat_map _ l) with (note_triples l).
  change (filter _ l) with (complete_records l).
  rewrite IH.
  destruct (audio range); [|reflexivity].
  destruct (svgSelector range); reflexivity.
Qed.

Lemma reconciled_ids entries :
  Permutation (map seg_id (partition (array_sort byOriginalMin entries)))
    (map id entries).
Proof.
  rewrite partition_ids. apply Permutation_map.
  apply (array_sort_perm originalMin).
Qed.

(** X1: neither reconciler can throw, and each returns exactly one
    segment per triple: the keys of the page segments are the keys of the
    accumulator, those of the note segments the keys of the records that
    have both a time range and a spatial selector. *)
Theorem reconciler_one_segment_per_triple :
  (forall canvasMinMax,
     exists segs,
       orderCanvasMapping canvasMinMax = Ok segs
       /\ Permutation (map seg_id segs) (keys canvasMinMax))
  /\ (forall annotation,
     exists segs,
       orderAnnotationMapping annotation = Ok segs
       /\ Permutation (map seg_id segs) (keys (complete_records annotation))).
Proof.
  split.
  - intros canvasMinMax. eexists.
    split; [apply orderCanvasMapping_partition|].
    rewrite <- canvas_entries_ids. apply reconciled_ids.
  - intros annotation. eexists.
    split; [apply orderAnnotationMapping_partition|].
    rewrite <- note_triples_keys. apply reconciled_ids.
Qed.

Lemma partition_from_length entries : forall start,
  List.length (partition_from start entries) = List.length entries.
Proof.
  induction entries as [|c rest IH]; intros start; [reflexivity|].
  cbn. now rewrite IH.
Qed.

Lemma partition_from_nth entries : forall start i current seg,
  nth_error entries i = Some current ->
  nth_error (partition_from start entries) i = Some seg ->
  seg_id seg = id current
  /\ seg_end seg = segment_end current (nth_error entries (S i)).
Proof.
  induction entries as [|c rest IH]; intros start i current seg Hc Hs.
  - destruct i; discriminate.
  - destruct i as [|i]; cbn [partition_from nth_error] in *.
    + injection Hc as <-. injection Hs as <-. cbn.
      now destruct rest.
    + exact (IH _ _ _ _ Hc Hs).
Qed.

Lemma partition_bounds sorted : bounds_of sorted (partition sorted).
Proof.
  split.
  - destruct sorted; [reflexivity|]. apply partition_from_length.
  - intros i current seg Hc Hs. destruct sorted as [|first rest].
    + destruct i; discriminate.
    + destruct (partition_from_nth _ _ _ Hc Hs) as [Hid Hend].
      split; [exact Hid|]. rewrite Hend.
      now destruct (nth_error (first :: rest) (S i)).
Qed.

(** X2: in both reconcilers the i-th segment belongs to the i-th triple
    of the sorted array; it ends at the midpoint between that triple's
    observed maximum and the next triple's observed minimum, and the last
    segment ends at its own triple's observed maximum. *)
Theorem reconciler_ends_at_midpoints :
  (forall canvasMinMax,
     exists segs,
       orderCanvasMapping canvasMinMax = Ok segs
       /\ bounds_of (array_sort byOriginalMin (canvas_entries canvasMinMax))
            segs)
  /\ (forall annotation,
     exists segs,
       orderAnnotationMapping annotation = Ok segs
       /\ bounds_of (array_sort byOriginalMin (note_triples annotation))
            segs).
Proof.
  split.
  - intros canvasMinMax. eexists.
    split; [apply orderCanvasMapping_partition|apply partition_bounds].
  - intros annotation. eexists.
    split; [apply orderAnnotationMapping_partition|apply partition_bounds].
Qed.

(** X3: when no observedMin is [NaN], the page segments come in
    ascending order of the observedMin of their triples: they follow an
    arrangement of the accumulator's entries that is sorted by
    observedMin. *)
Theorem pages_in_ascending_min_order canvasMinMax :
  Forall (key_defined originalMin) (canvas_entries canvasMinMax) ->
  exists sorted segs,
    orderCanvasMapping canvasMinMax = Ok segs
    /\ Permutation sorted (canvas_entries canvasMinMax)
    /\ StronglySorted (key_le originalMin) sorted
    /\ map seg_id segs = map id sorted.
Proof.
  intros Hdef. do 2 eexists.
  split; [apply orderCanvasMapping_partition|].
  split; [apply (array_sort_perm originalMin)|].
  split; [now apply (@array_sort_sorted _ originalMin)|].
  apply partition_ids.
Qed.

Lemma pages_in_ascending_min_order_witness :
  exists sorted segs,
    orderCanvasMapping overlapping_pages = Ok segs
    /\ Permutation sorted (canvas_entries overlapping_pages)
    /\ StronglySorted (key_le originalMin) sorted
    /\ map seg_id segs = map id sorted.
Proof.
  apply pages_in_ascending_min_order.
  repeat constructor; discriminate.
Defined.

Lemma array_sort_sorted_id {A} (key : A -> number) l :
  StronglySorted (key_le key) l ->
  array_sort (fun a b => Num.sub (key a) (key b)) l = l.
Proof.
  induction 1 as [|x l Hs IH Hx]; [reflexivity|].
  rewrite array_sort_cons, IH. destruct l as [|y l]; [reflexivity|].
  cbn [sort_insert]. rewrite NumFacts.sub_positive.
  inversion Hx as [|? ? Hxy _]; subst.
  destruct (Num.ltb (key y) (key x)) eqn:E; [|reflexivity].
  exfalso. apply (@NumFacts.lt_irrefl (key x)).
  eapply NumFacts.le_lt_trans; [exact Hxy|exact E].
Qed.

(** X4: an accumulator whose entries are already in ascending order of
    observedMin is reconciled in that order, entries with equal
    observedMin included: the segments carry the keys in the order of the
    mapping, with the midpoints taken between neighbours of the
    mapping. *)
Theorem presorted_pages_keep_their_order canvasMinMax :
  StronglySorted (key_le originalMin) (canvas_entries canvasMinMax) ->
  exists segs,
    orderCanvasMapping canvasMinMax = Ok segs
    /\ map seg_id segs = keys canvasMinMax
    /\ bounds_of (canvas_entries canvasMinMax) segs.
Proof.
  intros Hs. exists (partition (canvas_entries canvasMinMax)).
  rewrite orderCanvasMapping_partition.
  change byOriginalMin
    with (fun a b => Num.sub (originalMin a) (originalMin b)).
  rewrite (array_sort_sorted_id Hs).
  split; [reflexivity|]. split; [|apply partition_bounds].
  rewrite partition_ids. apply canvas_entries_ids.
Qed.

Lemma presorted_pages_keep_their_order_witness :
  exists segs,
    orderCanvasMapping tied_pages = Ok segs
    /\ map seg_id segs = keys tied_pages
    /\ bounds_of (canvas_entries tied_pages) segs.
Proof.
  apply presorted_pages_keep_their_order.
  repeat constructor.
Defined.

(** * Further properties of the join *)

Lemma get_set_same {V} k (v : V) r : get k (set k v r) = Some v.
Proof.
  induction r as [|[k' v'] r IH]; cbn [set get].
  - now rewrite String.eqb_refl.
  - destruct (String.eqb_spec k k') as [->|N]; cbn [get].
    + now rewrite String.eqb_refl.
    + destruct (String.eqb_spec k k'); [contradiction|exact IH].
Qed.

Lemma get_set_other {V} k k' (v : V) r :
  k' <> k -> get k' (set k v r) = get k' r.
Proof.
  intros N. induction r as [|[k0 v0] r IH]; cbn [set get].
  - destruct (String.eqb_spec k' k); [contradiction|reflexivity].
  - destruct (String.eqb_spec k k0) as [->|N0]; cbn [get].
    + destruct (String.eqb_spec k' k0); [contradiction|reflexivity].
    + destruct (String.eqb_spec k' k0); [reflexivity|exact IH].
Qed.

Lemma keys_set_same {V} k (v : V) r :
  get k r <> None -> keys (set k v r) = keys r.
Proof.
  induction r as [|[k' v'] r IH]; cbn [set get keys map fst];
    [congruence|].
  destruct (String.eqb_spec k k') as [->|N]; [reflexivity|].
  intros H. cbn [map fst]. f_equal. now apply IH.
Qed.

Lemma get_In {V} k (v : V) r : get k r = Some v -> In (k, v) r.
Proof.
  induction r as [|[k' v'] r IH]; cbn [get]; [discriminate|].
  destruct (String.eqb_spec k k') as [->|N].
  - intros [= ->]. now left.
  - intros H. right. now apply IH.
Qed.

Lemma In_get {V} k (v : V) r :
  NoDup (keys r) -> In (k, v) r -> get k r = Some v.
Proof.
  induction r as [|[k' v'] r IH]; cbn [get keys map fst]; [intros _ []|].
  intros Hd [E|I]; inversion Hd as [|? ? Hn Hd']; subst.
  - injection E as -> ->. now rewrite String.eqb_refl.
  - destruct (String.eqb_spec k k') as [->|N]; [|now apply IH].
    destruct Hn. change (In (fst (k', v)) (map fst r)). now apply in_map.
Qed.

Lemma Forall_set {V} (Q : string * V -> Prop) k v r :
  Forall Q r -> Q (k, v) -> Forall Q (set k v r).
Proof.
  intros Hr Hv. induction Hr as [|[k' v'] r Hx Hr IH]; cbn [set].
  - now repeat constructor.
  - destruct (String.eqb_spec k k') as [->|N]; constructor; assumption.
Qed.

Lemma NoDup_keys_set {V} k (v : V) r :
  NoDup (keys r) -> NoDup (keys (set k v r)).
Proof.
  intros Hd. destruct (get k r) as [v0|] eqn:E.
  - rewrite keys_set_same by congruence. exact Hd.
  - apply get_None_keys in E.
    assert (H : keys (set k v r) = (keys r ++ [k])%list).
    { clear Hd. induction r as [|[k' v'] r IH]; [reflexivity|].
      cbn [set keys map fst] in *.
      destruct (String.eqb_spec k k') as [->|N].
      - destruct E. now left.
      - cbn [map fst app]. f_equal. apply IH.
        intros I. apply E. now right. }
    rewrite H. apply NoDup_app; [exact Hd|repeat constructor; easy|].
    intros x Hx [<-|[]]. contradiction.
Qed.

Section JoinMore.
Variable number_to_string : number -> string.
Variable serviceToCanvasId : Record string.
Variable vault_get : option string -> option Canvas.

(** A property kept by every such update is kept by the scan of one
    note's image annotations. *)
Lemma image_annotations_invariant (P : JoinState -> Prop) id l :
  (forall st record a src sel value canvas,
     P st ->
     get id (mapping st) = Some record -> audio record = Some a ->
     accepted_source src sel ->
     selector_value sel = Some value ->
     vault_get (get src serviceToCanvasId) = Some canvas ->
     P (image_update number_to_string serviceToCanvasId
          id src value a canvas st)) ->
  forall st st',
    P st ->
    image_annotations number_to_string serviceToCanvasId vault_get id l st
      = Ok st' ->
    P st'.
Proof.
  intros Hstep. induction l as [|anno l IH]; intros st st' HP;
    cbn [image_annotations].
  - now intros [= <-].
  - destruct (accepted anno) as [[src sel]|] eqn:Ea; [|now apply IH].
    destruct (get id (mapping st)) as [record|] eqn:Eg;
      [|now intros [= <-]].
    destruct (audio record) as [a|] eqn:Eaudio; [|now intros [= <-]].
    destruct (selector_value sel) as [value|] eqn:Ev; cbn [defined bind];
      [|discriminate].
    destruct (vault_get (get src serviceToCanvasId)) as [canvas|] eqn:Ec;
      cbn [defined bind]; [|discriminate].
    apply IH. eapply Hstep; try eassumption. exists anno. exact Ea.
Qed.

Lemma image_pass_invariant (P : JoinState -> Prop) imageAnnotations :
  (forall id st record a src sel value canvas,
     In id (keys imageAnnotations) ->
     P st ->
     get id (mapping st) = Some record -> audio record = Some a ->
     accepted_source src sel ->
     selector_value sel = Some value ->
     vault_get (get src serviceToCanvasId) = Some canvas ->
     P (image_update number_to_string serviceToCanvasId
          id src value a canvas st)) ->
  forall m st,
    P {| mapping := m; canvasMinMax := [] |} ->
    image_pass number_to_string serviceToCanvasId vault_get
      imageAnnotations m = Ok st ->
    P st.
Proof.
  intros Hstep m st. unfold image_pass.
  generalize {| mapping := m; canvasMinMax := [] |}.
  induction imageAnnotations as [|[id annotations] l IH]; intros st0 HP;
    cbn [for_each].
  - now intros [= <-].
  - destruct (image_annotations number_to_string serviceToCanvasId vault_get
                id (annotationList annotations) st0) as [st1|] eqn:E;
      cbn [bind]; [|discriminate].
    apply IH.
    + intros id' **. eapply Hstep; try eassumption. now right.
    + eapply image_annotations_invariant; [|exact HP|exact E].
      intros. eapply Hstep; try eassumption. now left.
Qed.

End JoinMore.

(** ** The scan of the audio annotations *)

(** A property kept by every write of the scan holds of its result. *)
Lemma audio_pass_invariant (P : Record NoteRecord -> Prop) audioAnnotations :
  (forall id m sel value,
     In id (keys audioAnnotations) -> P m ->
     accepted_source_selector sel ->
     selector_value sel = Some value ->
     P (set id
          (set_audio (getTime value)
             match get id m with
             | Some r => r
             | None => empty_note
             end) m)) ->
  forall m, P [] -> audio_pass audioAnnotations = Ok m -> P m.
Proof.
  intros Hstep m. unfold audio_pass. generalize (@nil (string * NoteRecord)).
  induction audioAnnotations as [|[id annotations] l IH]; intros m0 HP;
    cbn [for_each].
  - now intros [= <-].
  - destruct (for_each (audio_step id) (annotationList annotations) m0)
      as [m1|] eqn:E; cbn [bind]; [|discriminate].
    apply IH.
    + intros id' **. eapply Hstep; try eassumption. now right.
    + revert E HP. generalize (annotationList annotations) m0 m1.
      clear -Hstep. intros annos.
      induction annos as [|anno annos IHa]; intros m0 m1; cbn [for_each].
      * now intros [= <-].
      * unfold audio_step at 1.
        destruct (accepted anno) as [[src sel]|] eqn:Ea.
        -- destruct (selector_value sel) as [value|] eqn:Ev;
             cbn [defined bind]; [|discriminate].
           intros E HP. eapply IHa; [exact E|].
           eapply Hstep;
             [now left|exact HP|exists src, anno; exact Ea|exact Ev].
        -- cbn [bind]. apply IHa.
Qed.

Lemma set_audio_temporal_only a r :
  imageId r = None -> canvasId r = None -> svgPoints r = None ->
  svgSelector r = None -> minMax r = None ->
  temporal_only (set_audio a r).
Proof.
  intros H1 H2 H3 H4 H5. unfold temporal_only, set_audio. cbn.
  repeat split; try assumption. discriminate.
Qed.

(** What the audio scan leaves in the mapping. *)
Lemma audio_pass_records audioAnnotations m :
  audio_pass audioAnnotations = Ok m ->
  NoDup (keys m)
  /\ Forall (fun '(id, r) => In id (keys audioAnnotations)
                             /\ temporal_only r) m.
Proof.
  apply (@audio_pass_invariant
           (fun m => NoDup (keys m)
                     /\ Forall (fun '(id, r) =>
                                  In id (keys audioAnnotations)
                                  /\ temporal_only r) m)).
  - intros id m0 sel value Hin [Hd Hall] _ _. split.
    + now apply NoDup_keys_set.
    + apply Forall_set; [exact Hall|]. split; [exact Hin|].
      destruct (get id m0) as [r|] eqn:E.
      * apply get_In in E. rewrite Forall_forall in Hall.
        destruct (Hall _ E) as (_ & _ & H1 & H2 & H3 & H4 & H5).
        now apply set_audio_temporal_only.
      * now apply set_audio_temporal_only.
  - split; constructor.
Qed.

(** X5: after the scan of the audio annotations every record of the
    mapping belongs to an id of the audio collection and holds a time
    range and nothing else: no image, no page, no polygon. *)
Theorem audio_scan_creates_temporal_records audioAnnotations m :
  audio_pass audioAnnotations = Ok m ->
  NoDup (keys m)
  /\ Forall (fun '(id, r) => In id (keys audioAnnotations)
                             /\ temporal_only r) m.
Proof. apply audio_pass_records. Qed.

Lemma audio_scan_creates_temporal_records_witness :
  NoDup (keys sample_mapping)
  /\ Forall (fun '(id, r) => In id (keys sample_audio_annotations)
                             /\ temporal_only r) sample_mapping.
Proof.
  apply audio_scan_creates_temporal_records. reflexivity.
Defined.







(** ** The scan of the image annotations *)

Lemma le_refl x : x <> NaN -> Num.le x x.
Proof.
  unfold Num.le. destruct x as [| | |q]; try congruence; try reflexivity.
  intros _. apply NumFacts.leb_Fin. apply Qcle_refl.
Qed.

Lemma ltb_defined x y : Num.ltb x y = true -> x <> NaN /\ y <> NaN.
Proof. apply NumFacts.lt_not_NaN. Qed.


Lemma max_spec x y :
  x <> NaN -> y <> NaN ->
  Num.max x y <> NaN /\ Num.le x (Num.max x y) /\ Num.le y (Num.max x y).
Proof.
  intros Hx Hy.
  assert (E : Num.max x y = if Num.ltb x y then y else x)
    by (destruct x, y; try reflexivity; congruence).
  rewrite E. destruct (Num.ltb x y) eqn:L.
  - repeat split; [assumption|now apply NumFacts.lt_le|now apply le_refl].
  - repeat split; [assumption|now apply le_refl|].
    now apply NumFacts.not_lt_le.
Qed.

Section ImageScan.
Variable number_to_string : number -> string.
Variable serviceToCanvasId : Record string.
Variable vault_get : option string -> option Canvas.

(** The early return of the image scan: for a note without a record, or
    with a record that has no time range, nothing changes. *)
Lemma image_annotations_skip id annotationList st :
  match get id (mapping st) with
  | Some record => audio record = None
  | None => True
  end ->
  image_annotations number_to_string serviceToCanvasId vault_get
    id annotationList st = Ok st.
Proof.
  intros H. induction annotationList as [|anno l IH];
    cbn [image_annotations]; [reflexivity|].
  destruct (accepted anno) as [[src sel]|]; [|exact IH].
  destruct (get id (mapping st)) as [record|]; [|reflexivity].
  now rewrite H.
Qed.

(** What the image scan leaves untouched. *)
Lemma image_pass_keeps imageAnnotations m st :
  image_pass number_to_string serviceToCanvasId vault_get
    imageAnnotations m = Ok st ->
  keys (mapping st) = keys m
  /\ forall id,
       option_map audio (get id (mapping st)) = option_map audio (get id m).
Proof.
  apply (@image_pass_invariant number_to_string serviceToCanvasId vault_get
           (fun st => keys (mapping st) = keys m
                      /\ forall id,
                           option_map audio (get id (mapping st))
                           = option_map audio (get id m))).
  - intros id st0 record a src sel value canvas _ [Hk Ha] Hg Haudio _ _ _.
    unfold image_update. cbn [mapping]. split.
    + rewrite keys_set_same by congruence. exact Hk.
    + intros k. destruct (String.eqb_spec k id) as [->|N].
      * rewrite get_set_same, <- Ha, Hg. cbn. now rewrite Haudio.
      * rewrite get_set_other by assumption. apply Ha.
  - now split.
Qed.

End ImageScan.

(** ** The join as a whole *)

Section JoinWhole.
Variable number_to_string : number -> string.
Variable serviceToCanvasId : Record string.
Variable vault_get : option string -> option Canvas.

Lemma join_run audioAnnotations imageAnnotations st :
  join number_to_string serviceToCanvasId vault_get
    audioAnnotations imageAnnotations = Ok st ->
  exists m,
    audio_pass audioAnnotations = Ok m
    /\ image_pass number_to_string serviceToCanvasId vault_get
         imageAnnotations m = Ok st.
Proof.
  unfold join. destruct (audio_pass audioAnnotations) as [m|];
    cbn [bind]; [eauto|discriminate].
Qed.

Lemma generate_run audioAnnotations imageAnnotations audioCanvas
    canvasToServiceId resourceMap manifest :
  generate number_to_string serviceToCanvasId vault_get
    audioAnnotations imageAnnotations
    audioCanvas canvasToServiceId resourceMap = Ok manifest ->
  exists st pages notes,
    join number_to_string serviceToCanvasId vault_get
      audioAnnotations imageAnnotations = Ok st
    /\ orderCanvasMapping (canvasMinMax st) = Ok pages
    /\ orderAnnotationMapping (mapping st) = Ok notes
    /\ fst (newManifest number_to_string
              (assembler_heap audioCanvas pages notes canvasToServiceId
                 resourceMap (mapping st))) = Ok manifest.
Proof.
  unfold generate.
  destruct (join _ _ _ audioAnnotations imageAnnotations) as [st|];
    cbn [bind]; [|discriminate].
  destruct (orderCanvasMapping (canvasMinMax st)) as [pages|] eqn:Ep;
    cbn [bind]; [|discriminate].
  destruct (orderAnnotationMapping (mapping st)) as [notes|] eqn:En;
    cbn [bind]; [|discriminate].
  intros H. exists st, pages, notes.
  split; [reflexivity|]. split; [exact Ep|]. split; [exact En|].
  exact H.
Qed.

(** The shape of the records after both scans. *)
Lemma join_records
    audioAnnotations imageAnnotations st :
  join number_to_string serviceToCanvasId vault_get
    audioAnnotations imageAnnotations = Ok st ->
  NoDup (keys (mapping st))
  /\ forall id r,
       get id (mapping st) = Some r ->
       audio r <> None
       /\ (temporal_only r \/ placed (canvasMinMax st) r).
Proof.
  intros H. destruct (join_run _ _ H) as (m & Ha & Hi).
  destruct (audio_pass_records _ Ha) as [Hd Hall].
  split.
  - destruct (image_pass_keeps _ _ _ _ _ Hi) as [-> _].
    exact Hd.
  - revert Hi.
    apply (@image_pass_invariant number_to_string serviceToCanvasId
             vault_get
             (fun st => forall id r,
                get id (mapping st) = Some r ->
                audio r <> None
                /\ (temporal_only r \/ placed (canvasMinMax st) r))).
    + intros id st0 record a src sel value canvas _ Hinv Hg Haudio
        (anno & Hacc) _ _ k r.
      unfold image_update. cbn [mapping canvasMinMax].
      destruct (String.eqb_spec k id) as [->|N].
      * rewrite get_set_same. intros [= <-]. cbn.
        split; [discriminate|]. right. unfold placed. cbn.
        repeat split; try discriminate.
        eexists. split; [reflexivity|]. rewrite get_set_same.
        discriminate.
      * rewrite get_set_other by assumption. intros Hk.
        destruct (Hinv _ _ Hk) as [Hau [Ht|Hp]]; (split; [exact Hau|]);
          [now left|right].
        destruct Hp as (H1 & H2 & H3 & c & Hc & Hget).
        repeat split; try assumption. exists c. split; [exact Hc|].
        destruct (String.eqb_spec c (canvas_id canvas)) as [->|Nc].
        -- rewrite get_set_same. discriminate.
        -- now rewrite get_set_other.
    + cbn [mapping canvasMinMax]. intros id r Hg.
      apply get_In in Hg. rewrite Forall_forall in Hall.
      destruct (Hall _ Hg) as [_ Ht]. split; [apply Ht|now left].
Qed.

(** X9: every record of the joined mapping has a time range, and its
    keys are distinct; a record either has no spatial data at all, or it
    has its image, its polygon, its selector and a page that is in the
    accumulator. *)
Theorem joined_records_are_temporal_or_placed
    audioAnnotations imageAnnotations st :
  join number_to_string serviceToCanvasId vault_get
    audioAnnotations imageAnnotations = Ok st ->
  NoDup (keys (mapping st))
  /\ forall id r,
       get id (mapping st) = Some r ->
       audio r <> None
       /\ (temporal_only r \/ placed (canvasMinMax st) r).
Proof. apply join_records. Qed.

(** In a mapping that holds its own keys only, a note id that the image
    collection never mentions keeps a record with a time range only and
    gets no segment and no highlight. *)
Lemma join_drops_temporal_only
    audioAnnotations imageAnnotations noteId st :
  ~ In noteId (keys imageAnnotations) ->
  join number_to_string serviceToCanvasId vault_get
    audioAnnotations imageAnnotations = Ok st ->
  (forall r, get noteId (mapping st) = Some r -> temporal_only r)
  /\ (exists segs,
        orderAnnotationMapping (mapping st) = Ok segs
        /\ ~ In noteId (map seg_id segs))
  /\ forall audioCanvas canvasToServiceId resourceMap manifest,
       generate number_to_string serviceToCanvasId vault_get
         audioAnnotations imageAnnotations
         audioCanvas canvasToServiceId resourceMap = Ok manifest ->
       forall hl, In hl (manifest_annotations manifest) ->
         highlight_id hl <> "https://example/image-anno/" ++ noteId.
Proof.
  intros Hid H. destruct (join_run _ _ H) as (m & Ha & Hi).
  destruct (audio_pass_records _ Ha) as [Hd Hall].
  assert (Hsvg : Forall (fun '(k, r) => svgSelector r <> None ->
                                        In k (keys imageAnnotations))
                   (mapping st)).
  { revert Hi.
    apply (@image_pass_invariant number_to_string serviceToCanvasId
             vault_get
             (fun st => Forall (fun '(k, r) =>
                                  svgSelector r <> None ->
                                  In k (keys imageAnnotations))
                          (mapping st))).
    - intros id st0 record a src sel value canvas Hin Hinv _ _ _ _ _.
      unfold image_update. cbn [mapping].
      apply Forall_set; [exact Hinv|]. intros _. exact Hin.
    - cbn [mapping]. eapply Forall_impl; [|exact Hall].
      intros [k r] [_ (_ & _ & _ & _ & Hs & _)] Hn. contradiction. }
  assert (Hnot : forall r, In (noteId, r) (mapping st) ->
                           svgSelector r = None).
  { intros r Hr. rewrite Forall_forall in Hsvg. specialize (Hsvg _ Hr).
    cbn in Hsvg. destruct (svgSelector r); [|reflexivity].
    destruct Hid. apply Hsvg. discriminate. }
  assert (Hseg : ~ In noteId (map id (note_triples (mapping st)))).
  { clear -Hnot. induction (mapping st) as [|[k r] l IH];
      cbn [note_triples flat_map]; [easy|].
    rewrite map_app, in_app_iff. intros [Hh|Ht].
    - destruct (audio r); [|destruct Hh].
      destruct (svgSelector r) eqn:E; [|destruct Hh].
      destruct Hh as [<-|[]]. cbn in Hnot.
      specialize (Hnot r (or_introl eq_refl)). congruence.
    - apply IH; [|exact Ht]. intros r' Hr'. apply Hnot. now right. }
  assert (Hsegs : forall segs,
    orderAnnotationMapping (mapping st) = Ok segs ->
    ~ In noteId (map seg_id segs)).
  { intros segs E Hin. apply Hseg.
    rewrite orderAnnotationMapping_partition in E. injection E as <-.
    rewrite partition_ids in Hin.
    eapply Permutation_in; [|exact Hin].
    apply Permutation_map. apply (array_sort_perm originalMin). }
  split; [|split].
  - intros r Hr.
    destruct (join_records _ _ H) as [_ Hj].
    destruct (Hj _ _ Hr) as [_ [Ht|(_ & _ & Hp & _)]]; [exact Ht|].
    apply get_In in Hr. now rewrite (Hnot _ Hr) in Hp.
  - eexists. split; [apply orderAnnotationMapping_partition|].
    apply Hsegs. apply orderAnnotationMapping_partition.
  - intros audioCanvas canvasToServiceId resourceMap manifest Hgen hl Hhl E.
    destruct (generate_run _ _ _ _ _ Hgen)
      as (st' & pages & notes & Hj & _ & Hn & Hrun).
    rewrite H in Hj. injection Hj as <-.
    pose proof (newManifest_run number_to_string
                  (assembler_heap audioCanvas pages notes canvasToServiceId
                     resourceMap (mapping st))) as Hr.
    destruct (newManifest number_to_string _) as [[m'|] h'];
      cbn [fst] in Hrun; [|discriminate].
    injection Hrun as ->. destruct Hr as [_ Hf].
    destruct (@Forall2_In_r _ _ _ _ _ hl Hf Hhl) as (s & Hs & Hq).
    unfold highlight_of in Hq. rewrite Hq in E. apply append_inj_l in E.
    apply (Hsegs _ Hn). rewrite <- E. now apply in_map.
Qed.

End JoinWhole.

Lemma joined_records_are_temporal_or_placed_witness :
  exists st,
    join sample_number_to_string sample_serviceToCanvasId sample_vault_get
      sample_audio_annotations_more sample_image_annotations = Ok st
    /\ NoDup (keys (mapping st))
    /\ forall id r,
         get id (mapping st) = Some r ->
         audio r <> None
         /\ (temporal_only r \/ placed (canvasMinMax st) r).
Proof.
  eexists. split; [vm_compute; reflexivity|].
  refine (@joined_records_are_temporal_or_placed sample_number_to_string
            sample_serviceToCanvasId sample_vault_get
            sample_audio_annotations_more sample_image_annotations _ _).
  vm_compute. reflexivity.
Defined.

(** ** The page range accumulator *)

Section Accumulator.
Variable number_to_string : number -> string.
Variable serviceToCanvasId : Record string.
Variable vault_get : option string -> option Canvas.


End Accumulator.


(** * Further properties of the assembler *)

Lemma nth_error_update_nth_same {A} (f : A -> A) l : forall n,
  nth_error (update_nth n f l) n = option_map f (nth_error l n).
Proof.
  induction l as [|x l IH]; intros [|n]; cbn; auto.
Qed.

Lemma nth_error_update_nth_other {A} (f : A -> A) l : forall n m,
  m <> n -> nth_error (update_nth n f l) m = nth_error l m.
Proof.
  induction l as [|x l IH]; intros [|n] [|m] N; cbn; auto; congruence.
Qed.

Lemma update_nth_id {A} (f : A -> A) l : forall n,
  (forall x, nth_error l n = Some x -> f x = x) ->
  update_nth n f l = l.
Proof.
  induction l as [|x l IH]; intros [|n] H; cbn; [reflexivity..| |].
  - now rewrite (H x eq_refl).
  - f_equal. apply IH. exact H.
Qed.

Lemma deref_assign_same r f h :
  deref r (assign_body r f h)
  = option_map
      (fun a => {| audio_id := audio_id a;
                   audio_body := option_map f (audio_body a) |})
      (deref r h).
Proof.
  destruct r as [i j]. unfold deref, assign_body. cbn.
  rewrite nth_error_update_nth_same.
  destruct (nth_error (audio_canvas_items (h_audioCanvas h)) i) as [p|];
    [|reflexivity].
  cbn. apply nth_error_update_nth_same.
Qed.

Lemma deref_assign_other r r' f h :
  r' <> r -> deref r' (assign_body r f h) = deref r' h.
Proof.
  destruct r as [i j], r' as [i' j']. intros N.
  unfold deref, assign_body. cbn.
  destruct (Nat.eq_dec i' i) as [->|Ni].
  - rewrite nth_error_update_nth_same.
    destruct (nth_error (audio_canvas_items (h_audioCanvas h)) i) as [p|];
      [|reflexivity].
    cbn. apply nth_error_update_nth_other. congruence.
  - now rewrite nth_error_update_nth_other.
Qed.

Lemma assign_body_id r f h :
  (forall a b, deref r h = Some a -> audio_body a = Some b -> f b = b) ->
  assign_body r f h = h.
Proof.
  destruct r as [i j]. destruct h as [[cid dur items] oc fam c2s rm mp].
  unfold deref, assign_body. cbn. intros H. do 2 f_equal.
  apply update_nth_id. intros [pid pitems] Hp. cbn. f_equal.
  apply update_nth_id. intros [aid body] Ha. cbn. f_equal.
  destruct body as [b|]; [|reflexivity]. cbn. f_equal.
  apply (H {| audio_id := aid; audio_body := Some b |} b); [|reflexivity].
  rewrite Hp. exact Ha.
Qed.

(** X12: [fixAudio] on a reference to an annotation that has a body
    returns the reference and leaves a store in which that body has
    format "audio/mpeg" and type "Sound", its id and every other
    annotation being as before; applied again it changes nothing.  On a
    missing annotation or a missing body it throws and leaves the store
    as it was. *)
Theorem fixAudio_sets_media_once r h :
  match deref r h with
  | Some {| audio_id := i; audio_body := Some b |} =>
      exists h',
        fixAudio (Some r) h = (Ok r, h')
        /\ deref r h'
           = Some {| audio_id := i; audio_body := Some (set_media b) |}
        /\ (forall r', r' <> r -> deref r' h' = deref r' h)
        /\ fixAudio (Some r) h' = (Ok r, h')
  | _ => fixAudio (Some r) h = (TypeError, h)
  end.
Proof.
  rewrite fixAudio_run.
  destruct (deref r h) as [[i [b|]]|] eqn:E; try reflexivity.
  eexists. split; [reflexivity|].
  assert (D : deref r
                (assign_body r
                   (fun b => {| body_id := body_id b;
                                body_type := Some "Sound";
                                body_format := body_format b |})
                   (assign_body r
                      (fun b => {| body_id := body_id b;
                                   body_type := body_type b;
                                   body_format := Some "audio/mpeg" |}) h))
              = Some {| audio_id := i;
                        audio_body := Some (set_media b) |}).
  { rewrite !deref_assign_same, E. reflexivity. }
  split; [exact D|]. split.
  - intros r' N. now rewrite !deref_assign_other.
  - rewrite fixAudio_run, D. f_equal.
    rewrite (@assign_body_id r
               (fun b => {| body_id := body_id b; body_type := body_type b;
                            body_format := Some "audio/mpeg" |})).
    + apply assign_body_id. intros a0 b0 Ha Hb.
      rewrite D in Ha. injection Ha as <-. cbn in Hb.
      now injection Hb as <-.
    + intros a0 b0 Ha Hb. rewrite D in Ha. injection Ha as <-.
      cbn in Hb. now injection Hb as <-.
Qed.

(** A [map] over a read-only callback, index by index. *)
Lemma map_script_nth {A B} (body : A -> nat -> Script B) l :
  (forall x i, readonly (body x i)) ->
  forall idx h ys,
    fst (map_script body l idx h) = Ok ys ->
    List.length ys = List.length l
    /\ forall k x,
         nth_error l k = Some x ->
         exists y, nth_error ys k = Some y
                   /\ fst (body x (idx + k) h) = Ok y.
Proof.
  intros Hro. induction l as [|x l IH]; intros idx h ys; cbn [map_script].
  - intros [= <-]. split; [reflexivity|]. intros [|k] x; discriminate.
  - rewrite bind_readonly by auto.
    destruct (fst (body x idx h)) as [y|] eqn:Ey; [|discriminate].
    rewrite bind_readonly by auto with readonly.
    destruct (fst (map_script body l (S idx) h)) as [ys'|] eqn:Em;
      [|discriminate].
    intros [= <-]. destruct (IH _ _ _ Em) as [Hlen Hnth]. split.
    + cbn. now rewrite Hlen.
    + intros [|k] x'; cbn [nth_error].
      * intros [= <-]. exists y. now rewrite Nat.add_0_r.
      * intros Hx. destruct (Hnth _ _ Hx) as (y' & Hy' & Hb).
        exists y'. split; [exact Hy'|].
        now rewrite Nat.add_succ_r.
Qed.

(** A [map] over a read-only callback succeeds exactly when the callback
    succeeds on every element. *)
Lemma map_script_succeeds {A B} (P : A -> Prop)
    (body : A -> nat -> Script B) l h :
  (forall x i, readonly (body x i)) ->
  (forall x i, (exists y, fst (body x i h) = Ok y) <-> P x) ->
  forall idx,
    (exists ys, fst (map_script body l idx h) = Ok ys) <-> Forall P l.
Proof.
  intros Hro HP. induction l as [|x l IH]; intros idx; cbn [map_script].
  - split; [constructor|]. intros _. now exists [].
  - rewrite bind_readonly by auto.
    destruct (fst (body x idx h)) as [y|] eqn:Ey.
    + rewrite bind_readonly by auto with readonly.
      destruct (fst (map_script body l (S idx) h)) as [ys|] eqn:Em.
      * split; [|intros _; now eexists].
        intros _. constructor.
        -- apply (HP x idx). now exists y.
        -- apply (IH (S idx)). rewrite Em. now exists ys.
      * split; [intros [ys [=]]|].
        intros HF. inversion HF as [|? ? _ Hl]; subst.
        apply (IH (S idx)) in Hl. rewrite Em in Hl.
        destruct Hl as [ys [=]].
    + split; [intros [ys [=]]|].
      intros HF. inversion HF as [|? ? Hx _]; subst.
      apply (HP x idx) in Hx. rewrite Ey in Hx. destruct Hx as [y [=]].
Qed.

(** A [map] whose callback reads one property that must be defined. *)
Lemma map_script_read_nth {A B C} (f : A -> Heap -> option B)
    (g : A -> nat -> B -> C) l :
  forall idx h ys,
    fst (map_script
           (fun x i =>
              bind_script (read_defined (f x))
                (fun r => ret (g x i r))) l idx h)
    = Ok ys ->
    List.length ys = List.length l
    /\ forall k x,
         nth_error l k = Some x ->
         exists r, f x h = Some r
                   /\ nth_error ys k = Some (g x (idx + k) r).
Proof.
  intros idx h ys H.
  apply map_script_nth in H; [|auto with readonly].
  destruct H as [Hlen Hnth]. split; [exact Hlen|].
  intros k x Hx. destruct (Hnth k x Hx) as (y & Hy & Hb).
  unfold bind_script, read_defined, ret in Hb.
  destruct (f x h) as [r|]; cbn in Hb; [|discriminate].
  injection Hb as <-. now exists r.
Qed.

Lemma map_script_read_succeeds {A B C} (f : A -> Heap -> option B)
    (g : A -> nat -> B -> C) l idx h :
  (exists ys,
     fst (map_script
            (fun x i =>
              bind_script (read_defined (f x))
                (fun r => ret (g x i r))) l idx h)
     = Ok ys)
  <-> Forall (fun x => f x h <> None) l.
Proof.
  apply map_script_succeeds; [auto with readonly|].
  intros x i. unfold bind_script, read_defined, ret.
  destruct (f x h) as [r|]; cbn.
  - split; [discriminate|]. intros _. now eexists.
  - split; [intros [y [=]]|congruence].
Qed.

Section AssemblerMore.

Variable number_to_string : number -> string.

Lemma resource_of_with_audio_media c h :
  resource_of c (with_audio_media h) = resource_of c h.
Proof. reflexivity. Qed.

(** What a successful run of the assembler read and returned. *)
Lemma newManifest_ok h m :
  fst (newManifest number_to_string h) = Ok m ->
  exists page widths heights images,
    nth_error (audio_canvas_items (h_audioCanvas h)) 0 = Some page
    /\ has_first_audio (h_audioCanvas h)
    /\ (List.length widths = List.length (h_orderedCanvases h)
        /\ forall k c,
             nth_error (h_orderedCanvases h) k = Some c ->
             exists r, resource_of c h = Some r
                       /\ nth_error widths k = Some (resource_width r))
    /\ (List.length heights = List.length (h_orderedCanvases h)
        /\ forall k c,
             nth_error (h_orderedCanvases h) k = Some c ->
             exists r, resource_of c h = Some r
                       /\ nth_error heights k = Some (resource_height r))
    /\ (List.length images = List.length (h_orderedCanvases h)
        /\ forall k c,
             nth_error (h_orderedCanvases h) k = Some c ->
             exists r, resource_of c h = Some r
                       /\ nth_error images k
                          = Some (page_painting number_to_string
                                    (audio_canvas_id (h_audioCanvas h))
                                    k c r))
    /\ (List.length (manifest_annotations m)
        = List.length (h_filteredAnnotationMapping h)
        /\ forall k s,
             nth_error (h_filteredAnnotationMapping h) k = Some s ->
             exists item,
               get (seg_id s) (h_mapping h) = Some item
               /\ nth_error (manifest_annotations m) k
                  = Some (note_highlight number_to_string (page_id page)
                            s item))
    /\ m = {| manifest_canvas_id := audio_canvas_id (h_audioCanvas h);
              manifest_duration := duration (h_audioCanvas h);
              manifest_width := math_max widths;
              manifest_height := math_max heights;
              manifest_page_id := page_id page;
              manifest_items := AudioItem (0, 0) :: map ImageItem images;
              manifest_annotations := manifest_annotations m |}.
Proof.
  unfold newManifest.
  rewrite bind_readonly by auto with readonly. cbn [read fst].
  rewrite bind_readonly by auto with readonly. cbn [read fst].
  rewrite bind_readonly by auto 6 with readonly.
  destruct (fst (map_script _ (h_orderedCanvases h) 0 h)) as [widths|]
    eqn:Ew; [|discriminate].
  rewrite bind_readonly by auto 6 with readonly.
  destruct (fst (map_script _ (h_orderedCanvases h) 0 h)) as [heights|]
    eqn:Eh in |- *; [|discriminate].
  rewrite bind_readonly by auto with readonly. cbn [read fst].
  rewrite bind_readonly by auto with readonly. cbn [read_defined fst].
  destruct (nth_error (audio_canvas_items (h_audioCanvas h)) 0)
    as [page|] eqn:Epage; cbn [defined]; [|discriminate].
  unfold bind_script at 1. rewrite fixAudio_run.
  destruct (page_items page) as [|a rest] eqn:Eitems; [discriminate|].
  unfold deref. cbn [fst snd]. rewrite Epage, Eitems. cbn [nth_error].
  destruct a as [aid [b|]]; [|discriminate].
  rewrite (@fixAudio_first_annotation h page _ rest Epage Eitems).
  set (h2 := with_audio_media h).
  rewrite bind_readonly by auto 6 with readonly.
  destruct (fst (map_script _ (h_orderedCanvases h) 0 h2)) as [images|]
    eqn:Ei; [|discriminate].
  rewrite bind_readonly by auto 6 with readonly.
  destruct (fst (map_script _ (h_filteredAnnotationMapping h) 0 h2))
    as [highlights|] eqn:El; [|discriminate].
  cbn [ret fst]. intros [= <-]. cbn [manifest_annotations].
  exists page, widths, heights, images.
  split; [reflexivity|]. split.
  { exists page, {| audio_id := aid; audio_body := Some b |}, rest, b.
    now rewrite Epage. }
  split.
  { exact (map_script_read_nth resource_of
             (fun _ _ r => resource_width r) _ _ _ Ew). }
  split.
  { exact (map_script_read_nth resource_of
             (fun _ _ r => resource_height r) _ _ _ Eh). }
  split.
  { exact (map_script_read_nth resource_of
             (fun c idx r =>
                page_painting number_to_string
                  (audio_canvas_id (h_audioCanvas h)) idx c r)
             _ _ _ Ei). }
  split; [|reflexivity].
  exact (map_script_read_nth
           (fun s h => get (seg_id s) (h_mapping h))
           (fun s _ item =>
              note_highlight number_to_string (page_id page) s item)
           _ _ _ El).
Qed.

(** The assembler does not throw on a store that has what it reads. *)
Lemma newManifest_succeeds h :
  assemblable h ->
  exists m, fst (newManifest number_to_string h) = Ok m.
Proof.
  intros (Hp & (page & a & rest & b & Epage & Eitems & Eb) & Hn).
  unfold newManifest.
  rewrite bind_readonly by auto with readonly. cbn [read fst].
  rewrite bind_readonly by auto with readonly. cbn [read fst].
  rewrite bind_readonly by auto 6 with readonly.
  destruct (proj2 (map_script_read_succeeds resource_of
                     (fun _ _ r => resource_width r)
                     (h_orderedCanvases h) 0 h) Hp) as [widths Ew].
  cbv beta in Ew. rewrite Ew.
  rewrite bind_readonly by auto 6 with readonly.
  destruct (proj2 (map_script_read_succeeds resource_of
                     (fun _ _ r => resource_height r)
                     (h_orderedCanvases h) 0 h) Hp) as [heights Eh].
  cbv beta in Eh. rewrite Eh.
  rewrite bind_readonly by auto with readonly. cbn [read fst].
  rewrite bind_readonly by auto with readonly. cbn [read_defined fst].
  rewrite Epage. cbn [defined].
  unfold bind_script at 1. rewrite fixAudio_run. rewrite Eitems.
  unfold deref. cbn [fst snd]. rewrite Epage, Eitems. cbn [nth_error].
  destruct a as [aid body]. cbn in Eb. subst body.
  rewrite (@fixAudio_first_annotation h page _ rest Epage Eitems).
  set (h2 := with_audio_media h).
  rewrite bind_readonly by auto 6 with readonly.
  destruct (proj2 (map_script_read_succeeds resource_of
                     (fun c idx r =>
                        page_painting number_to_string
                          (audio_canvas_id (h_audioCanvas h)) idx c r)
                     (h_orderedCanvases h) 0 h2) Hp) as [images Ei].
  cbv beta in Ei. unfold page_painting in Ei. rewrite Ei.
  rewrite bind_readonly by auto 6 with readonly.
  destruct (proj2 (map_script_read_succeeds
                     (fun s h => get (seg_id s) (h_mapping h))
                     (fun s _ item =>
                        note_highlight number_to_string (page_id page)
                          s item)
                     (h_filteredAnnotationMapping h) 0 h2) Hn)
    as [highlights El].
  cbv beta in El. unfold note_highlight in El. rewrite El.
  cbn [ret fst]. now eexists.
Qed.

End AssemblerMore.

(** ** [Math.max] over a list *)

Lemma max_NegInf x : Num.max NegInf x = x.
Proof. now destruct x. Qed.

Lemma max_choice x y : Num.max x y = x \/ Num.max x y = y.
Proof.
  unfold Num.max.
  destruct x as [| | |a], y as [| | |b]; auto;
    match goal with |- context [Num.ltb ?u ?v] => destruct (Num.ltb u v) end;
    auto.
Qed.

Lemma fold_max_In l : forall a,
  In (fold_left Num.max l a) (a :: l).
Proof.
  induction l as [|x l IH]; intros a; cbn [fold_left]; [now left|].
  destruct (IH (Num.max a x)) as [E|I].
  - rewrite <- E. destruct (max_choice a x) as [M|M]; rewrite M.
    + left. reflexivity.
    + right. left. reflexivity.
  - right. right. exact I.
Qed.

Lemma math_max_In x l : In (math_max (x :: l)) (x :: l).
Proof.
  unfold math_max. cbn [fold_left]. rewrite max_NegInf. apply fold_max_In.
Qed.

Lemma fold_max_NaN l : fold_left Num.max l NaN = NaN.
Proof. induction l as [|x l IH]; [reflexivity|exact IH]. Qed.

Lemma max_NaN x y : Num.max x y <> NaN -> x <> NaN /\ y <> NaN.
Proof. destruct x, y; cbn; intros H; split; congruence. Qed.

Lemma fold_max_upper l : forall a,
  fold_left Num.max l a <> NaN ->
  a <> NaN
  /\ Num.le a (fold_left Num.max l a)
  /\ forall x, In x l -> Num.le x (fold_left Num.max l a).
Proof.
  induction l as [|x l IH]; intros a; cbn [fold_left]; intros H.
  - split; [exact H|]. split; [now apply le_refl|]. intros x [].
  - destruct (IH _ H) as (Hm & Hle & Hl).
    destruct (max_NaN _ _ Hm) as [Ha Hx].
    destruct (max_spec Ha Hx) as (_ & La & Lx).
    split; [exact Ha|]. split.
    + exact (NumFacts.le_trans La Hle).
    + intros y [<-|Hy]; [exact (NumFacts.le_trans Lx Hle)|now apply Hl].
Qed.

Lemma math_max_upper l x :
  In x l -> math_max l = NaN \/ Num.le x (math_max l).
Proof.
  intros Hin. unfold math_max.
  destruct (fold_left Num.max l NegInf) as [| | |q] eqn:E; [now left|..];
    right; rewrite <- E; apply fold_max_upper; [rewrite E|exact Hin
                                                |rewrite E|exact Hin
                                                |rewrite E|exact Hin];
    discriminate.
Qed.

Lemma math_max_NaN l : math_max l = NaN -> In NaN l.
Proof.
  destruct l as [|x l]; [discriminate|].
  intros E. rewrite <- E. apply math_max_In.
Qed.

Lemma nth_error_Forall {A} (P : A -> Prop) l :
  (forall k x, nth_error l k = Some x -> P x) -> Forall P l.
Proof.
  intros H. apply Forall_forall. intros x Hin.
  destruct (In_nth_error _ _ Hin) as [k Hk]. exact (H k x Hk).
Qed.

Lemma nth_error_defined {A B} (l : list A) (l' : list B) k y :
  List.length l' = List.length l ->
  nth_error l' k = Some y -> exists x, nth_error l k = Some x.
Proof.
  intros Hlen Hy.
  assert (Hk : k < List.length l).
  { rewrite <- Hlen. apply nth_error_Some. congruence. }
  apply nth_error_Some in Hk.
  destruct (nth_error l k) as [x|]; [now exists x|congruence].
Qed.

Section AssemblerResults.

Variable number_to_string : number -> string.

(** X13: the assembler produces a document exactly when every page
    segment has a resource ([resourceMap[canvasToServiceId[c.id]]] is
    defined), the audio canvas has a first annotation page whose first
    annotation has a body, and every note segment has a record in the
    mapping; otherwise it throws. *)
Theorem assembler_succeeds_iff h :
  (exists m, fst (newManifest number_to_string h) = Ok m)
  <-> assemblable h.
Proof.
  split.
  - intros [m Hm].
    destruct (newManifest_ok _ _ Hm)
      as (page & widths & heights & images & _ & Ha & [_ Hw] & _ & _
          & [_ Hn] & _).
    split; [|split; [exact Ha|]].
    + apply nth_error_Forall. intros k c Hc.
      destruct (Hw k c Hc) as (r & -> & _). discriminate.
    + apply nth_error_Forall. intros k s Hs.
      destruct (Hn k s Hs) as (item & -> & _). discriminate.
  - apply newManifest_succeeds.
Qed.

(** X14: in a document the assembler returns, the canvas id and the
    duration are those of the audio canvas, the first item of the page is
    the audio annotation [items[0].items[0]] itself, and after it comes
    one painting annotation per page segment, in the order of the
    segments: the one at index k has the id ending in k, the resource of
    the page as its only body, and a target over the full resource for
    the time of the segment. *)
Theorem assembler_paints_pages_in_order h m :
  fst (newManifest number_to_string h) = Ok m ->
  manifest_canvas_id m = audio_canvas_id (h_audioCanvas h)
  /\ manifest_duration m = duration (h_audioCanvas h)
  /\ nth_error (manifest_items m) 0 = Some (AudioItem (0, 0))
  /\ List.length (manifest_items m) = S (List.length (h_orderedCanvases h))
  /\ forall k c,
       nth_error (h_orderedCanvases h) k = Some c ->
       exists r,
         resource_of c h = Some r
         /\ nth_error (manifest_items m) (S k)
            = Some (ImageItem
                      (page_painting number_to_string
                         (audio_canvas_id (h_audioCanvas h)) k c r)).
Proof.
  intros Hm.
  destruct (newManifest_ok _ _ Hm)
    as (page & widths & heights & images & _ & _ & _ & _ & [Hlen Hi]
        & _ & ->).
  cbn [manifest_canvas_id manifest_duration manifest_items nth_error].
  split; [reflexivity|]. split; [reflexivity|]. split; [reflexivity|].
  split.
  - cbn [List.length]. now rewrite length_map, Hlen.
  - intros k c Hc. destruct (Hi k c Hc) as (r & Hr & Hk).
    exists r. split; [exact Hr|].
    rewrite nth_error_map, Hk. reflexivity.
Qed.

(** X15: the width of the assembled canvas is [Math.max] over the
    resources of the page segments: with no page segment it is
    -Infinity; otherwise it is the width of the resource of some page
    segment, and it is NaN or at least the width of every such resource.
    The same holds for the height. *)
Theorem assembled_size_is_largest_page h m :
  fst (newManifest number_to_string h) = Ok m ->
  (h_orderedCanvases h = [] ->
   manifest_width m = NegInf /\ manifest_height m = NegInf)
  /\ (h_orderedCanvases h <> [] ->
      (exists c r, In c (h_orderedCanvases h) /\ resource_of c h = Some r
                   /\ resource_width r = manifest_width m)
      /\ (exists c r, In c (h_orderedCanvases h)
                      /\ resource_of c h = Some r
                      /\ resource_height r = manifest_height m))
  /\ (forall c r,
        In c (h_orderedCanvases h) -> resource_of c h = Some r ->
        (manifest_width m = NaN
         \/ Num.le (resource_width r) (manifest_width m))
        /\ (manifest_height m = NaN
            \/ Num.le (resource_height r) (manifest_height m))).
Proof.
  intros Hm.
  destruct (newManifest_ok _ _ Hm)
    as (page & widths & heights & images & _ & _ & [Lw Hw] & [Lh Hh] & _
        & _ & ->).
  cbn [manifest_width manifest_height].
  assert (attained :
    forall (values : list number) (f : Resource -> number),
      List.length values = List.length (h_orderedCanvases h) ->
      (forall k c,
         nth_error (h_orderedCanvases h) k = Some c ->
         exists r, resource_of c h = Some r
                   /\ nth_error values k = Some (f r)) ->
      h_orderedCanvases h <> [] ->
      exists c r, In c (h_orderedCanvases h) /\ resource_of c h = Some r
                  /\ f r = math_max values).
  { intros values f Hlen Hnth Hne.
    destruct values as [|v values].
    { destruct (h_orderedCanvases h); [congruence|discriminate]. }
    destruct (In_nth_error _ _ (math_max_In v values)) as [k Hk].
    destruct (@nth_error_defined _ _ (h_orderedCanvases h) _ _ _ Hlen Hk)
      as [c Hc].
    destruct (Hnth k c Hc) as (r & Hr & Hv).
    exists c, r. split; [exact (nth_error_In _ _ Hc)|].
    split; [exact Hr|congruence]. }
  assert (bound :
    forall (values : list number) (f : Resource -> number),
      (forall k c,
         nth_error (h_orderedCanvases h) k = Some c ->
         exists r, resource_of c h = Some r
                   /\ nth_error values k = Some (f r)) ->
      forall c r,
        In c (h_orderedCanvases h) -> resource_of c h = Some r ->
        math_max values = NaN \/ Num.le (f r) (math_max values)).
  { intros values f Hnth c r Hin Hr.
    destruct (In_nth_error _ _ Hin) as [k Hc].
    destruct (Hnth k c Hc) as (r' & Hr' & Hv).
    assert (r' = r) by congruence. subst r'.
    apply math_max_upper. exact (nth_error_In _ _ Hv). }
  split; [|split].
  - intros E. rewrite E in Lw, Lh.
    destruct widths; [|discriminate]. destruct heights; [|discriminate].
    split; reflexivity.
  - intros Hne. split.
    + exact (attained widths resource_width Lw Hw Hne).
    + exact (attained heights resource_height Lh Hh Hne).
  - intros c r Hin Hr. split.
    + exact (bound widths resource_width Hw c r Hin Hr).
    + exact (bound heights resource_height Hh c r Hin Hr).
Qed.

(** X16: a highlight is made for each note segment, in the order of the
    segments: it carries the selector stored in the record of its note,
    the time of the segment as its temporal fragment, and the first
    annotation page of the audio canvas as its source. *)
Theorem assembler_highlights_notes_in_order h m :
  fst (newManifest number_to_string h) = Ok m ->
  List.length (manifest_annotations m)
  = List.length (h_filteredAnnotationMapping h)
  /\ forall k s,
       nth_error (h_filteredAnnotationMapping h) k = Some s ->
       exists page item,
         nth_error (audio_canvas_items (h_audioCanvas h)) 0 = Some page
         /\ get (seg_id s) (h_mapping h) = Some item
         /\ nth_error (manifest_annotations m) k
            = Some (note_highlight number_to_string (page_id page) s item).
Proof.
  intros Hm.
  destruct (newManifest_ok _ _ Hm)
    as (page & widths & heights & images & Epage & _ & _ & _ & _
        & [Hlen Hn] & _).
  split; [exact Hlen|].
  intros k s Hs. destruct (Hn k s Hs) as (item & Hitem & Hk).
  now exists page, item.
Qed.

(** X17: the audio canvas that a successful run of the assembler leaves
    in the store passes the audio check of the interactive generator,
    whatever the type and the format of its first body were before. *)
Theorem assembled_canvas_has_audio h m :
  fst (newManifest number_to_string h) = Ok m ->
  hasAudioContent
    (h_audioCanvas (snd (newManifest number_to_string h))) = true.
Proof.
  intros Hm. pose proof (newManifest_run number_to_string h) as Hrun.
  destruct (newManifest_ok _ _ Hm)
    as (page & _ & _ & _ & _ & (page' & a & rest & b & Ep & Ei & Eb) & _).
  destruct (newManifest number_to_string h) as [[m'|] h'];
    cbn [fst snd] in *; [|discriminate].
  destruct Hrun as [-> _].
  unfold hasAudioContent, with_audio_media. cbn [h_audioCanvas
    audio_canvas_items].
  destruct (audio_canvas_items (h_audioCanvas h)) as [|p ps];
    [discriminate|].
  cbn in Ep. injection Ep as ->.
  cbn [existsb page_items]. rewrite Ei. cbn [existsb].
  unfold is_audio_annotation. cbn [audio_body]. rewrite Eb.
  reflexivity.
Qed.

End AssemblerResults.

Lemma assembler_paints_pages_in_order_witness :
  fst (newManifest sample_number_to_string sample_store)
  = Ok sample_manifest
  /\ nth_error (manifest_items sample_manifest) 1
     = Some (ImageItem
               {| painting_id := "https://example/image-anno/0";
                  painting_body :=
                    [ {| resource_id := "https://example.org/f2/full.jpg";
                         resource_width := Num.of_Z 4512;
                         resource_height := Num.of_Z 6174 |} ];
                  painting_target :=
                    "https://example.org/canvas/1#xywh=0,0,0,0&t=0,0" |}).
Proof.
  assert (H : fst (newManifest sample_number_to_string sample_store)
              = Ok sample_manifest) by (vm_compute; reflexivity).
  split; [exact H|].
  destruct (assembler_paints_pages_in_order _ _ H)
    as (_ & _ & _ & _ & Hk).
  destruct (h_orderedCanvases sample_store) as [|c pages] eqn:E;
    [discriminate E|].
  destruct (Hk 0 c eq_refl) as (r & Hr & Hitem).
  rewrite Hitem. injection E as <- _.
  vm_compute in Hr. injection Hr as <-. reflexivity.
Defined.

Lemma assembled_size_is_largest_page_witness :
  fst (newManifest sample_number_to_string sample_store)
  = Ok sample_manifest
  /\ manifest_width sample_manifest = Num.of_Z 4512
  /\ manifest_height sample_manifest = Num.of_Z 6174.
Proof.
  assert (H : fst (newManifest sample_number_to_string sample_store)
              = Ok sample_manifest) by (vm_compute; reflexivity).
  split; [exact H|].
  destruct (assembled_size_is_largest_page _ _ H) as (_ & Hne & _).
  destruct Hne as [(c & r & Hc & Hr & <-) (c' & r' & Hc' & Hr' & <-)];
    [discriminate|].
  vm_compute in Hc, Hc'.
  destruct Hc as [<-|[]], Hc' as [<-|[]].
  vm_compute in Hr, Hr'. injection Hr as <-. injection Hr' as <-.
  split; reflexivity.
Defined.

Lemma assembler_highlights_notes_in_order_witness :
  fst (newManifest sample_number_to_string sample_store)
  = Ok sample_manifest
  /\ List.length (manifest_annotations sample_manifest) = 1.
Proof.
  assert (H : fst (newManifest sample_number_to_string sample_store)
              = Ok sample_manifest) by (vm_compute; reflexivity).
  split; [exact H|].
  destruct (assembler_highlights_notes_in_order _ _ H) as [-> _].
  reflexivity.
Defined.

Lemma assembled_canvas_has_audio_witness :
  fst (newManifest sample_number_to_string sample_heap)
  = Ok {| manifest_canvas_id := "https://example.org/canvas/1";
          manifest_duration := Num.of_Z 240;
          manifest_width := NegInf;
          manifest_height := NegInf;
          manifest_page_id := "https://example.org/page/1";
          manifest_items := [AudioItem (0, 0)];
          manifest_annotations := [] |}
  /\ hasAudioContent
       (h_audioCanvas
          (snd (newManifest sample_number_to_string sample_heap))) = true.
Proof.
  assert (H : fst (newManifest sample_number_to_string sample_heap)
              = Ok {| manifest_canvas_id := "https://example.org/canvas/1";
                      manifest_duration := Num.of_Z 240;
                      manifest_width := NegInf;
                      manifest_height := NegInf;
                      manifest_page_id := "https://example.org/page/1";
                      manifest_items := [AudioItem (0, 0)];
                      manifest_annotations := [] |})
    by (vm_compute; reflexivity).
  split; [exact H|].
  exact (assembled_canvas_has_audio _ _ H).
Defined.

(** * The tables built from the image manifest *)

Lemma get_Some_keys {V} k (v : V) r : get k r = Some v -> In k (keys r).
Proof.
  intros H. destruct (in_dec string_dec k (keys r)) as [I|N]; [exact I|].
  apply get_None_keys in N. congruence.
Qed.

Lemma keys_get_defined {V} k (r : Record V) : In k (keys r) -> get k r <> None.
Proof. intros I E. apply get_None_keys in E. contradiction. Qed.

Lemma get_set_defined {V} k k' (v : V) r :
  get k' r <> None -> get k' (set k v r) <> None.
Proof.
  intros H. destruct (String.eqb_spec k' k) as [->|N].
  - rewrite get_set_same. discriminate.
  - now rewrite get_set_other.
Qed.

Lemma register_canvas_run t canvas t' :
  register_canvas t canvas = Ok t' ->
  exists image,
    image_painted canvas = Some image
    /\ t' = match image_service image with
            | Some serviceId =>
                {| t_serviceToCanvasId :=
                     set serviceId (image_canvas_id canvas)
                       (t_serviceToCanvasId t);
                   t_canvasToServiceId :=
                     set (image_canvas_id canvas) serviceId
                       (t_canvasToServiceId t);
                   t_resourceMap :=
                     set serviceId (image_resource image)
                       (t_resourceMap t) |}
            | None => t
            end.
Proof.
  unfold register_canvas.
  destruct (image_painted canvas) as [image|]; cbn [defined bind];
    [|discriminate].
  intros H. exists image. split; [reflexivity|].
  destruct (image_service image); now injection H as <-.
Qed.

(** The loop keeps the three tables closed under look-up. *)
Lemma build_tables_closed items t :
  build_tables items = Ok t -> tables_closed t.
Proof.
  unfold build_tables.
  apply (for_each_invariant tables_closed).
  - intros t0 canvas t1 [H1 H2] Hr.
    destruct (register_canvas_run _ _ Hr) as (image & _ & ->).
    destruct (image_service image) as [s|]; [|now split].
    split; cbn [t_serviceToCanvasId t_canvasToServiceId t_resourceMap].
    + intros s0 c0. destruct (String.eqb_spec s0 s) as [->|N].
      * rewrite !get_set_same. intros [= <-]. rewrite get_set_same.
        split; discriminate.
      * rewrite get_set_other by assumption. intros Hg.
        destruct (H1 _ _ Hg) as [Hc Hs].
        split; now apply get_set_defined.
    + intros c0 s0.
      destruct (String.eqb_spec c0 (image_canvas_id canvas)) as [->|N].
      * rewrite get_set_same. intros [= <-]. rewrite get_set_same.
        discriminate.
      * rewrite get_set_other by assumption. intros Hg.
        apply get_set_defined. exact (H2 _ _ Hg).
  - split; intros ? ?; discriminate.
Qed.

(** The loop on pages with distinct ids, none of them in the table of
    pages yet. *)
Lemma build_tables_loop (P : ImageCanvas -> Prop) items : forall t t',
  for_each register_canvas items t = Ok t' ->
  (forall canvas, In canvas items -> P canvas) ->
  NoDup (map image_canvas_id items) ->
  (forall c, In c (keys (t_canvasToServiceId t)) ->
             ~ In c (map image_canvas_id items)) ->
  tables_from P t -> tables_from P t'.
Proof.
  induction items as [|canvas items IH]; intros t t';
    cbn [for_each map].
  - now intros [= <-].
  - destruct (register_canvas t canvas) as [t1|] eqn:Hr; cbn [bind];
      [|discriminate].
    intros Hrest HP Hnd Hfresh Hinv.
    inversion Hnd as [|? ? Hnew Hnd']; subst.
    destruct (register_canvas_run _ _ Hr) as (image & Himage & ->).
    apply (IH _ _ Hrest); [intros x Hx; apply HP; now right|exact Hnd'
                          | |].
    + destruct (image_service image) as [s|].
      * cbn [t_canvasToServiceId]. intros c Hc.
        destruct (keys_set _ _ _ _ Hc) as [->|Hold]; [exact Hnew|].
        intros Hin. apply (Hfresh _ Hold). now right.
      * intros c Hc Hin. apply (Hfresh _ Hc). now right.
    + destruct (image_service image) as [s|] eqn:Hs; [|exact Hinv].
      intros s0 c0.
      cbn [t_serviceToCanvasId t_canvasToServiceId t_resourceMap].
      destruct (String.eqb_spec s0 s) as [->|N].
      * rewrite !get_set_same. intros [= <-]. rewrite get_set_same.
        split; [reflexivity|]. exists canvas, image.
        split; [apply HP; now left|]. now repeat split.
      * rewrite get_set_other by assumption. intros Hg.
        destruct (Hinv _ _ Hg)
          as [Hback (canvas0 & image0 & H1 & H2 & H3 & H4 & H5)].
        split.
        2:{ exists canvas0, image0. repeat (split; [assumption|]).
            now rewrite get_set_other. }
        rewrite get_set_other; [exact Hback|].
        intros ->. apply (Hfresh (image_canvas_id canvas)).
        -- exact (get_Some_keys _ _ Hback).
        -- now left.
Qed.

(** X18: the three tables agree with each other, whatever the image
    manifest: the page recorded for a service has a service of its own,
    and that service has a resource, so the resource of a page that was
    found through [serviceToCanvasId] is always defined. *)
Theorem tables_resolve_every_page items t s c :
  build_tables items = Ok t ->
  get s (t_serviceToCanvasId t) = Some c ->
  exists s' r,
    get c (t_canvasToServiceId t) = Some s'
    /\ get s' (t_resourceMap t) = Some r.
Proof.
  intros H Hg. destruct (build_tables_closed _ H) as [H1 H2].
  destruct (H1 _ _ Hg) as [Hc _].
  destruct (get c (t_canvasToServiceId t)) as [s'|] eqn:Es'; [|congruence].
  pose proof (H2 _ _ Es') as Hs'.
  destruct (get s' (t_serviceToCanvasId t)) as [c'|] eqn:Ec'; [|congruence].
  destruct (H1 _ _ Ec') as [_ Hr].
  destruct (get s' (t_resourceMap t)) as [r|] eqn:Er; [|congruence].
  now exists s', r.
Qed.

(** X19: when the pages of the image manifest have distinct ids, the two
    id tables are round trips of each other from the service side:
    [canvasToServiceId[serviceToCanvasId[s]]] is [s], and the page and
    the resource recorded for [s] are those of one page of the manifest
    whose first image has the service [s]. *)
Theorem tables_round_trip items t s c :
  build_tables items = Ok t ->
  NoDup (map image_canvas_id items) ->
  get s (t_serviceToCanvasId t) = Some c ->
  get c (t_canvasToServiceId t) = Some s
  /\ exists canvas image,
       In canvas items /\ image_canvas_id canvas = c
       /\ image_painted canvas = Some image
       /\ image_service image = Some s
       /\ get s (t_resourceMap t) = Some (image_resource image).
Proof.
  intros H Hnd Hg.
  refine (@build_tables_loop (fun canvas => In canvas items) items
            no_tables t H (fun _ I => I) Hnd _ _ s c Hg).
  - intros c0 [].
  - intros s0 c0. discriminate.
Qed.

(** X20: the loop that builds the tables throws exactly when some page
    of the image manifest has no first painted image. *)
Theorem build_tables_succeeds_iff items :
  (exists t, build_tables items = Ok t)
  <-> Forall (fun canvas => image_painted canvas <> None) items.
Proof.
  unfold build_tables. generalize no_tables.
  induction items as [|canvas items IH]; intros t; cbn [for_each].
  - split; [constructor|]. intros _. now exists t.
  - unfold register_canvas at 1.
    destruct (image_painted canvas) as [image|] eqn:E; cbn [defined bind].
    + destruct (image_service image); cbn [bind]; rewrite IH;
        (split; [intros HF; constructor; [congruence|exact HF]
                |intros HF; now inversion HF]).
    + split; [intros [t' Ht']; discriminate Ht'|].
      intros HF. inversion HF. congruence.
Qed.

Lemma tables_resolve_every_page_witness :
  exists s' r,
    get "https://example.org/canvas/f2" (t_canvasToServiceId sample_tables)
    = Some s'
    /\ get s' (t_resourceMap sample_tables) = Some r.
Proof.
  apply (@tables_resolve_every_page sample_image_canvases sample_tables
           "https://example.org/f2" "https://example.org/canvas/f2");
    reflexivity.
Defined.

Lemma tables_round_trip_witness :
  get "https://example.org/canvas/f2" (t_canvasToServiceId sample_tables)
  = Some "https://example.org/f2".
Proof.
  refine (proj1 (@tables_round_trip sample_image_canvases sample_tables
                   "https://example.org/f2" "https://example.org/canvas/f2"
                   eq_refl _ eq_refl)).
  repeat constructor; cbn; intuition discriminate.
Defined.

(** * The whole script *)


Section WholeScript.

Variable number_to_string : number -> string.
Variable vault_get : option string -> option Canvas.

(** The pages of the accumulator are pages that [serviceToCanvasId]
    leads to. *)
Lemma accumulator_pages serviceToCanvasId imageAnnotations m st :
  vault_by_id vault_get ->
  image_pass number_to_string serviceToCanvasId vault_get
    imageAnnotations m = Ok st ->
  forall c, In c (keys (canvasMinMax st)) ->
            exists s, get s serviceToCanvasId = Some c.
Proof.
  intros Hv.
  apply (@image_pass_invariant number_to_string serviceToCanvasId vault_get
           (fun st => forall c, In c (keys (canvasMinMax st)) ->
                                exists s, get s serviceToCanvasId = Some c)).
  - intros id st0 record a src sel value canvas _ Hinv _ _ _ _ Hc c.
    unfold image_update. cbn [canvasMinMax]. intros Hin.
    destruct (keys_set _ _ _ _ Hin) as [->|Hold]; [|now apply Hinv].
    exists src. exact (Hv _ _ Hc).
  - intros c [].
Qed.

(** Every selector in the mapping was made by [toSvg] for a page of the
    vault. *)
Lemma joined_selectors serviceToCanvasId imageAnnotations m st :
  Forall (fun '(_, r) => svgSelector r = None) m ->
  image_pass number_to_string serviceToCanvasId vault_get
    imageAnnotations m = Ok st ->
  Forall (fun '(_, r) =>
            svgSelector r = None
            \/ polygon_selector number_to_string vault_get (svgSelector r))
    (mapping st).
Proof.
  intros Hm.
  apply (@image_pass_invariant number_to_string serviceToCanvasId vault_get
           (fun st =>
              Forall (fun '(_, r) =>
                        svgSelector r = None
                        \/ polygon_selector number_to_string vault_get
                             (svgSelector r))
                (mapping st))).
  - intros id st0 record a src sel value canvas _ Hinv _ _ _ _ Hc.
    unfold image_update. cbn [mapping].
    apply Forall_set; [exact Hinv|]. right.
    exists (get src serviceToCanvasId), canvas, value.
    split; [exact Hc|reflexivity].
  - cbn [mapping]. revert Hm. apply Forall_impl.
    intros [k r] H. now left.
Qed.

Lemma complete_record_get (m : Record NoteRecord) k :
  NoDup (keys m) ->
  In k (keys (complete_records m)) ->
  exists r, get k m = Some r /\ complete r = true.
Proof.
  intros Hnd Hin. unfold keys in Hin. apply in_map_iff in Hin.
  destruct Hin as ([k' r] & <- & Hin). unfold complete_records in Hin.
  apply filter_In in Hin. destruct Hin as [Hin Hc].
  exists r. split; [now apply In_get|exact Hc].
Qed.

(** X21: with the tables built from the image manifest and a vault that
    returns, for a reference, the object with that id, the script
    produces a document whenever the two scans complete, provided the
    audio canvas has a first annotation with a body; without such an
    annotation it throws. *)
Theorem generate_succeeds_on_built_tables
    items t audioAnnotations imageAnnotations audioCanvas st :
  build_tables items = Ok t ->
  vault_by_id vault_get ->
  join number_to_string (t_serviceToCanvasId t) vault_get
    audioAnnotations imageAnnotations = Ok st ->
  (exists manifest,
     generate number_to_string (t_serviceToCanvasId t) vault_get
       audioAnnotations imageAnnotations audioCanvas
       (t_canvasToServiceId t) (t_resourceMap t) = Ok manifest)
  <-> has_first_audio audioCanvas.
Proof.
  intros Ht Hv Hj. unfold generate. rewrite Hj. cbn [bind].
  rewrite orderCanvasMapping_partition, orderAnnotationMapping_partition.
  cbn [bind]. split.
  - intros [manifest Hm].
    destruct (newManifest_ok _ _ Hm) as (_ & _ & _ & _ & _ & Ha & _).
    exact Ha.
  - intros Ha. apply newManifest_succeeds.
    destruct (join_run _ _ _ _ _ Hj) as (m & _ & Hi).
    split; [|split; [exact Ha|]];
      cbn [h_orderedCanvases h_filteredAnnotationMapping h_mapping].
    + apply Forall_forall. intros c Hc.
      assert (Hid : In (seg_id c) (keys (canvasMinMax st))).
      { rewrite <- canvas_entries_ids.
        eapply Permutation_in; [apply reconciled_ids|].
        now apply in_map. }
      destruct (accumulator_pages _ _ _ Hv Hi _ Hid) as [s Hs].
      destruct (build_tables_closed _ Ht) as [H1 H2].
      destruct (H1 _ _ Hs) as [Hc2s _].
      unfold resource_of. cbn [h_canvasToServiceId h_resourceMap].
      destruct (get (seg_id c) (t_canvasToServiceId t)) as [s'|] eqn:Es';
        [|congruence].
      pose proof (H2 _ _ Es') as Hs'.
      destruct (get s' (t_serviceToCanvasId t)) as [c'|] eqn:Ec';
        [|congruence].
      exact (proj2 (H1 _ _ Ec')).
    + apply Forall_forall. intros s Hs.
      apply keys_get_defined.
      apply note_triples_ids.
      eapply Permutation_in; [apply reconciled_ids|].
      now apply in_map.
Qed.

(** X22: every highlight of a document the script returns has a
    selector, and it is the polygon [toSvg] made for a page of the
    vault; there is one highlight per record of the mapping that has
    both a time range and a selector. *)
Theorem generated_highlights_have_selectors
    serviceToCanvasId audioAnnotations imageAnnotations audioCanvas
    canvasToServiceId resourceMap manifest :
  generate number_to_string serviceToCanvasId vault_get
    audioAnnotations imageAnnotations audioCanvas
    canvasToServiceId resourceMap = Ok manifest ->
  Forall (fun hl =>
            polygon_selector number_to_string vault_get (highlight_svg hl))
    (manifest_annotations manifest)
  /\ exists st,
       join number_to_string serviceToCanvasId vault_get
         audioAnnotations imageAnnotations = Ok st
       /\ List.length (manifest_annotations manifest)
          = List.length (complete_records (mapping st)).
Proof.
  intros H.
  destruct (generate_run _ _ _ _ _ _ _ _ H)
    as (st & pages & notes & Hj & _ & Hn & Hm).
  rewrite orderAnnotationMapping_partition in Hn. injection Hn as <-.
  destruct (newManifest_ok _ _ Hm)
    as (page & _ & _ & _ & _ & _ & _ & _ & _ & [Hlen Hh] & _).
  cbn [assembler_heap h_filteredAnnotationMapping h_mapping] in Hlen, Hh.
  destruct (@join_records _ _ _ _ _ _ Hj) as [Hnd _].
  destruct (join_run _ _ _ _ _ Hj) as (m & Ha & Hi).
  destruct (audio_pass_records _ Ha) as [_ Hall].
  assert (Hsel := @joined_selectors serviceToCanvasId imageAnnotations m st).
  split.
  - apply Forall_forall. intros hl Hin.
    destruct (In_nth_error _ _ Hin) as [k Hk].
    destruct (@nth_error_defined _ _
                (partition (array_sort byOriginalMin
                              (note_triples (mapping st))))
                _ _ _ Hlen Hk) as [s Hs].
    destruct (Hh k s Hs) as (item & Hitem & Hk').
    rewrite Hk in Hk'. injection Hk' as ->. cbn [highlight_svg].
    assert (Hid : In (seg_id s) (keys (complete_records (mapping st)))).
    { rewrite <- note_triples_keys.
      eapply Permutation_in; [apply reconciled_ids|].
      apply in_map. exact (nth_error_In _ _ Hs). }
    destruct (@complete_record_get _ _ Hnd Hid) as (r & Hr & Hc).
    assert (r = item) by congruence. subst r.
    assert (Hs0 : Forall (fun '(_, r) => svgSelector r = None) m).
    { revert Hall. apply Forall_impl.
      intros [k0 r0] [_ (_ & _ & _ & _ & E & _)]. exact E. }
    specialize (Hsel Hs0 Hi). rewrite Forall_forall in Hsel.
    destruct (Hsel _ (get_In _ _ Hitem)) as [E|P]; [|exact P].
    unfold complete in Hc. rewrite E in Hc.
    destruct (audio item); discriminate.
  - exists st. split; [exact Hj|].
    rewrite Hlen, <- (length_map seg_id).
    rewrite (Permutation_length (reconciled_ids _)).
    rewrite note_triples_keys. unfold keys. now rewrite length_map.
Qed.

End WholeScript.

Lemma sample_vault_by_id : vault_by_id sample_vault_get.
Proof.
  intros [ref|] canvas; cbn [sample_vault_get]; [|discriminate].
  destruct (String.eqb ref "https://example.org/canvas/f2");
    [|discriminate].
  now intros [= <-].
Qed.

Lemma generate_succeeds_on_built_tables_witness :
  exists manifest,
    generate sample_number_to_string (t_serviceToCanvasId sample_tables)
      sample_vault_get sample_audio_annotations sample_image_annotations
      (h_audioCanvas sample_heap)
      (t_canvasToServiceId sample_tables) (t_resourceMap sample_tables)
    = Ok manifest.
Proof.
  assert (Ht : build_tables sample_image_canvases = Ok sample_tables)
    by reflexivity.
  assert (Hj : join sample_number_to_string
                 (t_serviceToCanvasId sample_tables) sample_vault_get
                 sample_audio_annotations sample_image_annotations
               = Ok sample_join) by (vm_compute; reflexivity).
  apply (proj2 (@generate_succeeds_on_built_tables
                  sample_number_to_string sample_vault_get
                  sample_image_canvases sample_tables
                  sample_audio_annotations sample_image_annotations
                  (h_audioCanvas sample_heap) sample_join
                  Ht sample_vault_by_id Hj)).
  do 4 eexists. cbn. repeat split.
Defined.

Lemma generated_highlights_have_selectors_witness :
  generate sample_number_to_string (t_serviceToCanvasId sample_tables)
    sample_vault_get sample_audio_annotations sample_image_annotations
    (h_audioCanvas sample_heap)
    (t_canvasToServiceId sample_tables) (t_resourceMap sample_tables)
  = Ok sample_manifest
  /\ Forall (fun hl =>
               polygon_selector sample_number_to_string sample_vault_get
                 (highlight_svg hl))
       (manifest_annotations sample_manifest).
Proof.
  assert (H : generate sample_number_to_string
                (t_serviceToCanvasId sample_tables)
                sample_vault_get sample_audio_annotations
                sample_image_annotations (h_audioCanvas sample_heap)
                (t_canvasToServiceId sample_tables)
                (t_resourceMap sample_tables)
              = Ok sample_manifest) by (vm_compute; reflexivity).
  split; [exact H|].
  exact (proj1 (@generated_highlights_have_selectors _ _ _ _ _ _ _ _ _ H)).
Defined.

(** * Further properties of the fragment parsers *)

Lemma span_digits_spec l : forall ds rest,
  span_digits l = (ds, rest) ->
  l = (ds ++ rest)%list
  /\ forallb is_digit ds = true
  /\ begins_with_digit rest = false.
Proof.
  induction l as [|c l IH]; cbn [span_digits]; intros ds rest.
  - intros [= <- <-]. auto.
  - destruct (is_digit c) eqn:Ec.
    + destruct (span_digits l) as [ds' rest'] eqn:E. intros [= <- <-].
      destruct (IH _ _ eq_refl) as (-> & Hd & Hr).
      cbn [forallb app]. rewrite Ec, Hd. auto.
    + intros [= <- <-]. cbn [app forallb begins_with_digit]. auto.
Qed.

Lemma span_digits_app ds rest :
  forallb is_digit ds = true -> begins_with_digit rest = false ->
  span_digits (ds ++ rest) = (ds, rest).
Proof.
  intros Hd Hr. induction ds as [|c ds IH]; cbn [app].
  - destruct rest as [|c rest]; [reflexivity|].
    cbn [span_digits begins_with_digit] in *. now rewrite Hr.
  - cbn [forallb] in Hd. apply andb_prop in Hd. destruct Hd as [Hc Hd].
    cbn [span_digits]. rewrite Hc, (IH Hd). reflexivity.
Qed.

Lemma point_not_digit : is_digit "."%char = false.
Proof. reflexivity. Qed.

Lemma strip_point l :
  strip_prefix (chars ".") ("."%char :: l) = Some l.
Proof. reflexivity. Qed.

Lemma scan_seconds_spec l rest :
  scan_seconds l = Some rest ->
  exists ip fp,
    ip <> [] /\ forallb is_digit ip = true /\ forallb is_digit fp = true
    /\ l = (literal_chars ip fp ++ rest)%list
    /\ begins_with_digit rest = false.
Proof.
  unfold scan_seconds.
  destruct (span_digits l) as [ip r] eqn:E.
  destruct (span_digits_spec _ E) as (-> & Hip & Hr).
  destruct ip as [|c ip]; [discriminate|].
  destruct (strip_prefix (chars ".") r) as [r'|] eqn:Ep.
  - apply strip_prefix_app in Ep. subst r.
    destruct (span_digits r') as [fp r''] eqn:Ef.
    destruct (span_digits_spec _ Ef) as (-> & Hfp & Hr'').
    destruct fp as [|d fp]; intros [= <-].
    + exists (c :: ip), []. repeat split; try assumption; discriminate.
    + exists (c :: ip), (d :: fp).
      repeat split; try assumption; try discriminate.
      unfold literal_chars. now rewrite <- !app_assoc.
  - intros [= <-]. exists (c :: ip), [].
    repeat split; try assumption; discriminate.
Qed.

Lemma scan_seconds_literal ip fp rest :
  ip <> [] -> forallb is_digit ip = true -> forallb is_digit fp = true ->
  begins_with_digit rest = false ->
  (fp = [] -> strip_prefix (chars ".") rest = None) ->
  scan_seconds (literal_chars ip fp ++ rest) = Some rest.
Proof.
  intros Hne Hip Hfp Hr Hpoint. unfold scan_seconds, literal_chars.
  destruct fp as [|d fp].
  - rewrite (span_digits_app _ _ Hip Hr).
    destruct ip as [|c ip]; [congruence|].
    now rewrite (Hpoint eq_refl).
  - rewrite <- app_assoc.
    change (("."%char :: d :: fp) ++ rest)%list
      with ("."%char :: ((d :: fp) ++ rest))%list.
    rewrite (span_digits_app ip ("."%char :: (d :: fp) ++ rest) Hip)
      by reflexivity.
    destruct ip as [|c ip]; [congruence|].
    rewrite strip_point, (span_digits_app _ _ Hfp Hr). reflexivity.
Qed.

Lemma scan_seconds_app a rest :
  scan_seconds a = Some [] ->
  begins_with_digit rest = false ->
  strip_prefix (chars ".") rest = None ->
  scan_seconds (a ++ rest) = Some rest.
Proof.
  intros Ha Hr Hp.
  destruct (scan_seconds_spec _ Ha) as (ip & fp & Hne & Hip & Hfp & -> & _).
  rewrite app_nil_r. now apply scan_seconds_literal.
Qed.

Lemma consumed_app a rest : consumed (a ++ rest) rest = text a.
Proof.
  unfold consumed. rewrite length_app.
  replace (List.length a + List.length rest - List.length rest)
    with (List.length a + 0) by lia.
  now rewrite firstn_app_2, app_nil_r.
Qed.

Lemma digit_not_space c : is_digit c = true -> is_space c = false.
Proof.
  unfold is_digit, is_space.
  destruct (Nat.leb_spec 48 (nat_of_ascii c)); [|discriminate].
  intros _.
  destruct (Nat.leb_spec (nat_of_ascii c) 13); [lia|].
  rewrite andb_false_r. cbn [orb].
  destruct (Nat.eqb_spec (nat_of_ascii c) 32); [lia|reflexivity].
Qed.

(** [parseFloat] on the literal [ip] or [ip.fp]. *)
Lemma parseFloat_literal ip fp :
  ip <> [] -> forallb is_digit ip = true -> forallb is_digit fp = true ->
  parseFloat (Some (text (literal_chars ip fp)))
  = scale10 (digits_value (ip ++ fp)) (- Z.of_nat (List.length fp)).
Proof.
  intros Hne Hip Hfp. unfold parseFloat. rewrite chars_text.
  destruct ip as [|c ip]; [congruence|].
  cbn [forallb] in Hip. apply andb_prop in Hip. destruct Hip as [Hc Hip].
  assert (Hlit : exists tail,
            literal_chars (c :: ip) fp = c :: (ip ++ tail)%list
            /\ tail = match fp with
                      | [] => []
                      | _ :: _ => "."%char :: fp
                      end).
  { unfold literal_chars. destruct fp; eexists; split; try reflexivity.
    now rewrite app_nil_r. }
  destruct Hlit as (tail & -> & Htail).
  cbn [trim_start]. rewrite (digit_not_space _ Hc).
  unfold scan_decimal.
  rewrite !(digit_is_not _ _ Hc) by reflexivity.
  change (chars "Infinity") with ["I"; "n"; "f"; "i"; "n"; "i"; "t"; "y"]%char.
  rewrite strip_prefix_digit by (reflexivity || assumption).
  cbn [span_digits]. rewrite Hc.
  destruct fp as [|d fp]; subst tail.
  - rewrite app_nil_r.
    rewrite <- (app_nil_r ip) at 1.
    rewrite (span_digits_app ip [] Hip eq_refl).
    cbn [scan_exponent List.length app]. rewrite app_nil_r. reflexivity.
  - rewrite (span_digits_app ip ("."%char :: d :: fp) Hip eq_refl).
    change (Ascii.eqb "." ".") with true. cbv iota.
    rewrite <- (app_nil_r (d :: fp)) at 1.
    rewrite (span_digits_app (d :: fp) [] Hfp eq_refl).
    cbn [scan_exponent]. reflexivity.
Qed.

Lemma digit_value_not_negative c : is_digit c = true -> (0 <= digit_value c)%Z.
Proof.
  unfold is_digit, digit_value.
  destruct (Nat.leb_spec 48 (nat_of_ascii c)); [lia|discriminate].
Qed.

Lemma digits_fold_not_negative ds : forall acc,
  (0 <= acc)%Z -> forallb is_digit ds = true ->
  (0 <= fold_left (fun acc c => 10 * acc + digit_value c) ds acc)%Z.
Proof.
  induction ds as [|c ds IH]; intros acc Hacc; cbn [fold_left].
  - intros _. exact Hacc.
  - cbn [forallb]. intros H. apply andb_prop in H. destruct H as [Hc Hd].
    apply IH; [|exact Hd].
    pose proof (digit_value_not_negative _ Hc). lia.
Qed.

Lemma digits_value_not_negative ds :
  forallb is_digit ds = true -> (0 <= digits_value ds)%Z.
Proof. apply digits_fold_not_negative. lia. Qed.

Lemma scale10_not_negative m e :
  (0 <= m)%Z -> exists q, scale10 m e = Fin q /\ (0 <= q)%Qc.
Proof.
  intros Hm. unfold scale10.
  destruct e as [|p|p]; eexists; (split; [reflexivity|]);
    unfold Qcle; cbn [this Q2Qc]; rewrite !Qred_correct.
  - change 0%Q with (inject_Z 0). rewrite <- Zle_Qle. lia.
  - change 0%Q with (inject_Z 0). rewrite <- Zle_Qle.
    apply Z.mul_nonneg_nonneg; [exact Hm|]. apply Z.pow_nonneg. lia.
  - apply Qle_shift_div_l.
    + change 0%Q with (inject_Z 0). rewrite <- Zlt_Qlt.
      apply Z.pow_pos_nonneg; lia.
    + rewrite Qmult_0_l. change 0%Q with (inject_Z 0).
      now rewrite <- Zle_Qle.
Qed.

Lemma parseFloat_group o :
  seconds_group o -> NaN_or_not_negative (parseFloat o).
Proof.
  intros [->|(ip & fp & Hne & Hip & Hfp & ->)].
  - left. reflexivity.
  - right. rewrite (@parseFloat_literal ip fp Hne Hip Hfp).
    destruct (@scale10_not_negative (digits_value (ip ++ fp))
                (- Z.of_nat (List.length fp))) as (q & -> & Hq).
    + apply digits_value_not_negative.
      rewrite forallb_app, Hip, Hfp. reflexivity.
    + apply NumFacts.leb_Fin. exact Hq.
Qed.

Lemma scan_seconds_group p1 p2 :
  scan_seconds p1 = Some p2 -> seconds_group (Some (consumed p1 p2)).
Proof.
  intros H.
  destruct (scan_seconds_spec _ H) as (ip & fp & Hne & Hip & Hfp & -> & _).
  right. exists ip, fp. rewrite consumed_app. auto.
Qed.

Lemma temporal_groups_seconds post :
  seconds_group (fst (temporal_groups post))
  /\ seconds_group (snd (temporal_groups post)).
Proof.
  unfold temporal_groups.
  destruct (scan_seconds (skip_npt post)) as [p2|] eqn:E3.
  - cbn [fst snd]. split; [exact (@scan_seconds_group _ _ E3)|].
    destruct (strip_prefix (chars ",") p2) as [q|]; [|now left].
    destruct (scan_seconds q) as [p3|] eqn:E6; [|now left].
    exact (@scan_seconds_group _ _ E6).
  - cbn [fst snd]. split; [now left|].
    destruct (strip_prefix (chars ",") (skip_npt post)) as [q|];
      [|now left].
    destruct (scan_seconds q) as [p3|] eqn:E6; [|now left].
    exact (@scan_seconds_group _ _ E6).
Qed.

(** The first occurrence of a pattern. *)
Lemma includes_chars_first a needle s :
  includes_chars (a :: needle) s = true ->
  exists pre post,
    s = (pre ++ (a :: needle) ++ post)%list
    /\ includes_chars (a :: needle) pre = false.
Proof.
  induction s as [|c s IH]; cbn [includes_chars].
  - cbn [strip_prefix]. discriminate.
  - destruct (strip_prefix (a :: needle) (c :: s)) as [rest|] eqn:E.
    + intros _. apply strip_prefix_app in E.
      exists [], rest. split; [exact E|reflexivity].
    + intros H. destruct (IH H) as (pre & post & -> & Hpre).
      exists (c :: pre), post. split; [reflexivity|].
      cbn [includes_chars].
      destruct (strip_prefix (a :: needle) (c :: pre)) as [r|] eqn:Er;
        [|exact Hpre].
      apply strip_prefix_app in Er.
      assert (Hs : strip_prefix (a :: needle)
                     (c :: pre ++ (a :: needle) ++ post)
                   = Some (r ++ (a :: needle) ++ post)%list).
      { apply strip_prefix_app.
        change (c :: pre ++ (a :: needle) ++ post)%list
          with ((c :: pre) ++ (a :: needle) ++ post)%list.
        rewrite Er. now rewrite <- app_assoc. }
      congruence.
Qed.

Lemma begins_with_point_strip l :
  begins_with_point l = false -> strip_prefix (chars ".") l = None.
Proof.
  destruct l as [|c l]; [reflexivity|].
  cbn [begins_with_point]. intros H.
  change (chars ".") with ["."%char]. cbn [strip_prefix].
  rewrite Ascii.eqb_sym, H. reflexivity.
Qed.

Lemma begins_with_digit_app a rest :
  begins_with_digit a = true -> begins_with_digit (a ++ rest) = true.
Proof. destruct a; [discriminate|exact (fun H => H)]. Qed.

Lemma seconds_literal_scan a :
  seconds_literal a = true -> scan_seconds (chars a) = Some [].
Proof.
  unfold seconds_literal.
  destruct (scan_seconds (chars a)) as [[|c r]|]; congruence.
Qed.

Lemma temporal_groups_both npt a b suffix :
  npt = [] \/ npt = chars "npt:" ->
  scan_seconds a = Some [] -> scan_seconds b = Some [] ->
  begins_with_digit suffix = false -> begins_with_point suffix = false ->
  temporal_groups (npt ++ a ++ chars "," ++ b ++ suffix)
  = (Some (text a), Some (text b)).
Proof.
  intros Hnpt Ha Hb Hd Hp. unfold temporal_groups.
  assert (Hskip : skip_npt (npt ++ a ++ chars "," ++ b ++ suffix)
                  = (a ++ chars "," ++ b ++ suffix)%list).
  { unfold skip_npt. destruct Hnpt as [->| ->].
    - cbn [app]. change (chars "npt:") with ["n"; "p"; "t"; ":"]%char.
      rewrite strip_prefix_digit; [reflexivity..|].
      apply begins_with_digit_app. exact (@scan_seconds_digit a [] Ha).
    - now rewrite (proj2 (strip_prefix_app (chars "npt:") _ _) eq_refl). }
  rewrite Hskip.
  rewrite (@scan_seconds_app a (chars "," ++ b ++ suffix) Ha)
    by reflexivity.
  rewrite consumed_app.
  rewrite (proj2 (strip_prefix_app (chars ",") _ (b ++ suffix)) eq_refl).
  rewrite (@scan_seconds_app b suffix Hb Hd
             (@begins_with_point_strip suffix Hp)).
  now rewrite consumed_app.
Qed.

(** X23: a temporal fragment that gives both bounds, each of the shape
    digits or digits.digits, is read as that pair, whatever comes before
    the first "t=" and with or without "npt:", as long as what follows
    the end does not begin with a digit or a point; neither bound is
    [NaN]. *)
Theorem getTime_both_bounds pre npt a b suffix :
  includes "t=" pre = false ->
  npt = EmptyString \/ npt = "npt:" ->
  seconds_literal a = true -> seconds_literal b = true ->
  begins_with_digit (chars suffix) = false ->
  begins_with_point (chars suffix) = false ->
  getTime (pre ++ "t=" ++ npt ++ a ++ "," ++ b ++ suffix)
  = {| start := parseFloat (Some a); end_ := parseFloat (Some b) |}
  /\ Num.isNaN (parseFloat (Some a)) = false
  /\ Num.isNaN (parseFloat (Some b)) = false.
Proof.
  intros Hpre Hnpt Ha Hb Hd Hp.
  apply seconds_literal_scan in Ha, Hb.
  split; [|split].
  - rewrite (@getTime_first pre _ Hpre). rewrite !chars_app.
    rewrite (@temporal_groups_both (chars npt) (chars a) (chars b)
               (chars suffix)); try assumption.
    + cbn [fst snd]. now rewrite !text_chars.
    + destruct Hnpt as [->| ->]; [now left|now right].
  - apply parseFloat_digit. exact (@scan_seconds_digit _ _ Ha).
  - apply parseFloat_digit. exact (@scan_seconds_digit _ _ Hb).
Qed.

Lemma getTime_both_bounds_witness :
  getTime "https://example.org/3.audio#t=npt:12.5,30&x=1"
  = {| start := Num.decimal 125 1; end_ := Num.of_Z 30 |}.
Proof.
  destruct (@getTime_both_bounds "https://example.org/3.audio#" "npt:"
              "12.5" "30" "&x=1" eq_refl (or_intror eq_refl)
              eq_refl eq_refl eq_refl eq_refl) as (E & _ & _).
  etransitivity; [exact E|]. num_eq.
Defined.

(** X24: whatever the string, [getTime] returns no negative bound: each
    of [start] and [end] is [NaN] or a number that is at least 0. *)
Theorem getTime_bounds_are_NaN_or_not_negative frag :
  NaN_or_not_negative (start (getTime frag))
  /\ NaN_or_not_negative (end_ (getTime frag)).
Proof.
  destruct (includes "t=" frag) eqn:E.
  - unfold includes in E.
    change (chars "t=") with ["t"; "="]%char in E.
    destruct (@includes_chars_first _ _ _ E) as (pre & post & Hs & Hpre).
    assert (Hfrag : frag = (text pre ++ "t=" ++ text post)%string).
    { rewrite <- (text_chars frag), Hs.
      rewrite <- (text_chars (text pre ++ "t=" ++ text post)).
      now rewrite !chars_app, !chars_text. }
    rewrite Hfrag, getTime_first.
    + cbn [start end_]. rewrite chars_text.
      destruct (temporal_groups_seconds post) as [H3 H6].
      split; now apply parseFloat_group.
    + unfold includes. now rewrite chars_text.
  - rewrite (@getTime_unmatched frag E). cbn [start end_].
    assert (Z0 : NaN_or_not_negative Num.zero).
    { right. apply NumFacts.leb_Fin. apply Qcle_refl. }
    now split.
Qed.

(** ** [split] and [join] *)

Lemma split_scan_skip separator sep' : forall piece rest,
  split_scan separator (List.length sep') piece (sep' ++ rest)
  = split_scan separator 0 piece rest.
Proof.
  induction sep' as [|c sep' IH]; intros piece rest; [reflexivity|].
  cbn [List.length app split_scan]. apply IH.
Qed.

Lemma split_scan_piece a sep' p : forall piece,
  ~ In a p ->
  split_scan (a :: sep') 0 piece p = [(rev piece ++ p)%list]
  /\ forall rest,
       split_scan (a :: sep') 0 piece (p ++ (a :: sep') ++ rest)
       = (rev piece ++ p)%list :: split_scan (a :: sep') 0 [] rest.
Proof.
  induction p as [|c p IH]; intros piece Hp.
  - split; [cbn; now rewrite app_nil_r|]. intros rest.
    cbn [app split_scan].
    rewrite (proj2 (strip_prefix_app (a :: sep') (a :: sep' ++ rest) rest)
               eq_refl).
    rewrite app_nil_r. f_equal.
    replace (List.length (a :: sep') - 1) with (List.length sep')
      by (cbn [List.length]; lia).
    apply split_scan_skip.
  - assert (Hc : Ascii.eqb a c = false).
    { destruct (Ascii.eqb_spec a c) as [->|N]; [|reflexivity].
      destruct Hp. now left. }
    assert (Hp' : ~ In a p) by (intros I; apply Hp; now right).
    destruct (IH (c :: piece) Hp') as [H1 H2].
    cbn [rev] in H1, H2. rewrite <- !app_assoc in H1, H2. cbn [app] in H1, H2.
    split.
    + cbn [split_scan strip_prefix]. rewrite Hc. exact H1.
    + intros rest. cbn [app split_scan strip_prefix]. rewrite Hc.
      apply H2.
Qed.

(** [pieces.join(separator).split(separator)] gives the pieces back,
    when there is at least one and none holds the first character of the
    separator. *)
Lemma split_join a sep' pieces :
  pieces <> [] -> Forall (fun p => ~ In a p) pieces ->
  split (a :: sep') (join_chars (a :: sep') pieces) = pieces.
Proof.
  unfold split. intros Hne HF.
  induction pieces as [|p pieces IH]; [congruence|].
  inversion HF as [|? ? Hp HF']; subst.
  destruct pieces as [|p' pieces].
  - cbn [join_chars]. now rewrite (proj1 (@split_scan_piece a sep' p [] Hp)).
  - change (join_chars (a :: sep') (p :: p' :: pieces))
      with (p ++ (a :: sep') ++ join_chars (a :: sep') (p' :: pieces))%list.
    rewrite (proj2 (@split_scan_piece a sep' p [] Hp)). cbn [rev app].
    f_equal. apply IH; [discriminate|exact HF'].
Qed.

Lemma join_chars_In c separator pieces :
  In c (join_chars separator pieces) ->
  In c separator \/ exists p, In p pieces /\ In c p.
Proof.
  induction pieces as [|p pieces IH]; [intros []|].
  destruct pieces as [|p' pieces].
  - cbn [join_chars]. intros H. right. exists p. split; [now left|exact H].
  - change (join_chars separator (p :: p' :: pieces))
      with (p ++ separator ++ join_chars separator (p' :: pieces))%list.
    rewrite !in_app_iff. intros [H|[H|H]].
    + right. exists p. split; [now left|exact H].
    + now left.
    + destruct (IH H) as [Hs|(q & Hq & Hc)]; [now left|].
      right. exists q. split; [now right|exact Hc].
Qed.

Lemma strip_outer_polygon body :
  strip_outer (chars "((" ++ body ++ chars "))") = body.
Proof.
  unfold strip_outer.
  rewrite (proj2 (strip_prefix_app (chars "((") _ (body ++ chars "))"))
             eq_refl).
  unfold strip_suffix. rewrite rev_app_distr.
  rewrite (proj2 (strip_prefix_app (rev (chars "))")) _ (rev body))
             eq_refl).
  apply rev_involutive.
Qed.

(** ** [Number] on a string of digits *)

Lemma trim_start_digits ds :
  forallb is_digit ds = true -> trim_start ds = ds.
Proof.
  destruct ds as [|c ds]; [reflexivity|]. cbn [forallb trim_start].
  intros H. apply andb_prop in H. destruct H as [Hc _].
  now rewrite (digit_not_space _ Hc).
Qed.

Lemma forallb_rev {A} (f : A -> bool) l :
  forallb f l = true -> forallb f (rev l) = true.
Proof.
  rewrite !forallb_forall. intros H x Hx. apply H. now apply in_rev.
Qed.

Lemma trim_digits ds : forallb is_digit ds = true -> trim ds = ds.
Proof.
  intros H. unfold trim. rewrite (@trim_start_digits ds H).
  rewrite (@trim_start_digits (rev ds) (@forallb_rev _ is_digit ds H)).
  apply rev_involutive.
Qed.

Lemma scan_radix_digits ds :
  forallb is_digit ds = true -> scan_radix ds = None.
Proof.
  destruct ds as [|z [|x [|y t]]]; try reflexivity.
  cbn [forallb]. intros H.
  apply andb_prop in H. destruct H as [_ H].
  apply andb_prop in H. destruct H as [Hx _].
  unfold scan_radix. destruct (Ascii.eqb z "0"); [|reflexivity].
  rewrite !(digit_is_not _ _ Hx) by reflexivity. reflexivity.
Qed.

Lemma scan_decimal_digits c ds :
  forallb is_digit (c :: ds) = true ->
  scan_decimal (c :: ds)
  = Some (scale10 (digits_value (c :: ds)) 0, []).
Proof.
  cbn [forallb]. intros H. apply andb_prop in H. destruct H as [Hc Hd].
  unfold scan_decimal.
  rewrite !(digit_is_not _ _ Hc) by reflexivity.
  change (chars "Infinity") with ["I"; "n"; "f"; "i"; "n"; "i"; "t"; "y"]%char.
  rewrite strip_prefix_digit by (reflexivity || assumption).
  cbn [span_digits]. rewrite Hc.
  rewrite <- (app_nil_r ds) at 1.
  rewrite (@span_digits_app ds [] Hd eq_refl).
  cbn [scan_exponent List.length app]. rewrite app_nil_r. reflexivity.
Qed.

Lemma scale10_integer m : scale10 m 0 = Num.of_Z m.
Proof.
  unfold scale10, Num.of_Z. change (10 ^ 0)%Z with 1%Z.
  now rewrite Z.mul_1_r.
Qed.

Lemma Number_digits ds :
  digit_string ds -> Number (text ds) = Num.of_Z (digits_value ds).
Proof.
  intros [Hne Hd]. unfold Number. rewrite chars_text, (@trim_digits ds Hd).
  destruct ds as [|c ds]; [congruence|].
  rewrite (@scan_radix_digits _ Hd), (@scan_decimal_digits _ _ Hd).
  apply scale10_integer.
Qed.

Lemma digits_without c ds :
  is_digit c = false -> forallb is_digit ds = true -> ~ In c ds.
Proof.
  intros Hc Hd Hin. rewrite forallb_forall in Hd.
  specialize (Hd _ Hin). congruence.
Qed.

Lemma point_chars_parse coords :
  coords <> [] -> Forall digit_string coords ->
  map (fun field => Number (text field))
    (split (chars ",") (remove_first (chars "P") (point_chars coords)))
  = map (fun ds => Num.of_Z (digits_value ds)) coords.
Proof.
  intros Hne HF.
  assert (Hr : remove_first (chars "P") (point_chars coords)
               = join_chars (chars ",") coords) by reflexivity.
  rewrite Hr. change (chars ",") with [","%char].
  rewrite split_join; [|exact Hne|].
  - apply map_ext_in. intros ds Hin. rewrite Forall_forall in HF.
    apply Number_digits. now apply HF.
  - revert HF. apply Forall_impl. intros ds [_ Hd].
    now apply digits_without.
Qed.

Lemma point_chars_without coords :
  Forall digit_string coords -> ~ In ")"%char (point_chars coords).
Proof.
  intros HF [H|H]; [discriminate H|].
  apply join_chars_In in H. destruct H as [H|(ds & Hds & H)].
  - destruct H as [H|[]]. discriminate H.
  - rewrite Forall_forall in HF. destruct (HF _ Hds) as [_ Hd].
    exact (digits_without ")" ds eq_refl Hd H).
Qed.

(** X25: the text of a polygon, "((Px,y)(Px,y)...)" with at least one
    point, at least one coordinate in each point and every coordinate a
    non-empty string of decimal digits (of a value that a double holds
    exactly), is parsed into the numbers it writes, point by point and
    coordinate by coordinate. *)
Theorem parseFragmentSelector_reads_polygon points :
  points <> [] ->
  Forall (fun coords => coords <> [] /\ Forall safe_integer coords) points ->
  parseFragmentSelector (text (polygon_chars points))
  = map (map (fun ds => Num.of_Z (digits_value ds))) points.
Proof.
  intros Hne HS.
  assert (HF : Forall (fun coords =>
                         coords <> [] /\ Forall digit_string coords) points).
  { revert HS. apply Forall_impl. intros coords [Hc Hd].
    split; [exact Hc|]. revert Hd. apply Forall_impl. now intros ds [Hd _]. }
  clear HS. unfold parseFragmentSelector, polygon_chars.
  rewrite chars_text, strip_outer_polygon.
  change (chars ")(") with [")"; "("]%char.
  rewrite split_join.
  - rewrite map_map. apply map_ext_in. intros coords Hin.
    rewrite Forall_forall in HF. destruct (HF _ Hin) as [Hc Hd].
    now apply point_chars_parse.
  - destruct points; [congruence|discriminate].
  - apply Forall_map. revert HF. apply Forall_impl.
    intros coords [_ Hd]. now apply point_chars_without.
Qed.

Lemma parseFragmentSelector_reads_polygon_witness :
  parseFragmentSelector "((P1593,1999)(P1626,2030))"
  = [ [Num.of_Z 1593; Num.of_Z 1999]; [Num.of_Z 1626; Num.of_Z 2030] ].
Proof.
  refine (@parseFragmentSelector_reads_polygon
            [ [chars "1593"; chars "1999"]; [chars "1626"; chars "2030"] ]
            _ _).
  - discriminate.
  - repeat constructor; (discriminate || (vm_compute; discriminate)).
Defined.

(** * The reconciler, in terms that rounding keeps true *)

(** In IEEE double arithmetic the midpoint of 1 and the double after 1 is
    1 again: the sum rounds to 2.  Two segments can therefore begin at
    the same instant although their triples do not. *)
Lemma midpoint_rounds_onto_bound_in_doubles :
  SpecFloat.SFltb (Binary64.decimal 1 0) double_after_one = true
  /\ Binary64.div
       (Binary64.add (Binary64.decimal 1 0) double_after_one)
       (Binary64.decimal 2 0)
     = Binary64.decimal 1 0.
Proof. split; vm_compute; reflexivity. Qed.

Lemma ascending_weaken segs : ascending_by_start segs -> ascending_starts segs.
Proof.
  apply StronglySorted_impl_in. intros a b _ _. apply NumFacts.lt_le.
Qed.

(** C1 (amended): for every set of triples with finite bounds of
    magnitude at most 2^1022, observedMin <= observedMax, pairwise
    distinct observedMin and no range nested in another (the triple that
    begins first never ends last), both reconcilers return segments in
    ascending order of start, none of them inverted and none reaching
    into a later one, that run without a gap from the least observedMin
    to the greatest observedMax.  The order of the starts is not said to
    be strict: a midpoint can round onto the boundary before it. *)
Theorem reconciler_partitions_unnested_ranges entries :
  Forall proper entries -> Forall summable entries ->
  distinct_mins entries -> unnested entries ->
  (forall canvasMinMax, canvas_entries canvasMinMax = entries ->
     exists segs, orderCanvasMapping canvasMinMax = Ok segs
                  /\ ordered_partition entries segs)
  /\ (forall annotation, note_triples annotation = entries ->
     exists segs, orderAnnotationMapping annotation = Ok segs
                  /\ ordered_partition entries segs).
Proof.
  intros Hp _ Hd Hn.
  destruct (reconciled_valid Hp Hd Hn) as (Ha & Ho & Hc).
  pose proof (ascending_weaken Ha) as Hw.
  split.
  - intros canvasMinMax <-. eexists. split.
    + apply orderCanvasMapping_partition.
    + exact (conj Hw (conj Ho Hc)).
  - intros annotation <-. eexists. split.
    + apply orderAnnotationMapping_partition.
    + exact (conj Hw (conj Ho Hc)).
Qed.

Lemma reconciler_partitions_unnested_ranges_witness :
  exists segs,
    orderCanvasMapping overlapping_pages = Ok segs
    /\ ordered_partition (canvas_entries overlapping_pages) segs.
Proof.
  refine (proj1 (@reconciler_partitions_unnested_ranges
                   (canvas_entries overlapping_pages) _ _ _ _)
                overlapping_pages eq_refl).
  - repeat constructor.
  - repeat constructor.
  - repeat constructor; cbn; intros H;
      repeat (destruct H as [H|H]; [discriminate H|]); exact H.
  - intros a b Ha Hb.
    cbn in Ha, Hb.
    repeat (destruct Ha as [<-|Ha]); try contradiction;
    repeat (destruct Hb as [<-|Hb]); try contradiction;
    vm_compute; intros H; first [reflexivity|discriminate H].
Defined.

(** ** Contiguity under [==] *)

Lemma equals_refl x : Num.finite x -> equals x x = true.
Proof.
  destruct x as [| | |q]; cbn; try contradiction. intros _.
  now rewrite (proj1 (Qceq_alt q q) eq_refl).
Qed.

Lemma segment_end_finite current next :
  finite_bounds current ->
  match next with Some n => finite_bounds n | None => True end ->
  Num.finite (segment_end current next).
Proof.
  intros [_ Hmax] Hn. unfold segment_end. destruct next as [n|]; [|exact Hmax].
  destruct Hn as [Hmin _].
  destruct (NumFacts.finite_Fin _ Hmax) as [a ->].
  destruct (NumFacts.finite_Fin _ Hmin) as [b ->].
  now rewrite NumFacts.div_add_two.
Qed.

Lemma partition_from_finite entries : forall start,
  Forall finite_bounds entries ->
  Forall (fun s => Num.finite (seg_end s)) (partition_from start entries).
Proof.
  induction entries as [|current rest IH]; intros start HF;
    cbn [partition_from]; [constructor|].
  inversion HF as [|? ? Hc Hr]; subst. constructor.
  - cbn [seg_end]. apply segment_end_finite; [exact Hc|].
    destruct rest as [|n rest]; [exact I|]. cbn [hd_error].
    now inversion Hr.
  - now apply IH.
Qed.

Lemma partition_adjacent_equal entries :
  Forall finite_bounds entries -> adjacent_equal (partition entries).
Proof.
  intros HF i s t Hs Ht.
  rewrite <- (partition_contiguous entries i Hs Ht).
  apply equals_refl.
  assert (Hall : Forall (fun s => Num.finite (seg_end s))
                   (partition entries)).
  { unfold partition. destruct entries as [|first rest]; [constructor|].
    now apply partition_from_finite. }
  rewrite Forall_forall in Hall. apply Hall.
  exact (nth_error_In _ _ Hs).
Qed.

Lemma finite_defined x : Num.finite x -> x <> NaN.
Proof. destruct x; [contradiction|discriminate..]. Qed.

(** What both reconcilers return for triples with finite bounds. *)
Lemma reconciled_from_least_min entries :
  entries <> [] -> Forall finite_bounds entries ->
  exists first,
    hd_error (partition (array_sort byOriginalMin entries)) = Some first
    /\ List.length (partition (array_sort byOriginalMin entries))
       = List.length entries
    /\ least_min entries (seg_start first)
    /\ adjacent_equal (partition (array_sort byOriginalMin entries)).
Proof.
  intros Hne HF.
  pose proof (array_sort_perm originalMin entries) as Hperm.
  assert (HFs : Forall finite_bounds (array_sort byOriginalMin entries)).
  { apply Forall_forall. intros e He. rewrite Forall_forall in HF.
    apply HF. exact (Permutation_in _ Hperm He). }
  assert (Hdef : Forall (key_defined originalMin) entries).
  { revert HF. apply Forall_impl. intros e [Hmin _].
    now apply finite_defined. }
  pose proof (@array_sort_sorted _ originalMin entries Hdef) as Hsorted.
  pose proof (partition_adjacent_equal HFs) as Hadj.
  assert (Hlen : List.length (partition (array_sort byOriginalMin entries))
                 = List.length entries).
  { rewrite <- (length_map seg_id),
      (Permutation_length (reconciled_ids entries)).
    apply length_map. }
  change (array_sort (fun a b => Num.sub (originalMin a) (originalMin b))
            entries)
    with (array_sort byOriginalMin entries) in Hperm, Hsorted.
  destruct (array_sort byOriginalMin entries) as [|e0 rest] eqn:E.
  { apply Permutation_nil in Hperm. congruence. }
  eexists. split; [reflexivity|]. split; [exact Hlen|].
  split; [|exact Hadj]. cbn [seg_start]. split.
  - exists e0. split; [|reflexivity].
    apply (Permutation_in _ Hperm). now left.
  - intros e He. apply (Permutation_in _ (Permutation_sym Hperm)) in He.
    inversion Hsorted as [|? ? _ Hall]; subst.
    destruct He as [<-|He].
    + apply le_refl. inversion HFs as [|? ? [Hmin _] _]; subst.
      now apply finite_defined.
    + rewrite Forall_forall in Hall. exact (Hall _ He).
Qed.

(** C2, as stated, fails: a page whose notes have no end has the maximum
    [NaN]; the boundary between it and the next page is [NaN] on both
    sides, and [NaN == NaN] is false. *)
Lemma NaN_boundary_is_not_equal :
  exists s t,
    orderCanvasMapping open_ended_pages = Ok [s; t]
    /\ equals (seg_end s) (seg_start t) = false.
Proof.
  do 2 eexists. split; [vm_compute; reflexivity|reflexivity].
Qed.

(** C2 (amended): for every non-empty set of triples with finite bounds,
    each reconciler returns one segment per triple; the first segment
    begins at the least observedMin (the observedMin of the first triple
    after sorting), and every segment ends where the next one begins:
    [segments[i].end == segments[i+1].start]. *)
Theorem reconciler_contiguous_from_least_min entries :
  entries <> [] -> Forall finite_bounds entries ->
  (forall canvasMinMax, canvas_entries canvasMinMax = entries ->
     exists first segs,
       orderCanvasMapping canvasMinMax = Ok segs
       /\ hd_error segs = Some first
       /\ List.length segs = List.length entries
       /\ least_min entries (seg_start first)
       /\ adjacent_equal segs)
  /\ (forall annotation, note_triples annotation = entries ->
     exists first segs,
       orderAnnotationMapping annotation = Ok segs
       /\ hd_error segs = Some first
       /\ List.length segs = List.length entries
       /\ least_min entries (seg_start first)
       /\ adjacent_equal segs).
Proof.
  intros Hne HF.
  destruct (reconciled_from_least_min Hne HF) as (first & H).
  split.
  - intros canvasMinMax <-. exists first. eexists.
    split; [apply orderCanvasMapping_partition|exact H].
  - intros annotation <-. exists first. eexists.
    split; [apply orderAnnotationMapping_partition|exact H].
Qed.

Lemma reconciler_contiguous_from_least_min_witness :
  exists first segs,
    orderCanvasMapping nested_pages = Ok segs
    /\ hd_error segs = Some first
    /\ List.length segs = 3
    /\ least_min (canvas_entries nested_pages) (seg_start first)
    /\ adjacent_equal segs.
Proof.
  refine (proj1 (@reconciler_contiguous_from_least_min
                   (canvas_entries nested_pages) _ _)
                nested_pages eq_refl).
  - discriminate.
  - repeat constructor.
Defined.

(** * The join when no temporal id is the prototype key *)

(** The mapping is a plain object.  As long as the temporal collection
    has no id "__proto__", no scan writes through [mapping["__proto__"]],
    the prototype keeps no field of a record, and the keys of the mapping
    are the properties it owns.  With such an id the audio scan puts
    [audio] on [Object.prototype]; every inherited name, "constructor"
    for one, then passes the guard of the image scan without a temporal
    annotation of its own.  The statements below leave that case out. *)

Lemma time_ranges_eq (l1 : Record NoteRecord) : forall l2,
  keys l1 = keys l2 -> NoDup (keys l1) ->
  (forall id, option_map audio (get id l1) = option_map audio (get id l2)) ->
  time_ranges l1 = time_ranges l2.
Proof.
  induction l1 as [|[k r] l1 IH]; intros [|[k' r'] l2]; cbn [keys map fst];
    try discriminate; [reflexivity|].
  intros [= <- Hk] Hnd Hg. inversion Hnd as [|? ? Hnew Hnd']; subst.
  cbn [time_ranges map]. f_equal.
  - specialize (Hg k). cbn [get] in Hg. rewrite String.eqb_refl in Hg.
    cbn in Hg. congruence.
  - apply IH; [exact Hk|exact Hnd'|].
    intros id. destruct (String.eqb_spec id k) as [->|N].
    + assert (Hnew' : ~ In k (keys l2)).
      { unfold keys in *. now rewrite <- Hk. }
      rewrite (proj2 (get_None_keys k l1) Hnew).
      now rewrite (proj2 (get_None_keys k l2) Hnew').
    + specialize (Hg id). cbn [get] in Hg.
      apply String.eqb_neq in N. now rewrite N in Hg.
Qed.

Section OwnKeys.

Variable number_to_string : number -> string.
Variable serviceToCanvasId : Record string.
Variable vault_get : option string -> option Canvas.

(** X7: the early return.  When the temporal collection has no id
    "__proto__", the scan of the image annotations of an id that the
    temporal collection does not have changes neither the mapping nor
    the accumulator and cannot throw, whatever the annotations are and
    at whatever point of the image scan. *)
Theorem image_scan_skips_note_without_audio
    audioAnnotations m id annotationList st :
  ~ In prototype_key (keys audioAnnotations) ->
  audio_pass audioAnnotations = Ok m ->
  keys (mapping st) = keys m ->
  ~ In id (keys audioAnnotations) ->
  image_annotations number_to_string serviceToCanvasId vault_get
    id annotationList st = Ok st.
Proof.
  intros _ Ha Hk Hid. apply image_annotations_skip.
  assert (E : get id (mapping st) = None).
  { apply get_None_keys. rewrite Hk. intros Hin. apply Hid.
    exact (@audio_pass_keys audioAnnotations m id Ha Hin). }
  now rewrite E.
Qed.

(** X8: when the temporal collection has no id "__proto__", the scan of
    the image annotations leaves the ids of the mapping and their time
    ranges as the audio scan made them: no key more, none less, the same
    order. *)
Theorem image_scan_keeps_temporal_data
    audioAnnotations imageAnnotations m st :
  ~ In prototype_key (keys audioAnnotations) ->
  audio_pass audioAnnotations = Ok m ->
  image_pass number_to_string serviceToCanvasId vault_get
    imageAnnotations m = Ok st ->
  time_ranges (mapping st) = time_ranges m.
Proof.
  intros _ Ha Hi.
  destruct (image_pass_keeps _ _ _ _ _ Hi) as [Hk Hg].
  apply time_ranges_eq; [exact Hk| |exact Hg].
  rewrite Hk. exact (proj1 (audio_pass_records _ Ha)).
Qed.

(** X10: when the temporal collection has no id "__proto__", a note id
    that the image collection never mentions keeps a record with a time
    range only; it has no segment in the note partition and no highlight
    annotation in the output document. *)
Theorem temporal_only_note_is_dropped
    audioAnnotations imageAnnotations noteId st :
  ~ In prototype_key (keys audioAnnotations) ->
  ~ In noteId (keys imageAnnotations) ->
  join number_to_string serviceToCanvasId vault_get
    audioAnnotations imageAnnotations = Ok st ->
  (forall r, In (noteId, r) (mapping st) -> temporal_only r)
  /\ (exists segs,
        orderAnnotationMapping (mapping st) = Ok segs
        /\ ~ In noteId (map seg_id segs))
  /\ forall audioCanvas canvasToServiceId resourceMap manifest,
       generate number_to_string serviceToCanvasId vault_get
         audioAnnotations imageAnnotations
         audioCanvas canvasToServiceId resourceMap = Ok manifest ->
       forall hl, In hl (manifest_annotations manifest) ->
         highlight_id hl <> "https://example/image-anno/" ++ noteId.
Proof.
  intros _ Hid H.
  destruct (@join_drops_temporal_only number_to_string serviceToCanvasId
              vault_get audioAnnotations imageAnnotations noteId st Hid H)
    as (Hr & Hs & Hh).
  split; [|split; [exact Hs|exact Hh]].
  intros r Hin. apply Hr. apply In_get; [|exact Hin].
  exact (proj1 (@join_records number_to_string serviceToCanvasId vault_get
                  audioAnnotations imageAnnotations st H)).
Qed.

(** X26: when the temporal collection has no id "__proto__", a note id
    that it never mentions gets no key in the mapping of the join,
    whatever the spatial collection holds for it, no segment in the note
    partition, and no highlight annotation in the output document. *)
Theorem spatial_only_note_gets_no_key
    audioAnnotations imageAnnotations noteId st :
  ~ In prototype_key (keys audioAnnotations) ->
  ~ In noteId (keys audioAnnotations) ->
  join number_to_string serviceToCanvasId vault_get
    audioAnnotations imageAnnotations = Ok st ->
  ~ In noteId (keys (mapping st))
  /\ (exists segs,
        orderAnnotationMapping (mapping st) = Ok segs
        /\ ~ In noteId (map seg_id segs))
  /\ forall audioCanvas canvasToServiceId resourceMap manifest,
       generate number_to_string serviceToCanvasId vault_get
         audioAnnotations imageAnnotations
         audioCanvas canvasToServiceId resourceMap = Ok manifest ->
       forall hl, In hl (manifest_annotations manifest) ->
         highlight_id hl <> "https://example/image-anno/" ++ noteId.
Proof.
  intros _ Hid H.
  exact (@join_drops_spatial_only number_to_string serviceToCanvasId
           vault_get audioAnnotations imageAnnotations noteId st Hid H).
Qed.

End OwnKeys.

Lemma sample_ids_are_own_keys :
  ~ In prototype_key (keys sample_audio_annotations)
  /\ ~ In prototype_key (keys sample_audio_annotations_more).
Proof.
  split.
  - intros [H|[]]. discriminate H.
  - intros [H|[H|[]]]; discriminate H.
Qed.

Lemma image_scan_skips_note_without_audio_witness :
  image_annotations sample_number_to_string sample_serviceToCanvasId
    sample_vault_get "n2"
    [ {| body := None |};
      {| body :=
           Some {| source := Some "https://example.org/f2";
                   selector :=
                     Some {| selector_type := Some "FragmentSelector";
                             selector_value := None |} |} |} ]
    {| mapping := sample_mapping; canvasMinMax := [] |}
  = Ok {| mapping := sample_mapping; canvasMinMax := [] |}.
Proof.
  apply (@image_scan_skips_note_without_audio sample_number_to_string
           sample_serviceToCanvasId sample_vault_get
           sample_audio_annotations sample_mapping).
  - exact (proj1 sample_ids_are_own_keys).
  - vm_compute. reflexivity.
  - reflexivity.
  - intros [H|[]]. discriminate H.
Defined.

Lemma image_scan_keeps_temporal_data_witness :
  exists st,
    image_pass sample_number_to_string sample_serviceToCanvasId
      sample_vault_get sample_image_annotations sample_mapping = Ok st
    /\ time_ranges (mapping st) = time_ranges sample_mapping.
Proof.
  eexists. split; [vm_compute; reflexivity|].
  refine (@image_scan_keeps_temporal_data sample_number_to_string
            sample_serviceToCanvasId sample_vault_get
            sample_audio_annotations sample_image_annotations
            sample_mapping _ (proj1 sample_ids_are_own_keys) _ _).
  - vm_compute. reflexivity.
  - vm_compute. reflexivity.
Defined.

Lemma temporal_only_note_is_dropped_witness :
  exists st,
    join sample_number_to_string sample_serviceToCanvasId sample_vault_get
      sample_audio_annotations_more sample_image_annotations = Ok st
    /\ In "n3" (keys (mapping st))
    /\ (forall r, In ("n3", r) (mapping st) -> temporal_only r)
    /\ exists segs,
         orderAnnotationMapping (mapping st) = Ok segs
         /\ ~ In "n3" (map seg_id segs).
Proof.
  eexists. split; [vm_compute; reflexivity|].
  split; [right; now left|].
  refine (let H := @temporal_only_note_is_dropped
                     sample_number_to_string sample_serviceToCanvasId
                     sample_vault_get sample_audio_annotations_more
                     sample_image_annotations "n3" _
                     (proj2 sample_ids_are_own_keys) _ _ in
          conj (proj1 H) (proj1 (proj2 H))).
  - intros [H|[H|[]]]; discriminate H.
  - vm_compute. reflexivity.
Defined.

Lemma spatial_only_note_gets_no_key_witness :
  exists st,
    join sample_number_to_string sample_serviceToCanvasId sample_vault_get
      sample_audio_annotations sample_image_annotations = Ok st
    /\ In "n2" (keys sample_image_annotations)
    /\ In "n1" (keys (mapping st))
    /\ ~ In "n2" (keys (mapping st))
    /\ exists segs,
         orderAnnotationMapping (mapping st) = Ok segs
         /\ ~ In "n2" (map seg_id segs).
Proof.
  eexists. split; [vm_compute; reflexivity|].
  split; [right; now left|]. split; [now left|].
  refine (let H := @spatial_only_note_gets_no_key
                     sample_number_to_string sample_serviceToCanvasId
                     sample_vault_get sample_audio_annotations
                     sample_image_annotations "n2" _
                     (proj1 sample_ids_are_own_keys) _ _ in
          conj (proj1 H) (proj1 (proj2 H))).
  - intros [H|[]]. discriminate H.
  - vm_compute. reflexivity.
Defined.
